(** * sargs: a shallow embedding of [src/sargs.h] and its properties

  The C++ class [sargs::Args] is embedded as a record of its data members;
  member functions become functions on that record (or on the one member
  they touch).  [std::map<std::string, std::string>] is a [gmap string
  string], [std::vector] is a [list], [size_t] and [unsigned] values are
  binary naturals [N] with wrap-around written where the source subtracts,
  and [int] counters are integers [Z]. *)

From Stdlib Require Import ZArith NArith String Ascii List Bool Lia DecimalString.
From Stdlib Require DecimalFacts DecimalPos DecimalN.
From stdpp Require Import gmap strings list fin_maps.

Local Open Scope string_scope.
Local Open Scope list_scope.

(** ** std::string helpers *)

Module Str.

(** [s.empty()] *)
Definition empty (s : string) : bool :=
  match s with EmptyString => true | String _ _ => false end.

(** [s.size()] as a [size_t] *)
Definition size (s : string) : N := N.of_nat (String.length s).

(** [s.find_first_of(c)]; [None] stands for [std::string::npos]. *)
Fixpoint find_first_of (c : ascii) (s : string) : option nat :=
  match s with
  | EmptyString => None
  | String x s' =>
      if Ascii.eqb x c then Some 0%nat
      else match find_first_of c s' with
           | Some p => Some (S p)
           | None => None
           end
  end.

(** [s.substr(0, pos)], where [pos] may be [npos] (the whole string). *)
Definition prefix (s : string) (pos : option nat) : string :=
  match pos with
  | Some p => String.substring 0 p s
  | None => s
  end.

(** [s.substr(pos)] for [pos <= s.size()] *)
Definition suffix (s : string) (pos : nat) : string :=
  String.substring pos (String.length s - pos) s.

(** [std::to_string] of an unsigned value: its decimal digits. *)
Definition to_string (n : N) : string :=
  NilZero.string_of_uint (N.to_uint n).

(** [std::string(n, ' ')] *)
Fixpoint spaces (n : nat) : string :=
  match n with
  | O => ""
  | S k => String " " (spaces k)
  end.

End Str.

(** ** Data model *)

(** [struct Argument]; the four-argument constructor leaves [fallback]
    empty. *)
Record Argument := mkArgument {
  flag : string;
  alias : string;
  description : string;
  fallback : string;
  value : bool
}.

Definition Argument4 (f a d : string) (v : bool) : Argument :=
  mkArgument f a d "" v.

Definition Argument5 (f a d : string) (v : bool) (fb : string) : Argument :=
  mkArgument f a d fb v.

(** The private data members of [class Args]. *)
Record Args := mkArgs {
  _required : list Argument;
  _optional : list Argument;
  _arguments : gmap string string;
  _nonflags : list string;
  _binary : string;
  _flag_description : string;
  _epilogue : string;
  _preamble : string;
  _nonflags_required : N;
  _help_enabled : bool;
  _exit_enabled : bool;
  _exceptions_enabled : bool;
  _usage_enabled : bool;
  _desc_start : N;
  _desc_width : N
}.

(** [Args() = default] with the in-class member initialisers. *)
Definition Args_default : Args :=
  mkArgs [] [] ∅ [] "" "" "" "" 0 true true true true 30 50.

Definition set_required (l : list Argument) (a : Args) : Args :=
  mkArgs l (_optional a) (_arguments a) (_nonflags a) (_binary a)
    (_flag_description a) (_epilogue a) (_preamble a) (_nonflags_required a)
    (_help_enabled a) (_exit_enabled a) (_exceptions_enabled a)
    (_usage_enabled a) (_desc_start a) (_desc_width a).

Definition set_optional (l : list Argument) (a : Args) : Args :=
  mkArgs (_required a) l (_arguments a) (_nonflags a) (_binary a)
    (_flag_description a) (_epilogue a) (_preamble a) (_nonflags_required a)
    (_help_enabled a) (_exit_enabled a) (_exceptions_enabled a)
    (_usage_enabled a) (_desc_start a) (_desc_width a).

Definition set_arguments (m : gmap string string) (a : Args) : Args :=
  mkArgs (_required a) (_optional a) m (_nonflags a) (_binary a)
    (_flag_description a) (_epilogue a) (_preamble a) (_nonflags_required a)
    (_help_enabled a) (_exit_enabled a) (_exceptions_enabled a)
    (_usage_enabled a) (_desc_start a) (_desc_width a).

Definition set_nonflags (l : list string) (a : Args) : Args :=
  mkArgs (_required a) (_optional a) (_arguments a) l (_binary a)
    (_flag_description a) (_epilogue a) (_preamble a) (_nonflags_required a)
    (_help_enabled a) (_exit_enabled a) (_exceptions_enabled a)
    (_usage_enabled a) (_desc_start a) (_desc_width a).

Definition set_binary (b : string) (a : Args) : Args :=
  mkArgs (_required a) (_optional a) (_arguments a) (_nonflags a) b
    (_flag_description a) (_epilogue a) (_preamble a) (_nonflags_required a)
    (_help_enabled a) (_exit_enabled a) (_exceptions_enabled a)
    (_usage_enabled a) (_desc_start a) (_desc_width a).

Definition set_flag_description (s : string) (a : Args) : Args :=
  mkArgs (_required a) (_optional a) (_arguments a) (_nonflags a) (_binary a)
    s (_epilogue a) (_preamble a) (_nonflags_required a)
    (_help_enabled a) (_exit_enabled a) (_exceptions_enabled a)
    (_usage_enabled a) (_desc_start a) (_desc_width a).

Definition set_preamble (s : string) (a : Args) : Args :=
  mkArgs (_required a) (_optional a) (_arguments a) (_nonflags a) (_binary a)
    (_flag_description a) (_epilogue a) s (_nonflags_required a)
    (_help_enabled a) (_exit_enabled a) (_exceptions_enabled a)
    (_usage_enabled a) (_desc_start a) (_desc_width a).

(** ** Declaration surface *)

Definition AddRequiredFlag (f al d : string) (a : Args) : Args :=
  set_required (_required a ++ [Argument4 f al d false]) a.

Definition AddRequiredFlagValue (f al d fb : string) (a : Args) : Args :=
  set_required (_required a ++ [Argument5 f al d true fb]) a.

Definition AddOptionalFlag (f al d : string) (a : Args) : Args :=
  set_optional (_optional a ++ [Argument4 f al d false]) a.

Definition AddOptionalFlagValue (f al d fb : string) (a : Args) : Args :=
  set_optional (_optional a ++ [Argument5 f al d true fb]) a.

(** [RequireNonFlags(const int count)]: the [int] is converted to the
    [size_t] member, i.e. reduced modulo 2^64. *)
Definition RequireNonFlags (count : Z) (a : Args) : Args :=
  mkArgs (_required a) (_optional a) (_arguments a) (_nonflags a) (_binary a)
    (_flag_description a) (_epilogue a) (_preamble a)
    (Z.to_N (count mod 2 ^ 64))
    (_help_enabled a) (_exit_enabled a) (_exceptions_enabled a)
    (_usage_enabled a) (_desc_start a) (_desc_width a).

Definition DisableHelp (a : Args) : Args :=
  mkArgs (_required a) (_optional a) (_arguments a) (_nonflags a) (_binary a)
    (_flag_description a) (_epilogue a) (_preamble a) (_nonflags_required a)
    false (_exit_enabled a) (_exceptions_enabled a)
    (_usage_enabled a) (_desc_start a) (_desc_width a).


Definition DisableExceptions (a : Args) : Args :=
  mkArgs (_required a) (_optional a) (_arguments a) (_nonflags a) (_binary a)
    (_flag_description a) (_epilogue a) (_preamble a) (_nonflags_required a)
    (_help_enabled a) (_exit_enabled a) false
    (_usage_enabled a) (_desc_start a) (_desc_width a).

Definition DisableUsage (a : Args) : Args :=
  mkArgs (_required a) (_optional a) (_arguments a) (_nonflags a) (_binary a)
    (_flag_description a) (_epilogue a) (_preamble a) (_nonflags_required a)
    (_help_enabled a) (_exit_enabled a) (_exceptions_enabled a)
    false (_desc_start a) (_desc_width a).

(** [SetDescStartColumn] and [SetDescWidth] take an [unsigned]. *)
Definition SetDescStartColumn (column : N) (a : Args) : Args :=
  mkArgs (_required a) (_optional a) (_arguments a) (_nonflags a) (_binary a)
    (_flag_description a) (_epilogue a) (_preamble a) (_nonflags_required a)
    (_help_enabled a) (_exit_enabled a) (_exceptions_enabled a)
    (_usage_enabled a) (column mod 2 ^ 32) (_desc_width a).

Definition SetDescWidth (width : N) (a : Args) : Args :=
  mkArgs (_required a) (_optional a) (_arguments a) (_nonflags a) (_binary a)
    (_flag_description a) (_epilogue a) (_preamble a) (_nonflags_required a)
    (_help_enabled a) (_exit_enabled a) (_exceptions_enabled a)
    (_usage_enabled a) (_desc_start a) (width mod 2 ^ 32).

(** ** Registry lookups *)

(** The loop body shared by [CheckIfNonValueFlag] and [CheckIfValueFlag]:
    the first declaration one of whose spellings is [f]. *)
Fixpoint first_match (f : string) (l : list Argument) : option Argument :=
  match l with
  | [] => None
  | iter :: rest =>
      if String.eqb f (flag iter) || String.eqb f (alias iter) then Some iter
      else first_match f rest
  end.

Definition CheckIfNonValueFlag (a : Args) (f : string) : bool :=
  match first_match f (_required a) with
  | Some iter => negb (value iter)
  | None =>
      match first_match f (_optional a) with
      | Some iter => negb (value iter)
      | None => false
      end
  end.

Definition CheckIfValueFlag (a : Args) (f : string) : bool :=
  match first_match f (_required a) with
  | Some iter => value iter
  | None =>
      match first_match f (_optional a) with
      | Some iter => value iter
      | None => false
      end
  end.

Fixpoint FindAlternative_in (f : string) (l : list Argument) : option string :=
  match l with
  | [] => None
  | iter :: rest =>
      if String.eqb (flag iter) f then Some (alias iter)
      else if String.eqb (alias iter) f then Some (flag iter)
      else FindAlternative_in f rest
  end.

Definition FindAlternative (a : Args) (f : string) : string :=
  match FindAlternative_in f (_required a) with
  | Some s => s
  | None =>
      match FindAlternative_in f (_optional a) with
      | Some s => s
      | None => ""
      end
  end.

(** [Has] walks the entries of [_arguments] and compares each key. *)
Definition Has (a : Args) (f : string) : bool :=
  let alternative := FindAlternative a f in
  existsb (fun kv => String.eqb (fst kv) f || String.eqb (fst kv) alternative)
          (map_to_list (_arguments a)).

(** [TryFlagValueSplit]: [None] is the [false] return, [Some] carries the
    pair written to [flag_value]. *)
Definition TryFlagValueSplit (a : Args) (arg : string) : option (string * string) :=
  let pos := Str.find_first_of "=" arg in
  let current_flag := Str.prefix arg pos in
  let is_expected := CheckIfValueFlag a current_flag in
  match pos with
  | Some p => if is_expected then Some (current_flag, Str.suffix arg (S p)) else None
  | None => None
  end.

(** ** The scan loop of [Parse] *)

(** The loop's state: the object (its [_arguments] and [_nonflags] change)
    and the two locals. *)
Record Scan := mkScan {
  sc_args : Args;
  flags_encountered : Z;
  delim_encountered : bool
}.

(** [++flags_encountered; if (flags_encountered >= total_flags)
    delim_encountered = true;] after a store write. *)
Definition count_flag (total_flags : Z) (m : gmap string string) (s : Scan) : Scan :=
  let n := (flags_encountered s + 1)%Z in
  mkScan (set_arguments m (sc_args s)) n
         (if (n >=? total_flags)%Z then true else delim_encountered s).

(** The [for] loop over [argv[1..argc)].  [Some msg] is the early [return]
    of a diagnostic from inside the loop; a value flag consumes the next
    token too. *)
Fixpoint scan (total_flags : Z) (s : Scan) (tokens : list string)
  : Scan * option string :=
  match tokens with
  | [] => (s, None)
  | current :: rest =>
      let a := sc_args s in
      if String.eqb current "--" then
        scan total_flags (mkScan a (flags_encountered s) true) rest
      else if delim_encountered s then
        scan total_flags
          (mkScan (set_nonflags (_nonflags a ++ [current]) a)
                  (flags_encountered s) (delim_encountered s)) rest
      else if CheckIfNonValueFlag a current then
        scan total_flags (count_flag total_flags (<[current := ""]> (_arguments a)) s) rest
      else if CheckIfValueFlag a current then
        match rest with
        | [] => (s, Some ("Must set value for " +:+ current))
        | next :: rest' =>
            scan total_flags
              (count_flag total_flags (<[current := next]> (_arguments a)) s) rest'
        end
      else
        match TryFlagValueSplit a current with
        | Some (f, v) =>
            scan total_flags (count_flag total_flags (<[f := v]> (_arguments a)) s) rest
        | None =>
            scan total_flags
              (mkScan (set_nonflags (_nonflags a ++ [current]) a)
                      (flags_encountered s) (delim_encountered s)) rest
        end
  end.

(** ** Post-pass validation *)

Fixpoint CheckForMissing (m : gmap string string) (to_check : list Argument) : string :=
  match to_check with
  | [] => ""
  | iter :: rest =>
      match m !! flag iter, m !! alias iter with
      | None, None =>
          if negb (Str.empty (flag iter)) then "Must specify " +:+ flag iter
          else "Must specify " +:+ alias iter
      | _, _ => CheckForMissing m rest
      end
  end.

(** One iteration of [CheckForValues] on the current store: [inl] is the
    returned diagnostic, [inr] the store after the iteration. *)
Definition CheckForValues_step (m : gmap string string) (iter : Argument)
  : string + gmap string string :=
  let alias_part :=
    match m !! alias iter with
    | Some second =>
        if negb (Str.empty second) then
          if value iter && Str.empty second
          then inl ("Must specify value for " +:+ alias iter)
          else inr (<[flag iter := second]> m)
        else inr m
    | None => inr m
    end in
  match m !! flag iter with
  | Some second =>
      if negb (Str.empty (alias iter)) then
        if value iter && Str.empty second
        then inl ("Must specify value for " +:+ flag iter)
        else inr (<[alias iter := second]> m)
      else alias_part
  | None => alias_part
  end.

(** [CheckForValues]: the store it leaves in [_arguments] and its result. *)
Fixpoint CheckForValues (m : gmap string string) (to_check : list Argument)
  : gmap string string * string :=
  match to_check with
  | [] => (m, "")
  | iter :: rest =>
      match CheckForValues_step m iter with
      | inl err => (m, err)
      | inr m' => CheckForValues m' rest
      end
  end.

(** Lines 637-640 of [Parse]: the positional-count check on
    [_nonflags.size()] and [_nonflags_required]; the empty string means the
    check let the pass go on. *)
Definition CheckNonFlags (nonflags : list string) (required : N) : string :=
  let sz := N.of_nat (length nonflags) in
  if negb (sz =? required)%N && (required =? 0)%N then "Unknown arguments"
  else if negb (sz =? required)%N then
    "Unknown arguments or user must specify " +:+ Str.to_string required +:+ " non-flags"
  else "".

(** Lines 642-647 of [Parse]: the value check over [_required], then over
    [_optional], then the missing-flag check; each runs only while [result]
    is empty. *)
Definition Validate (a : Args) : Args * string :=
  let '(m1, result) := CheckForValues (_arguments a) (_required a) in
  let '(m2, result) :=
    if Str.empty result then CheckForValues m1 (_optional a) else (m1, result) in
  let result :=
    if Str.empty result then CheckForMissing m2 (_required a) else result in
  (set_arguments m2 a, result).

(** [Parse(argc, argv)] with [argv[0] = binary] and [argv[1..argc) = tokens].
    Returns the object after the call and the diagnostic.  [total_flags] and
    [flags_encountered] are [int]s; neither can leave the [int] range, the
    counter being at most [argc]. *)
Definition Parse (binary : string) (tokens : list string) (a : Args) : Args * string :=
  let a := set_binary binary a in
  let total_flags := Z.of_nat (length (_required a) + length (_optional a)) in
  match scan total_flags (mkScan a 0 false) tokens with
  | (s, Some err) => (sc_args s, err)
  | (s, None) =>
      let a := sc_args s in
      let cnt := CheckNonFlags (_nonflags a) (_nonflags_required a) in
      if negb (Str.empty cnt) then (a, cnt) else Validate a
  end.

(** ** Default-value backfill *)

(** [AddFallbackValues]: one declaration. *)
Definition AddFallback_step (m : gmap string string) (iter : Argument)
  : gmap string string :=
  let m1 :=
    match m !! flag iter with
    | None => if negb (Str.empty (fallback iter)) then <[flag iter := fallback iter]> m else m
    | Some _ => m
    end in
  match m1 !! alias iter with
  | None => if negb (Str.empty (fallback iter)) then <[alias iter := fallback iter]> m1 else m1
  | Some _ => m1
  end.

Definition AddFallbackValues (a : Args) : Args :=
  let m := fold_left AddFallback_step (_optional a) (_arguments a) in
  let m := fold_left AddFallback_step (_required a) m in
  set_arguments m a.

(** ** Outcomes of code that reads characters or loops *)

(** [Done x]: the call returned [x].  [Fault]: it made an out-of-range
    access, which is undefined behaviour for [operator[]] and a thrown
    [std::out_of_range] for [substr].  [OutOfFuel]: the loops were cut off
    after the given number of iterations. *)
Inductive result (A : Type) : Type :=
| Done (x : A)
| Fault
| OutOfFuel.

Arguments Done {A} x.
Arguments Fault {A}.
Arguments OutOfFuel {A}.

Definition result_bind {A B : Type} (k : A -> result B) (r : result A) : result B :=
  match r with
  | Done x => k x
  | Fault => Fault
  | OutOfFuel => OutOfFuel
  end.

#[global] Instance result_mbind : MBind result := @result_bind.

#[global] Instance result_mret : MRet result := @Done.

(** ** Character reads *)

(** The character at index [i], if [i < s.size()]. *)
Fixpoint get (s : string) (i : N) : option ascii :=
  match s with
  | EmptyString => None
  | String c s' => if (i =? 0)%N then Some c else get s' (N.pred i)
  end.

(** [s[i]]: the character for [i < size], the terminator for [i = size],
    undefined behaviour beyond. *)
Definition at_ (s : string) (i : N) : result ascii :=
  match get s i with
  | Some c => Done c
  | None => if (i =? Str.size s)%N then Done "000"%char else Fault
  end.

(** The characters from index [pos] on. *)
Fixpoint drop (s : string) (pos : N) : string :=
  match s with
  | EmptyString => EmptyString
  | String c s' => if (pos =? 0)%N then s else drop s' (N.pred pos)
  end.

(** The first [len] characters, or all of them if there are fewer. *)
Fixpoint take (s : string) (len : N) : string :=
  match s with
  | EmptyString => EmptyString
  | String c s' => if (len =? 0)%N then EmptyString else String c (take s' (N.pred len))
  end.

(** [s.substr(pos, len)]; [len = None] is the default [npos].  Throws when
    [pos > s.size()]. *)
Definition substr (s : string) (pos : N) (len : option N) : result string :=
  if (Str.size s <? pos)%N then Fault
  else Done (match len with
             | Some l => take (drop s pos) l
             | None => drop s pos
             end).

(** [std::isalpha] and [std::isblank] in the "C" locale. *)
Definition isalpha (c : ascii) : bool :=
  let n := N_of_ascii c in
  ((65 <=? n) && (n <=? 90) || (97 <=? n) && (n <=? 122))%N.

Definition isblank (c : ascii) : bool :=
  let n := N_of_ascii c in ((n =? 32) || (n =? 9))%N.

(** The line feed written by ["\n"], ['\n'] and [std::endl]. *)
Definition nl : string := String "010"%char "".

(** ** Description wrapping *)

(** The [while] loop of [DetermineNumCharsToWrite]. *)
Fixpoint walk_back (fuel : nat) (description : string) (location : N) : result N :=
  match fuel with
  | O => OutOfFuel
  | S fuel' =>
      c ← at_ description location;
      if isalpha c && (0 <? location)%N
      then walk_back fuel' description (location - 1)%N
      else Done location
  end.

(** [DetermineNumCharsToWrite]; [_desc_width - 1] is computed on [unsigned]
    operands, modulo 2^32, and then widened to [size_t]. *)
Definition DetermineNumCharsToWrite
  (fuel : nat) (desc_width : N) (description : string) : result N :=
  location ← walk_back fuel description ((desc_width + 2 ^ 32 - 1) mod 2 ^ 32)%N;
  if (location =? 0)%N then
    c ← at_ description location;
    if isalpha c then Done desc_width else Done (location + 1)%N
  else Done (location + 1)%N.

(** The blank-skipping loop inside the main loop: it tests
    [description[count + skip]] and [skip < _desc_width], and advances
    [skip]. *)
Fixpoint skip_blanks (fuel : nat) (desc_width : N) (description : string)
  (count skip : N) : result N :=
  match fuel with
  | O => OutOfFuel
  | S fuel' =>
      c ← at_ description (count + skip)%N;
      if isblank c && (skip <? desc_width)%N
      then skip_blanks fuel' desc_width description count (skip + 1)%N
      else Done skip
  end.

(** The blank-skipping loop after the main loop: it tests
    [description[count]] and [count < _desc_width], neither of which its body
    [++skip] changes ([skip] is a [size_t] and wraps). *)
Fixpoint skip_last (fuel : nat) (desc_width : N) (description : string)
  (count skip : N) : result N :=
  match fuel with
  | O => OutOfFuel
  | S fuel' =>
      c ← at_ description count;
      if isblank c && (count <? desc_width)%N
      then skip_last fuel' desc_width description count ((skip + 1) mod 2 ^ 64)%N
      else Done skip
  end.

(** The main loop of [FormatDescription], on the pair of the text written to
    [stream] so far and [count].  [inner] bounds the two inner loops, [fuel]
    the iterations of this one.  The subtraction [description.size() -
    _desc_width] does not wrap: the loop is reached only when the size
    exceeds the width. *)
Fixpoint wrap_lines (inner fuel : nat) (desc_start desc_width : N)
  (description : string) (stream : string) (count : N) : result (string * N) :=
  match fuel with
  | O => OutOfFuel
  | S fuel' =>
      if (count <? Str.size description - desc_width)%N then
        rest ← substr description count None;
        to_write ← DetermineNumCharsToWrite inner desc_width rest;
        skip ← skip_blanks inner desc_width description count 0;
        let count := (count + skip)%N in
        if (skip =? desc_width)%N then
          wrap_lines inner fuel' desc_start desc_width description stream count
        else
          line ← substr description count (Some to_write);
          let stream := stream +:+ line +:+ nl +:+ Str.spaces (N.to_nat desc_start) in
          wrap_lines inner fuel' desc_start desc_width description stream
                     (count + to_write)%N
      else Done (stream, count)
  end.

(** [stream.write(&description[count], int(description.size() - count))]:
    the length is a [size_t] difference narrowed to [int]; the pointer is
    formed by [description[count]]. *)
Definition write_tail (description stream : string) (count : N) : result string :=
  _ ← at_ description count;
  let n := ((Str.size description + 2 ^ 64 - count) mod 2 ^ 64 mod 2 ^ 32)%N in
  if (n <? 2 ^ 31)%N then Done (stream +:+ take (drop description count) n)
  else Fault.

(** The part of [FormatDescription] after the main loop. *)
Definition last_line (fuel : nat) (desc_width : N) (description stream : string)
  (count : N) : result string :=
  skip ← skip_last fuel desc_width description count 0;
  if negb (skip =? desc_width)%N
  then write_tail description stream (count + skip)%N
  else Done stream.

Definition FormatDescription (fuel : nat) (desc_start desc_width : N)
  (description : string) : result string :=
  if (Str.size description <=? desc_width)%N then Done description
  else
    sc ← wrap_lines fuel fuel desc_start desc_width description "" 0;
    last_line fuel desc_width description (fst sc) (snd sc).

(** ** Usage text *)

(** [output << std::left << std::setw(width) << s]: [s] padded on the right
    with blanks up to [width] characters.  [setw] takes an [int]: an
    [unsigned] width of 2^31 or more arrives negative and pads nothing. *)
Definition put_left (width : N) (s : string) : string :=
  if (width <? 2 ^ 31)%N
  then s +:+ Str.spaces (N.to_nat (width - Str.size s))
  else s.

(** The left column built in [flag_ids] by [GenerateArgumentUsage]. *)
Definition flag_ids (d : Argument) : string :=
  let out := "    " +:+ flag d in
  let out := if value d then out +:+ "=value" else out in
  let out := if negb (Str.empty (flag d)) && negb (Str.empty (alias d))
             then out +:+ "/" else out in
  if negb (Str.empty (alias d)) then
    let out := out +:+ alias d in
    if value d then out +:+ "=value" else out
  else out.

(** [GenerateArgumentUsage]: the loop over [arguments], on the text written
    to [output] so far. *)
Fixpoint GenerateArgumentUsage (fuel : nat) (desc_start desc_width : N)
  (arguments : list Argument) (output : string) : result string :=
  match arguments with
  | [] => Done output
  | d :: rest =>
      let output := output +:+ put_left desc_start (flag_ids d) in
      text ← FormatDescription fuel desc_start desc_width (description d);
      GenerateArgumentUsage fuel desc_start desc_width rest (output +:+ text +:+ nl)
  end.

(** The first half of [GenerateUsage]: the text stored in
    [_flag_description]. *)
Definition flag_description_text (fuel : nat) (a : Args) : result string :=
  let output := if (0 <? length (_required a))%nat
                then nl +:+ "  Required flags:" +:+ nl else "" in
  req ← GenerateArgumentUsage fuel (_desc_start a) (_desc_width a) (_required a) "";
  let output := output +:+ req in
  let output := if (0 <? length (_optional a))%nat
                then output +:+ nl +:+ "  Optional flags:" +:+ nl else output in
  opt ← GenerateArgumentUsage fuel (_desc_start a) (_desc_width a) (_optional a) "";
  let output := output +:+ opt in
  Done (if (0 <? _nonflags_required a)%N
        then output +:+ nl +:+ "  " +:+ Str.to_string (_nonflags_required a)
               +:+ " non-flags are required" +:+ nl
        else output).

(** The body of the loop over [_optional] in [GenerateUsage]. *)
Definition put_optional (output : string) (d : Argument) : string :=
  let output := output +:+ "[" +:+ flag d in
  let output := if negb (Str.empty (flag d))
                then (if value d then output +:+ "=value" else output)
                else output in
  let output := if negb (Str.empty (alias d))
                then (let output := output +:+ "|" +:+ alias d in
                      if value d then output +:+ "=value" else output)
                else output in
  output +:+ "] ".

(** The body of the loop over [_required] in [GenerateUsage]. *)
Definition put_required (output : string) (d : Argument) : string :=
  let output := output +:+ flag d in
  let output := if value d then output +:+ "=value" else output in
  let output := if negb (Str.empty (alias d))
                then (let output := output +:+ "|" +:+ alias d in
                      if value d then output +:+ "=value" else output)
                else output in
  output +:+ " ".

(** The body of the loop [for (size_t i = 0; i < _nonflags_required; ++i)]. *)
Definition put_nonflag (output : string) (i : nat) : string :=
  output +:+ "nonflag" +:+ Str.to_string (N.of_nat i + 1) +:+ " ".

(** The second half of [GenerateUsage]: the text stored in [_preamble]. *)
Definition preamble_text (a : Args) : string :=
  let output := "Usage: " +:+ _binary a +:+ " " in
  let output := fold_left put_optional (_optional a) output in
  let output := fold_left put_required (_required a) output in
  let output :=
    if (0 <? _nonflags_required a)%N
    then fold_left put_nonflag (seq 0 (N.to_nat (_nonflags_required a)))
                   (output +:+ "<--> ")
    else output in
  output +:+ nl.

Definition GenerateUsage (fuel : nat) (a : Args) : result Args :=
  text ← flag_description_text fuel a;
  let a := set_flag_description text a in
  Done (set_preamble (preamble_text a) a).

(** [PrintUsage(output)]: what is written to the stream. *)
Definition PrintUsage (a : Args) : string :=
  _preamble a +:+ _flag_description a +:+ _epilogue a.

(** ** Initialize *)

(** The head of [Initialize]: the built-in help flag is declared unless
    help was disabled. *)
Definition with_help (a : Args) : Args :=
  if _help_enabled a
  then AddOptionalFlag "--help" "-h" "Print usage and options information" a
  else a.

(** How [Initialize] ends: it returns, or it calls [exit(code)]; in both
    cases with the object as it then is and the text written to
    [std::cout]. *)
Inductive Outcome : Type :=
| Returned (a : Args) (cout : string)
| Exited (code : Z) (a : Args) (cout : string).

Definition Initialize (fuel : nat) (binary : string) (tokens : list string)
  (a : Args) : result Outcome :=
  let a := with_help a in
  let '(a, result) := Parse binary tokens a in
  a ← GenerateUsage fuel a;
  let help_specified := Has a "--help" || Has a "-h" in
  let usage := (_help_enabled a && help_specified) || negb (Str.empty result) in
  if usage then
    let cout :=
      if _usage_enabled a then
        PrintUsage a
          +:+ (if negb (Str.empty result)
               then nl +:+ "Error: " +:+ result +:+ nl +:+ nl else "")
      else "" in
    if _exit_enabled a
    then Done (Exited (if Str.empty result then 0 else 1) a cout)
    else Done (Returned (AddFallbackValues a) cout)
  else Done (Returned (AddFallbackValues a) "").

(** ** Numeric accessors *)

(** The value of [errno] that reports a range error. *)
Definition ERANGE : Z := 34.

(** [std::isspace] in the "C" locale. *)
Definition isspace (c : ascii) : bool :=
  let n := N_of_ascii c in ((n =? 32) || (9 <=? n) && (n <=? 13))%N.

Fixpoint skip_spaces (s : string) : string :=
  match s with
  | String c s' => if isspace c then skip_spaces s' else s
  | EmptyString => s
  end.

(** The value of a character as a digit, letters counting from 10. *)
Definition digit_value (c : ascii) : option N :=
  let n := N_of_ascii c in
  if ((48 <=? n) && (n <=? 57))%N then Some (n - 48)%N
  else if ((97 <=? n) && (n <=? 122))%N then Some (n - 87)%N
  else if ((65 <=? n) && (n <=? 90))%N then Some (n - 55)%N
  else None.

(** The longest run of digits of [base] at the front of [s], as a number
    added to [acc] in that base. *)
Fixpoint digits (base : N) (s : string) (acc : N) : N :=
  match s with
  | String c s' =>
      match digit_value c with
      | Some d => if (d <? base)%N then digits base s' (acc * base + d)%N else acc
      | None => acc
      end
  | EmptyString => acc
  end.

Definition is_hex_digit (c : ascii) : bool :=
  match digit_value c with Some d => (d <? 16)%N | None => false end.

(** Modelled from the spec: "the platform's standard numeric conversion",
    here [strtoul(str, nullptr, 0)] of the C library with a 64-bit
    [unsigned long], which is not part of the repository.  Leading white
    space is skipped, a sign is accepted, the base is 16 after [0x], 8 after
    [0] and 10 otherwise, and the longest run of digits is converted.  A
    value above 2^64 - 1 gives 2^64 - 1 and sets [errno] to [ERANGE]; a
    conversion in range leaves [errno] as it was (no library function ever
    clears it); a minus sign negates the value modulo 2^64.  Returns the
    value and the new [errno]. *)
Definition strtoul (str : string) (errno : Z) : N * Z :=
  let s := skip_spaces str in
  let '(negative, s) :=
    match s with
    | String "-" s' => (true, s')
    | String "+" s' => (false, s')
    | _ => (false, s)
    end in
  let magnitude :=
    match s with
    | String "0" (String x (String h s')) =>
        if (Ascii.eqb x "x" || Ascii.eqb x "X") && is_hex_digit h
        then digits 16 (String h s') 0
        else digits 8 s 0
    | String "0" _ => digits 8 s 0
    | _ => digits 10 s 0
    end in
  if (2 ^ 64 - 1 <? magnitude)%N then ((2 ^ 64 - 1)%N, ERANGE)
  else if negative then (((2 ^ 64 - magnitude) mod 2 ^ 64)%N, errno)
  else (magnitude, errno).

(** A call that returns a value or throws [SargsError(msg)]. *)
Inductive Access (A : Type) : Type :=
| Value (v : A)
| Throw (msg : string).

Arguments Value {A} v.
Arguments Throw {A} msg.

(** [bool GetAsUInt64(flag, value)]: [Value None] is the [false] return,
    [Value (Some v)] the [true] return with [v] written to [value].  The
    global [errno] is an argument and a result: the function reads it after
    [strtoul] and never resets it. *)
Definition GetAsUInt64_into (a : Args) (errno : Z) (f : string)
  : Z * Access (option N) :=
  if Str.empty f then
    (errno, if _exceptions_enabled a then Throw "Flag query empty" else Value None)
  else
    match _arguments a !! f with
    | None => (errno, Value None)
    | Some value_str =>
        let '(myvalue, errno) := strtoul value_str errno in
        let range_error := (errno =? ERANGE)%Z in
        if range_error then
          (errno,
           if _exceptions_enabled a
           then Throw ("Could not convert " +:+ value_str +:+ " to uint64_t")
           else Value None)
        else (errno, Value (Some myvalue))
    end.

(** [uint64_t GetAsUInt64(flag)] *)
Definition GetAsUInt64 (a : Args) (errno : Z) (f : string) : Z * Access N :=
  match GetAsUInt64_into a errno f with
  | (errno, Throw msg) => (errno, Throw msg)
  | (errno, Value None) =>
      (errno, if _exceptions_enabled a then Throw (f +:+ " was not specified") else Value 0%N)
  | (errno, Value (Some v)) => (errno, Value v)
  end.

(** [uint8_t GetAsUInt8(flag)]; [static_cast<uint8_t>] keeps the low eight
    bits. *)
Definition GetAsUInt8 (a : Args) (errno : Z) (f : string) : Z * Access N :=
  match GetAsUInt64_into a errno f with
  | (errno, Throw msg) => (errno, Throw msg)
  | (errno, Value None) =>
      (errno, if _exceptions_enabled a then Throw (f +:+ " was not specified") else Value 0%N)
  | (errno, Value (Some v)) =>
      if (255 <? v)%N then
        (errno,
         if _exceptions_enabled a then Throw (f +:+ " was too large for uint8_t")
         else Value 0%N)
      else (errno, Value (v mod 2 ^ 8)%N)
  end.

(** ** Notions used in the statements *)

(** The state the loop is in when it starts in positional-only mode and
    has read [tokens]: every token but the delimiter itself went to
    [_nonflags]. *)
Definition positional_rest (s : Scan) (tokens : list string) : Scan :=
  mkScan (set_nonflags
            (_nonflags (sc_args s)
               ++ List.filter (fun t => negb (String.eqb t "--")) tokens)
            (sc_args s))
         (flags_encountered s) true.

(** [frame a b]: [b] is [a] with other [_arguments] and [_nonflags]. *)
Definition frame (a b : Args) : Prop :=
  exists m nf, b = set_nonflags nf (set_arguments m a).

(** The keys an iteration of [CheckForValues] for [d'] may write to:
    [d'.alias] (only when non-empty) and [d'.flag]. *)
Definition writes_to (d' : Argument) (k : string) : Prop :=
  flag d' = k \/ (alias d' = k /\ k <> "").

(** A run of [CheckForValues] that returns the empty string went through
    the whole list. *)
Inductive values_run : gmap string string -> list Argument -> gmap string string -> Prop :=
| values_run_nil m : values_run m [] m
| values_run_cons m d m1 l m' :
    CheckForValues_step m d = inr m1 -> values_run m1 l m' ->
    values_run m (d :: l) m'.

(** [d]'s two spellings are written by no declaration of [l] other than
    [d] itself. *)
Definition spellings_private (d : Argument) (l : list Argument) : Prop :=
  Forall (fun d' => d' = d \/ (~ writes_to d' (flag d) /\ ~ writes_to d' (alias d))) l.

Definition name_of (d : Argument) : string :=
  if negb (Str.empty (flag d)) then flag d else alias d.

(** No declaration other than [d] uses one of [d]'s two spellings. *)
Definition names_unique_for (d : Argument) (l : list Argument) : Prop :=
  Forall (fun d' => d' = d
                    \/ (flag d' <> flag d /\ alias d' <> flag d
                        /\ flag d' <> alias d /\ alias d' <> alias d)) l.

(** The state of the two spellings of [d] that the value check is written
    to reach: the alias mirrors a stored primary, and the primary mirrors an
    alias stored with a non-empty value. *)
Definition backfilled (d : Argument) (m : gmap string string) : Prop :=
  (is_Some (m !! flag d) -> m !! alias d = m !! flag d)
  /\ (forall v, m !! alias d = Some v -> v <> "" -> m !! flag d = Some v).

(** The fallback the backfill puts under an absent key [k]: that of the
    first declaration, in the order [AddFallbackValues] walks them, that has
    the spelling [k] and a non-empty fallback. *)
Fixpoint first_fallback (k : string) (l : list Argument) : option string :=
  match l with
  | [] => None
  | d :: rest =>
      if (String.eqb (flag d) k || String.eqb (alias d) k)
         && negb (Str.empty (fallback d))
      then Some (fallback d)
      else first_fallback k rest
  end.

(** No two blank characters next to each other. *)
Fixpoint no_adjacent_blanks (s : string) : bool :=
  match s with
  | String c1 (String c2 _ as s') =>
      negb (isblank c1 && isblank c2) && no_adjacent_blanks s'
  | _ => true
  end.

(** An accessor call that failed: a thrown error when exceptions are
    enabled, the zero sentinel when they are not. *)
Definition failed (a : Args) (r : Access N) : Prop :=
  match r with
  | Throw _ => _exceptions_enabled a = true
  | Value v => _exceptions_enabled a = false /\ v = 0%N
  end.

(** ** The preamble as a layout *)

Definition value_suffix (d : Argument) : string :=
  if value d then "=value" else "".

(** One optional flag: [[flag=value|alias=value]] and a blank, where each
    [=value] is there only for a value flag, the first one only when the
    flag is not empty, and [|alias...] only when the alias is not empty. *)
Definition optional_item (d : Argument) : string :=
  "[" +:+ flag d
      +:+ (if negb (Str.empty (flag d)) then value_suffix d else "")
      +:+ (if negb (Str.empty (alias d)) then "|" +:+ alias d +:+ value_suffix d else "")
      +:+ "] ".

(** One required flag: [flag=value|alias=value] and a blank. *)
Definition required_item (d : Argument) : string :=
  flag d +:+ value_suffix d
    +:+ (if negb (Str.empty (alias d)) then "|" +:+ alias d +:+ value_suffix d else "")
    +:+ " ".

Definition nonflag_item (i : nat) : string :=
  "nonflag" +:+ Str.to_string (N.of_nat i + 1) +:+ " ".

Fixpoint concat_items (l : list string) : string :=
  match l with
  | [] => ""
  | s :: rest => s +:+ concat_items rest
  end.

Definition preamble_layout (a : Args) : string :=
  "Usage: " +:+ _binary a +:+ " "
    +:+ concat_items (map optional_item (_optional a))
    +:+ concat_items (map required_item (_required a))
    +:+ (if (0 <? _nonflags_required a)%N
         then "<--> " +:+ concat_items (map nonflag_item (seq 0 (N.to_nat (_nonflags_required a))))
         else "")
    +:+ nl.

(** ** The properties as the specification words them *)

(** The claim as the specification words it, for one declaration. *)
Definition alias_equivalent (a' : Args) (d : Argument) : Prop :=
  Has a' (flag d) = Has a' (alias d)
  /\ _arguments a' !! flag d = _arguments a' !! alias d.

(** The property as the specification words it: from the point the mode is
    entered, every later token is appended to the positional sequence. *)
Definition every_later_token_positional
  (total_flags : Z) (s : Scan) (pre post : list string) : Prop :=
  forall s1, scan total_flags s pre = (s1, None) ->
    delim_encountered s1 = true ->
    exists s2, scan total_flags s (pre ++ post) = (s2, None)
      /\ delim_encountered s2 = true
      /\ _arguments (sc_args s2) = _arguments (sc_args s1)
      /\ _nonflags (sc_args s2) = _nonflags (sc_args s1) ++ post.



(** The claim as the specification words it, read on the whole pass. *)
Definition count_check_as_specified
  (binary : string) (tokens : list string) (a : Args) : Prop :=
  let N := _nonflags_required a in
  let n := N.of_nat (length (_nonflags (fst (Parse binary tokens a)))) in
  let diag := snd (Parse binary tokens a) in
  ((0 < N)%N -> n <> N ->
     diag = "unknown arguments or exactly " +:+ Str.to_string N +:+ " non-flags required")
  /\ (N = 0%N -> (0 < n)%N -> diag = "unknown arguments").

(** The claim as the specification words it. *)
Definition missing_required_is_named
  (binary : string) (tokens : list string) (a : Args) : Prop :=
  forall d, d ∈ _required a ->
    let s := fst (scan (Z.of_nat (length (_required a) + length (_optional a)))
                       (mkScan (set_binary binary a) 0 false) tokens) in
    _arguments (sc_args s) !! flag d = None ->
    _arguments (sc_args s) !! alias d = None ->
    snd (Parse binary tokens a) = "Must specify " +:+ name_of d.

(** The claim as the specification words it. *)
Definition uint8_accessor_as_specified (a : Args) (errno : Z) (f : string) : Prop :=
  (_arguments a !! f = Some "300" -> failed a (snd (GetAsUInt8 a errno f)))
  /\ (_arguments a !! f = Some "255" -> snd (GetAsUInt8 a errno f) = Value 255%N).

(** The layout as the specification words it: [[flag|alias=value]] for an
    optional flag and [flag|alias=value] for a required one, with the one
    [=value] suffix at the end. *)
Definition specified_item (d : Argument) : string :=
  flag d +:+ "|" +:+ alias d +:+ value_suffix d.

Definition preamble_as_specified (a : Args) : string :=
  "Usage: " +:+ _binary a +:+ " "
    +:+ concat_items (map (fun d => "[" +:+ specified_item d +:+ "] ") (_optional a))
    +:+ concat_items (map (fun d => specified_item d +:+ " ") (_required a))
    +:+ (if (0 <? _nonflags_required a)%N
         then "<--> " +:+ concat_items (map nonflag_item (seq 0 (N.to_nat (_nonflags_required a))))
         else "")
    +:+ nl.

(** The claim as the specification words it: given enough iterations the
    routine returns a string. *)
Definition returns_a_string (desc_start desc_width : N) (description : string) : Prop :=
  exists fuel s, FormatDescription fuel desc_start desc_width description = Done s.

(** ** Sample command lines *)

Definition demo : Args :=
  AddOptionalFlag "--verbose" "-v" "Chatty"
    (AddRequiredFlagValue "--name" "-n" "Name" "" (DisableHelp Args_default)).

Definition two_required : Args :=
  AddRequiredFlag "--b" "" "second" (AddRequiredFlag "--a" "" "first" Args_default).

Definition shared_alias : Args :=
  AddOptionalFlagValue "c" "b" "" "" (AddOptionalFlagValue "a" "b" "" "" Args_default).

Definition two_values : Args :=
  RequireNonFlags 2
    (AddOptionalFlagValue "--num" "-k" "Count" "5"
       (AddRequiredFlagValue "--name" "-n" "Name" "" (DisableHelp Args_default))).


(** An optional value flag without alias and with fallback 255, not given
    on the command line: the backfill stores the fallback under [--level] and
    under the empty alias. *)
Definition level_by_default : Args :=
  AddFallbackValues
    (fst (Parse "prog" []
            (AddOptionalFlagValue "--level" "" "Level" "255"
               (DisableExceptions Args_default)))).

Definition two_numbers : Args :=
  set_arguments {[ "--big" := "99999999999999999999"; "--level" := "255" ]}
    (DisableExceptions Args_default).


(** Forty-nine blanks followed by two letters. *)
Definition blanks_then_ab : string := Str.spaces 49 +:+ "ab".

(** ** String and positional accessors *)

(** [bool GetAsString(flag, value)]: [Value None] is the [false] return,
    [Value (Some v)] the [true] return with [v] written to [value]. *)
Definition GetAsString_into (a : Args) (f : string) : Access (option string) :=
  if Str.empty f then
    (if _exceptions_enabled a then Throw "Flag query empty" else Value None)
  else
    match _arguments a !! f with
    | None => Value None
    | Some v => Value (Some v)
    end.

(** [std::string GetAsString(flag)] *)
Definition GetAsString (a : Args) (f : string) : Access string :=
  match GetAsString_into a f with
  | Throw msg => Throw msg
  | Value None => Value ""
  | Value (Some v) => Value v
  end.

(** [GetNonFlag(index)] is [_nonflags.at(index)]: [None] stands for the
    [std::out_of_range] that [at] throws for an index past the end. *)
Definition GetNonFlag (a : Args) (index : N) : option string :=
  _nonflags a !! N.to_nat index.

Definition GetNonFlags (a : Args) : list string := _nonflags a.

(** The stored value of the primary spelling of a value flag is not
    empty. *)
Definition primary_value_given (d : Argument) (m : gmap string string) : Prop :=
  forall x, m !! flag d = Some x -> x <> "".

(** ** Notions for the usage text *)

(** A wrapped line as [FormatDescription] writes it: the segment, a line
    feed and the indent of the continuation. *)
Definition wrapped_line (desc_start : N) (segment : string) : string :=
  segment +:+ nl +:+ Str.spaces (N.to_nat desc_start).


(** The size of the longest description among [l]. *)
Definition longest_description (l : list Argument) : N :=
  fold_right (fun d acc => N.max (Str.size (description d)) acc) 0%N l.

(** ** The other numeric accessors *)

(** [uint32_t GetAsUInt32(flag)]; the test against
    [numeric_limits<uint32_t>::min()] compares an unsigned value with 0. *)
Definition GetAsUInt32 (a : Args) (errno : Z) (f : string) : Z * Access N :=
  match GetAsUInt64_into a errno f with
  | (errno, Throw msg) => (errno, Throw msg)
  | (errno, Value None) =>
      (errno, if _exceptions_enabled a then Throw (f +:+ " was not specified") else Value 0%N)
  | (errno, Value (Some v)) =>
      if (2 ^ 32 - 1 <? v)%N then
        (errno,
         if _exceptions_enabled a then Throw (f +:+ " was too large for uint32_t")
         else Value 0%N)
      else if (v <? 0)%N then
        (errno,
         if _exceptions_enabled a then Throw (f +:+ " was too low for uint32_t")
         else Value 0%N)
      else (errno, Value (v mod 2 ^ 32)%N)
  end.

(** [uint16_t GetAsUInt16(flag)] *)
Definition GetAsUInt16 (a : Args) (errno : Z) (f : string) : Z * Access N :=
  match GetAsUInt64_into a errno f with
  | (errno, Throw msg) => (errno, Throw msg)
  | (errno, Value None) =>
      (errno, if _exceptions_enabled a then Throw (f +:+ " was not specified") else Value 0%N)
  | (errno, Value (Some v)) =>
      if (2 ^ 16 - 1 <? v)%N then
        (errno,
         if _exceptions_enabled a then Throw (f +:+ " was too large for uint16_t")
         else Value 0%N)
      else (errno, Value (v mod 2 ^ 16)%N)
  end.

(** [std::to_string] of a signed value. *)
Definition to_string_signed (z : Z) : string :=
  if (z <? 0)%Z then "-" +:+ Str.to_string (Z.to_N (- z)) else Str.to_string (Z.to_N z).

(** Modelled from the spec: "the platform's standard numeric conversion",
    here [strtol(str, nullptr, 0)] of the C library with a 64-bit [long],
    which is not part of the repository.  It reads the text as [strtoul]
    does; a value above 2^63 - 1 gives 2^63 - 1, one below -2^63 gives
    -2^63, and both set [errno] to [ERANGE]. *)
Definition strtol (str : string) (errno : Z) : Z * Z :=
  let s := skip_spaces str in
  let '(negative, s) :=
    match s with
    | String "-" s' => (true, s')
    | String "+" s' => (false, s')
    | _ => (false, s)
    end in
  let magnitude :=
    match s with
    | String "0" (String x (String h s')) =>
        if (Ascii.eqb x "x" || Ascii.eqb x "X") && is_hex_digit h
        then digits 16 (String h s') 0
        else digits 8 s 0
    | String "0" _ => digits 8 s 0
    | _ => digits 10 s 0
    end in
  if negative then
    (if (2 ^ 63 <? magnitude)%N then ((- 2 ^ 63)%Z, ERANGE)
     else ((- Z.of_N magnitude)%Z, errno))
  else
    (if (2 ^ 63 - 1 <? magnitude)%N then ((2 ^ 63 - 1)%Z, ERANGE)
     else (Z.of_N magnitude, errno)).

(** [bool GetAsInt64(flag, value)] *)
Definition GetAsInt64_into (a : Args) (errno : Z) (f : string)
  : Z * Access (option Z) :=
  if Str.empty f then
    (errno, if _exceptions_enabled a then Throw "Flag query empty" else Value None)
  else
    match _arguments a !! f with
    | None => (errno, Value None)
    | Some value_str =>
        let '(myvalue, errno) := strtol value_str errno in
        let range_error := (errno =? ERANGE)%Z in
        if range_error then
          (errno,
           if _exceptions_enabled a
           then Throw ("Could not convert " +:+ value_str +:+ " to int64_t")
           else Value None)
        else (errno, Value (Some myvalue))
    end.

(** [int64_t GetAsInt64(flag)] *)
Definition GetAsInt64 (a : Args) (errno : Z) (f : string) : Z * Access Z :=
  match GetAsInt64_into a errno f with
  | (errno, Throw msg) => (errno, Throw msg)
  | (errno, Value None) =>
      (errno, if _exceptions_enabled a then Throw (f +:+ " was not specified") else Value 0%Z)
  | (errno, Value (Some v)) => (errno, Value v)
  end.

(** [static_cast] of a 64-bit signed value to a signed type of [bits]
    bits. *)
Definition cast_signed (bits : Z) (v : Z) : Z :=
  ((v + 2 ^ (bits - 1)) mod 2 ^ bits - 2 ^ (bits - 1))%Z.

(** [int32_t GetAsInt32(flag)] *)
Definition GetAsInt32 (a : Args) (errno : Z) (f : string) : Z * Access Z :=
  match GetAsInt64_into a errno f with
  | (errno, Throw msg) => (errno, Throw msg)
  | (errno, Value None) =>
      (errno, if _exceptions_enabled a then Throw (f +:+ " was not specified") else Value 0%Z)
  | (errno, Value (Some v)) =>
      if (2 ^ 31 - 1 <? v)%Z then
        (errno,
         if _exceptions_enabled a
         then Throw (f +:+ " is too large to convert to int32_t: " +:+ to_string_signed v)
         else Value 0%Z)
      else if (v <? - 2 ^ 31)%Z then
        (errno,
         if _exceptions_enabled a
         then Throw (f +:+ " was too low to convert to int32_t" +:+ to_string_signed v)
         else Value 0%Z)
      else (errno, Value (cast_signed 32 v))
  end.

(** [int16_t GetAsInt16(flag)] *)
Definition GetAsInt16 (a : Args) (errno : Z) (f : string) : Z * Access Z :=
  match GetAsInt64_into a errno f with
  | (errno, Throw msg) => (errno, Throw msg)
  | (errno, Value None) =>
      (errno, if _exceptions_enabled a then Throw (f +:+ " was not specified") else Value 0%Z)
  | (errno, Value (Some v)) =>
      if (2 ^ 15 - 1 <? v)%Z then
        (errno,
         if _exceptions_enabled a
         then Throw (f +:+ " is too large to convert to int16_t: " +:+ to_string_signed v)
         else Value 0%Z)
      else if (v <? - 2 ^ 15)%Z then
        (errno,
         if _exceptions_enabled a
         then Throw (f +:+ " is too small to convert to int16_t: " +:+ to_string_signed v)
         else Value 0%Z)
      else (errno, Value (cast_signed 16 v))
  end.

(** [int32_t GetAsInt8(flag)]: the value is cast to [int8_t] and returned
    as an [int32_t]. *)
Definition GetAsInt8 (a : Args) (errno : Z) (f : string) : Z * Access Z :=
  match GetAsInt64_into a errno f with
  | (errno, Throw msg) => (errno, Throw msg)
  | (errno, Value None) =>
      (errno, if _exceptions_enabled a then Throw (f +:+ " was not specified") else Value 0%Z)
  | (errno, Value (Some v)) =>
      if (2 ^ 7 - 1 <? v)%Z then
        (errno,
         if _exceptions_enabled a
         then Throw (f +:+ " is too large to convert to int8_t: " +:+ to_string_signed v)
         else Value 0%Z)
      else if (v <? - 2 ^ 7)%Z then
        (errno,
         if _exceptions_enabled a
         then Throw (f +:+ " is too small to convert to int8_t: " +:+ to_string_signed v)
         else Value 0%Z)
      else (errno, Value (cast_signed 8 v))
  end.

(** The failure of a one-argument accessor: the error when exceptions are
    enabled, the zero sentinel when they are not. *)
Definition failure {A : Type} (a : Args) (zero : A) (msg : string) : Access A :=
  if _exceptions_enabled a then Throw msg else Value zero.

(** * Properties *)

(** The end-to-end run: [--name]/[-n] required with a value, [--verbose]/[-v]
    optional without one. *)
Example demo_parse :
  let '(a, r) := Parse "prog" ["--name"; "Alice"; "-v"] demo in
  r = "" /\ Has a "--verbose" = true /\ _arguments a !! "--name" = Some "Alice"
  /\ _arguments a !! "-n" = Some "Alice" /\ _arguments a !! "--verbose" = None.
Proof. vm_compute. repeat split; reflexivity. Qed.

(** ** The scan loop: POSITIONAL_ONLY mode *)

Section ScanFacts.

Variable total_flags : Z.

Lemma set_nonflags_id a : set_nonflags (_nonflags a) a = a.
Proof. by destruct a. Qed.

Lemma set_nonflags_twice l l' a :
  set_nonflags l' (set_nonflags l a) = set_nonflags l' a.
Proof. by destruct a. Qed.

Lemma scan_in_positional_only s tokens :
  delim_encountered s = true ->
  scan total_flags s tokens = (positional_rest s tokens, None).
Proof.
  revert s. induction tokens as [|t tokens IH]; intros s Hd.
  - destruct s as [a n d]; simpl in *; subst d.
    unfold positional_rest; simpl. by rewrite app_nil_r, set_nonflags_id.
  - cbn [scan]. destruct (String.eqb t "--") eqn:Ht.
    + rewrite IH by reflexivity.
      unfold positional_rest; cbn [List.filter sc_args flags_encountered].
      by rewrite Ht.
    + rewrite Hd. rewrite IH by reflexivity.
      unfold positional_rest; cbn [List.filter sc_args flags_encountered].
      rewrite Ht; cbn [negb].
      rewrite set_nonflags_twice. cbn [_nonflags set_nonflags].
      by rewrite <- app_assoc.
Qed.

(** Reading [pre ++ post] is reading [post] from the state [pre] leaves,
    when the loop did not return while reading [pre]. *)
Lemma scan_app pre : forall s s1 post,
  scan total_flags s pre = (s1, None) ->
  scan total_flags s (pre ++ post) = scan total_flags s1 post.
Proof.
  induction pre as [pre IH] using (induction_ltof1 _ (@length string)).
  unfold ltof in IH. intros s s1 post H.
  destruct pre as [|t pre]; [by inversion H|].
  cbn [app]. cbn [scan] in H |- *.
  destruct (String.eqb t "--"); [apply IH; [simpl; lia | exact H]|].
  destruct (delim_encountered s); [apply IH; [simpl; lia | exact H]|].
  destruct (CheckIfNonValueFlag (sc_args s) t); [apply IH; [simpl; lia | exact H]|].
  destruct (CheckIfValueFlag (sc_args s) t).
  - destruct pre as [|v pre]; [discriminate H|].
    cbn [app]. apply IH; [simpl; lia | exact H].
  - destruct (TryFlagValueSplit (sc_args s) t) as [[f v]|];
      (apply IH; [simpl; lia | exact H]).
Qed.

End ScanFacts.

(** C2, counterexample: after the delimiter put the loop in positional-only
    mode, a second [--] is tested before the mode is and is dropped, not
    appended: [prog -- a -- b] collects [a; b]. *)
Lemma C2_second_delimiter_is_dropped :
  ~ every_later_token_positional 0 (mkScan Args_default 0 false) ["--"] ["a"; "--"; "b"].
Proof.
  intros H. destruct (H _ eq_refl eq_refl) as (s2 & Hs & _ & _ & Hn).
  vm_compute in Hs. inversion Hs; subst s2. vm_compute in Hn. discriminate Hn.
Qed.

(** C2 (amended): the delimiter token and a flag count that reaches
    [total_flags] both set [delim_encountered]; once it is set after [pre]
    the rest of the pass leaves it set, leaves the value store and the flag
    counter alone, and appends every later token except further [--] tokens
    (which are skipped) to the positional sequence. *)
Theorem C2_positional_only_is_permanent (total_flags : Z) :
  (forall s rest,
      scan total_flags s ("--" :: rest)
      = scan total_flags (mkScan (sc_args s) (flags_encountered s) true) rest)
  /\ (forall m s, (total_flags <= flags_encountered s + 1)%Z ->
        delim_encountered (count_flag total_flags m s) = true)
  /\ (forall s pre post s1,
        scan total_flags s pre = (s1, None) ->
        delim_encountered s1 = true ->
        scan total_flags s (pre ++ post) = (positional_rest s1 post, None)
        /\ delim_encountered (positional_rest s1 post) = true
        /\ _arguments (sc_args (positional_rest s1 post)) = _arguments (sc_args s1)
        /\ _nonflags (sc_args (positional_rest s1 post))
           = _nonflags (sc_args s1)
               ++ List.filter (fun t => negb (String.eqb t "--")) post).
Proof.
  split; [reflexivity|]. split.
  - intros m s Hle. unfold count_flag; cbn [delim_encountered].
    destruct (Z.geb_spec (flags_encountered s + 1) total_flags) as [|Hlt]; [done|lia].
  - intros s pre post s1 Hpre Hd. split; [|split; [done|split]].
    + rewrite (scan_app _ _ _ _ _ Hpre). by apply scan_in_positional_only.
    + by destruct s1 as [[] ? ?].
    + by destruct s1 as [[] ? ?].
Qed.

Lemma C2_positional_only_is_permanent_witness :
  let s := mkScan demo 0 false in
  let s1 := fst (scan 2 s ["-v"; "-n"; "x"]) in
  (2 <= flags_encountered (count_flag 2 ∅ (mkScan demo 1 false)) )%Z
  /\ delim_encountered s1 = true
  /\ scan 2 s (["-v"; "-n"; "x"] ++ ["-v"; "--"; "y"])
     = (positional_rest s1 ["-v"; "--"; "y"], None)
  /\ _nonflags (sc_args (positional_rest s1 ["-v"; "--"; "y"])) = ["-v"; "y"].
Proof.
  intros s s1.
  destruct (C2_positional_only_is_permanent 2) as (_ & Hcount & Hperm).
  pose proof (Hcount ∅ (mkScan demo 1 false) ltac:(simpl; lia)) as Hc.
  destruct (Hperm s ["-v"; "-n"; "x"] ["-v"; "--"; "y"] s1 eq_refl eq_refl)
    as (H1 & _ & _ & H4).
  split; [vm_compute; discriminate|]. split; [reflexivity|].
  split; [exact H1|]. rewrite H4. reflexivity.
Defined.

(** ** What the scan loop leaves alone *)

Lemma frame_refl a : frame a a.
Proof. exists (_arguments a), (_nonflags a). by destruct a. Qed.

Lemma frame_trans a b c : frame a b -> frame b c -> frame a c.
Proof.
  intros (m & nf & ->) (m' & nf' & ->). exists m', nf'. by destruct a.
Qed.

Lemma frame_set_arguments a m : frame a (set_arguments m a).
Proof. exists m, (_nonflags a). by destruct a. Qed.

Lemma frame_set_nonflags a nf : frame a (set_nonflags nf a).
Proof. exists (_arguments a), nf. by destruct a. Qed.

Lemma frame_fields a b :
  frame a b ->
  _required b = _required a /\ _optional b = _optional a
  /\ _nonflags_required b = _nonflags_required a /\ _binary b = _binary a.
Proof. by intros (m & nf & ->). Qed.

Lemma scan_frame total_flags tokens : forall s s' r,
  scan total_flags s tokens = (s', r) -> frame (sc_args s) (sc_args s').
Proof.
  induction tokens as [tokens IH] using (induction_ltof1 _ (@length string)).
  unfold ltof in IH. intros s s' r H.
  destruct tokens as [|t tokens]; [inversion H; apply frame_refl|].
  cbn [scan] in H.
  destruct (String.eqb t "--"); [exact (IH tokens ltac:(simpl; lia) _ _ _ H)|].
  destruct (delim_encountered s).
  { eapply frame_trans; [|exact (IH tokens ltac:(simpl; lia) _ _ _ H)].
    apply frame_set_nonflags. }
  destruct (CheckIfNonValueFlag (sc_args s) t).
  { eapply frame_trans; [|exact (IH tokens ltac:(simpl; lia) _ _ _ H)].
    apply frame_set_arguments. }
  destruct (CheckIfValueFlag (sc_args s) t).
  { destruct tokens as [|v tokens]; [inversion H; apply frame_refl|].
    eapply frame_trans; [|exact (IH tokens ltac:(simpl; lia) _ _ _ H)].
    apply frame_set_arguments. }
  destruct (TryFlagValueSplit (sc_args s) t) as [[f v]|];
    (eapply frame_trans; [|exact (IH tokens ltac:(simpl; lia) _ _ _ H)]).
  - apply frame_set_arguments.
  - apply frame_set_nonflags.
Qed.

(** ** The positional-count check *)

Lemma CheckNonFlags_cases nonflags required :
  let sz := N.of_nat (length nonflags) in
  (sz = required -> CheckNonFlags nonflags required = "")
  /\ (sz <> required -> required = 0%N ->
        CheckNonFlags nonflags required = "Unknown arguments")
  /\ (sz <> required -> required <> 0%N ->
        CheckNonFlags nonflags required
        = "Unknown arguments or user must specify "
            +:+ Str.to_string required +:+ " non-flags").
Proof.
  intros sz. unfold CheckNonFlags. fold sz.
  destruct (N.eqb_spec sz required) as [He|Hne];
    destruct (N.eqb_spec required 0) as [Hz|Hnz]; cbn [negb andb];
    repeat split; intros; congruence.
Qed.

(** C6, counterexample: with no positional count declared, [prog x --name]
    collects the positional token [x] and then returns from inside the loop
    with "Must set value for --name": the count check is never reached.  And
    where it is reached, the text it returns is not the one quoted. *)
Lemma C6_count_check_not_reached :
  ~ count_check_as_specified "prog" ["x"; "--name"] demo
  /\ snd (Parse "prog" ["x"] (RequireNonFlags 2 Args_default))
     = "Unknown arguments or user must specify 2 non-flags".
Proof.
  split; [|reflexivity].
  intros [_ H]. specialize (H eq_refl eq_refl). vm_compute in H. discriminate H.
Qed.

(** C6 (amended): when the scan loop runs to the end of the tokens, the
    positional-count check passes exactly when [_nonflags.size()] equals the
    declared count, and the pass then goes on to the value and missing-flag
    checks; with a count [N > 0] any other size (so [N-1] and [N+1]) returns
    "Unknown arguments or user must specify N non-flags"; with [N = 0] and at
    least one positional token the pass returns "Unknown arguments". *)
Theorem C6_positional_count_check
  (binary : string) (tokens : list string) (a : Args) (s : Scan) :
  scan (Z.of_nat (length (_required a) + length (_optional a)))
       (mkScan (set_binary binary a) 0 false) tokens = (s, None) ->
  let N := _nonflags_required a in
  let n := N.of_nat (length (_nonflags (sc_args s))) in
  (CheckNonFlags (_nonflags (sc_args s)) N = "" <-> n = N)
  /\ (n = N -> Parse binary tokens a = Validate (sc_args s))
  /\ ((0 < N)%N -> n <> N ->
        Parse binary tokens a
        = (sc_args s,
           "Unknown arguments or user must specify "
             +:+ Str.to_string N +:+ " non-flags"))
  /\ (N = 0%N -> n <> 0%N -> Parse binary tokens a = (sc_args s, "Unknown arguments")).
Proof.
  intros Hscan N n.
  assert (HN : _nonflags_required (sc_args s) = N).
  { apply scan_frame, frame_fields in Hscan. cbn in Hscan. tauto. }
  destruct (CheckNonFlags_cases (_nonflags (sc_args s)) N) as (Heq & Hz & Hnz).
  fold n in Heq, Hz, Hnz.
  assert (HP : Parse binary tokens a
               = if negb (Str.empty (CheckNonFlags (_nonflags (sc_args s)) N))
                 then (sc_args s, CheckNonFlags (_nonflags (sc_args s)) N)
                 else Validate (sc_args s)).
  { unfold Parse. cbn [_required _optional set_binary]. rewrite Hscan.
    cbv zeta. by rewrite HN. }
  split; [|split; [|split]].
  - split; [|exact Heq]. intros He.
    destruct (N.eq_dec n N) as [|Hne]; [done|].
    destruct (N.eq_dec N 0%N) as [H0|H0];
      [rewrite (Hz Hne H0) in He | rewrite (Hnz Hne H0) in He]; discriminate He.
  - intros Hn. by rewrite HP, (Heq Hn).
  - intros Hpos Hne. rewrite HP, (Hnz Hne) by lia. reflexivity.
  - intros H0 Hne. rewrite HP, (Hz ltac:(lia) H0). reflexivity.
Qed.

Lemma C6_positional_count_check_witness :
  let a := RequireNonFlags 2 demo in
  let s := fst (scan 2 (mkScan (set_binary "prog" a) 0 false) ["x"; "-n"; "A"; "y"; "z"]) in
  scan 2 (mkScan (set_binary "prog" a) 0 false) ["x"; "-n"; "A"; "y"; "z"] = (s, None)
  /\ Parse "prog" ["x"; "-n"; "A"; "y"; "z"] a
     = (sc_args s, "Unknown arguments or user must specify 2 non-flags").
Proof.
  intros a s.
  assert (Hs : scan 2 (mkScan (set_binary "prog" a) 0 false) ["x"; "-n"; "A"; "y"; "z"]
               = (s, None)) by (vm_compute; reflexivity).
  split; [exact Hs|].
  refine (proj1 (proj2 (proj2 (C6_positional_count_check "prog" _ a s Hs))) _ _).
  - reflexivity.
  - vm_compute. discriminate.
Defined.

(** ** The token classifier *)


(** ** [flag=value] against [flag value] *)

Section EqualsForm.

Lemma substring_all s : String.substring 0 (String.length s) s = s.
Proof. induction s as [|c s IH]; simpl; [done|by rewrite IH]. Qed.




Variables (total_flags : Z) (f v : string).

Hypothesis f_has_no_equals : Str.find_first_of "=" f = None.




End EqualsForm.





(** ** What the value check writes *)

Lemma append_nonempty (p s : string) : p <> "" -> p +:+ s <> "".
Proof. destruct p; [done|discriminate]. Qed.

Lemma CheckForValues_step_error m d err :
  CheckForValues_step m d = inl err -> err <> "".
Proof.
  unfold CheckForValues_step. intros H.
  repeat match type of H with
  | context [m !! ?k] => destruct (m !! k)
  | context [if ?b then _ else _] => destruct b
  end; inversion H; by apply append_nonempty.
Qed.

Lemma Str_empty_spec s : Str.empty s = true <-> s = "".
Proof. by destruct s. Qed.

Lemma CheckForValues_step_other m d m' k :
  CheckForValues_step m d = inr m' -> ~ writes_to d k -> m' !! k = m !! k.
Proof.
  unfold CheckForValues_step, writes_to. intros H Hk.
  repeat match type of H with
  | context [m !! ?x] => destruct (m !! x)
  | context [if ?b then _ else _] => let E := fresh "E" in destruct b eqn:E
  end; inversion H; subst; try done;
    apply lookup_insert_ne; intros Heq; apply Hk;
    first [left; exact Heq
          | right; split; [exact Heq|]; intros ->; rewrite Heq in *; discriminate].
Qed.

(** An iteration for a declaration none of whose spellings is stored
    changes nothing. *)
Lemma CheckForValues_step_absent m d :
  m !! flag d = None -> m !! alias d = None -> CheckForValues_step m d = inr m.
Proof. unfold CheckForValues_step. by intros -> ->. Qed.

(** Every iteration that finds the primary spelling absent goes on: the
    diagnostic naming the alias is never produced. *)
Lemma CheckForValues_step_alias_never_fails m d :
  m !! flag d = None -> exists m', CheckForValues_step m d = inr m'.
Proof.
  unfold CheckForValues_step. intros ->.
  destruct (m !! alias d) as [second|]; [|by eexists].
  destruct second; cbn; [by eexists|].
  rewrite andb_false_r. by eexists.
Qed.

Lemma CheckForValues_success l : forall m m',
  CheckForValues m l = (m', "") -> values_run m l m'.
Proof.
  induction l as [|d l IH]; intros m m' H; cbn [CheckForValues] in H.
  - inversion H. constructor.
  - destruct (CheckForValues_step m d) as [err|m1] eqn:Hs.
    + inversion H; subst. by apply CheckForValues_step_error in Hs.
    + econstructor; eauto.
Qed.

Lemma CheckForValues_prefix_run l : forall m m' r,
  CheckForValues m l = (m', r) -> exists l1, values_run m l1 m' /\ l1 `sublist_of` l.
Proof.
  induction l as [|d l IH]; intros m m' r H; cbn [CheckForValues] in H.
  - inversion H. exists []. split; [constructor|done].
  - destruct (CheckForValues_step m d) as [err|m1] eqn:Hs.
    + inversion H; subst. exists []. split; [constructor|apply sublist_nil_l].
    + destruct (IH _ _ _ H) as (l1 & Hr & Hsub).
      exists (d :: l1). split; [econstructor; eauto|by apply sublist_skip].
Qed.

Lemma values_run_absent d m l m' :
  values_run m l m' -> spellings_private d l ->
  m !! flag d = None -> m !! alias d = None ->
  m' !! flag d = None /\ m' !! alias d = None.
Proof.
  induction 1 as [|m d' m1 l m' Hs Hr IH]; intros Hp Hf Ha; [done|].
  inversion Hp as [|? ? Hd' Hl]; subst. apply IH; [done| |].
  - destruct Hd' as [->|[Hw _]].
    + rewrite (CheckForValues_step_absent _ _ Hf Ha) in Hs. by inversion Hs; subst.
    + by rewrite (CheckForValues_step_other _ _ _ _ Hs Hw).
  - destruct Hd' as [->|[_ Hw]].
    + rewrite (CheckForValues_step_absent _ _ Hf Ha) in Hs. by inversion Hs; subst.
    + by rewrite (CheckForValues_step_other _ _ _ _ Hs Hw).
Qed.

Lemma spellings_private_sublist d l1 l :
  l1 `sublist_of` l -> spellings_private d l -> spellings_private d l1.
Proof.
  unfold spellings_private. rewrite !Forall_forall. intros Hsub H x Hx.
  apply H. by eapply elem_of_sublist.
Qed.

Lemma CheckForMissing_nonempty m d l :
  d ∈ l -> m !! flag d = None -> m !! alias d = None -> CheckForMissing m l <> "".
Proof.
  induction l as [|d' l IH]; intros Hin Hf Ha; [by apply elem_of_nil in Hin|].
  cbn [CheckForMissing].
  apply elem_of_cons in Hin as [<-|Hin].
  - rewrite Hf, Ha. destruct (negb _); by apply append_nonempty.
  - destruct (m !! flag d'), (m !! alias d'); try by apply IH.
    destruct (negb _); by apply append_nonempty.
Qed.

Lemma CheckForMissing_first m l1 d l2 :
  CheckForMissing m l1 = "" -> m !! flag d = None -> m !! alias d = None ->
  CheckForMissing m (l1 ++ d :: l2) = "Must specify " +:+ name_of d.
Proof.
  intros H1 Hf Ha. induction l1 as [|d' l1 IH]; cbn [app CheckForMissing].
  - rewrite Hf, Ha. unfold name_of. by destruct (negb _).
  - cbn [CheckForMissing] in H1.
    destruct (m !! flag d'), (m !! alias d'); try by apply IH.
    by destruct (negb _).
Qed.

Lemma scan_error_nonempty total_flags tokens : forall s s' err,
  scan total_flags s tokens = (s', Some err) -> err <> "".
Proof.
  induction tokens as [tokens IH] using (induction_ltof1 _ (@length string)).
  unfold ltof in IH. intros s s' err H.
  destruct tokens as [|t tokens]; [discriminate H|].
  cbn [scan] in H.
  repeat match type of H with
  | context [if ?b then _ else _] => destruct b
  end; try exact (IH tokens ltac:(simpl; lia) _ _ _ H).
  - destruct tokens as [|v tokens].
    + inversion H. by apply append_nonempty.
    + exact (IH tokens ltac:(simpl; lia) _ _ _ H).
  - destruct (TryFlagValueSplit (sc_args s) t) as [[f v]|];
      exact (IH tokens ltac:(simpl; lia) _ _ _ H).
Qed.

(** ** Validation as a whole *)

Lemma Validate_eq a :
  Validate a
  = let '(m1, r1) := CheckForValues (_arguments a) (_required a) in
    if Str.empty r1 then
      let '(m2, r2) := CheckForValues m1 (_optional a) in
      (set_arguments m2 a,
       if Str.empty r2 then CheckForMissing m2 (_required a) else r2)
    else (set_arguments m1 a, r1).
Proof.
  unfold Validate.
  destruct (CheckForValues (_arguments a) (_required a)) as [m1 r1].
  destruct (Str.empty r1) eqn:E1; [|by rewrite E1].
  by destruct (CheckForValues m1 (_optional a)) as [m2 r2].
Qed.

Lemma Validate_missing a d :
  d ∈ _required a ->
  _arguments a !! flag d = None -> _arguments a !! alias d = None ->
  spellings_private d (_required a ++ _optional a) ->
  snd (Validate a) <> "".
Proof.
  intros Hin Hf Ha Hp. apply Forall_app in Hp as [Hreq Hopt]. rewrite Validate_eq.
  destruct (CheckForValues (_arguments a) (_required a)) as [m1 r1] eqn:H1.
  destruct (Str.empty r1) eqn:E1.
  - apply Str_empty_spec in E1; subst r1.
    apply CheckForValues_success in H1.
    destruct (values_run_absent d _ _ _ H1 Hreq Hf Ha) as [Hf1 Ha1].
    destruct (CheckForValues m1 (_optional a)) as [m2 r2] eqn:H2.
    destruct (Str.empty r2) eqn:E2.
    + apply Str_empty_spec in E2; subst r2.
      apply CheckForValues_success in H2.
      destruct (values_run_absent d _ _ _ H2 Hopt Hf1 Ha1) as [Hf2 Ha2].
      cbn [snd]. by apply (CheckForMissing_nonempty m2 d).
    + cbn [snd]. intros ->. discriminate E2.
  - cbn [snd]. intros ->. discriminate E1.
Qed.

Lemma Validate_success_runs a a' :
  Validate a = (a', "") ->
  exists m1, values_run (_arguments a) (_required a) m1
    /\ values_run m1 (_optional a) (_arguments a')
    /\ CheckForMissing (_arguments a') (_required a) = ""
    /\ a' = set_arguments (_arguments a') a.
Proof.
  rewrite Validate_eq.
  destruct (CheckForValues (_arguments a) (_required a)) as [m1 r1] eqn:H1.
  destruct (Str.empty r1) eqn:E1.
  - apply Str_empty_spec in E1; subst r1.
    destruct (CheckForValues m1 (_optional a)) as [m2 r2] eqn:H2.
    destruct (Str.empty r2) eqn:E2.
    + apply Str_empty_spec in E2; subst r2. intros H; inversion H as [[Ha Hr]].
      exists m1. cbn [_arguments set_arguments].
      repeat split; by apply CheckForValues_success.
    + intros H; inversion H; subst. discriminate E2.
  - intros H; inversion H; subst. discriminate E1.
Qed.

(** C7, counterexample: validation stops at the first failure, so with two
    required flags both absent the diagnostic names the first one only;
    nothing names [--b]. *)
Lemma C7_only_first_missing_flag_is_named :
  ~ missing_required_is_named "prog" [] two_required
  /\ snd (Parse "prog" [] two_required) = "Must specify --a".
Proof.
  split; [|reflexivity]. intros H.
  specialize (H (Argument4 "--b" "" "second" false)).
  assert (Hin : Argument4 "--b" "" "second" false ∈ _required two_required).
  { cbn. apply list_elem_of_further, list_elem_of_here. }
  specialize (H Hin eq_refl eq_refl). vm_compute in H. discriminate H.
Qed.

(** C7 (amended): for a required declaration whose spellings no other
    declaration writes, if neither spelling is in the value store after the
    scan then the pass returns a non-empty diagnostic; when moreover the scan
    ran to the end, the positional-count and value checks passed and no
    earlier required declaration is missing, that diagnostic is
    "Must specify " followed by the flag, or by the alias when the flag is
    empty. *)
Theorem C7_missing_required_flag
  (a : Args) (binary : string) (tokens : list string)
  (s : Scan) (r : option string) (d : Argument) :
  d ∈ _required a ->
  scan (Z.of_nat (length (_required a) + length (_optional a)))
       (mkScan (set_binary binary a) 0 false) tokens = (s, r) ->
  _arguments (sc_args s) !! flag d = None ->
  _arguments (sc_args s) !! alias d = None ->
  spellings_private d (_required a ++ _optional a) ->
  snd (Parse binary tokens a) <> ""
  /\ (forall l1 l2 m1 m2,
        _required a = l1 ++ d :: l2 ->
        r = None ->
        CheckNonFlags (_nonflags (sc_args s)) (_nonflags_required a) = "" ->
        CheckForValues (_arguments (sc_args s)) (_required a) = (m1, "") ->
        CheckForValues m1 (_optional a) = (m2, "") ->
        CheckForMissing m2 l1 = "" ->
        snd (Parse binary tokens a) = "Must specify " +:+ name_of d).
Proof.
  intros Hin Hscan Hf Ha Hp.
  pose proof (scan_frame _ _ _ _ _ Hscan) as Hfr.
  apply frame_fields in Hfr as (Hreq & Hopt & Hnr & _).
  cbn [sc_args _required _optional _nonflags_required set_binary] in Hreq, Hopt, Hnr.
  assert (HP : Parse binary tokens a
               = match r with
                 | Some err => (sc_args s, err)
                 | None =>
                     if negb (Str.empty (CheckNonFlags (_nonflags (sc_args s))
                                            (_nonflags_required a)))
                     then (sc_args s, CheckNonFlags (_nonflags (sc_args s))
                                         (_nonflags_required a))
                     else Validate (sc_args s)
                 end).
  { unfold Parse. cbn [_required _optional set_binary]. rewrite Hscan.
    destruct r; [done|]. cbv zeta. by rewrite Hnr. }
  split.
  - rewrite HP. destruct r as [err|].
    + cbn [snd]. by eapply scan_error_nonempty.
    + destruct (Str.empty (CheckNonFlags _ _)) eqn:E; cbn [negb].
      * apply Validate_missing with d; by rewrite ?Hreq, ?Hopt.
      * cbn [snd]. intros Hz. rewrite Hz in E. discriminate E.
  - intros l1 l2 m1 m2 Hl -> Hcnt H1 H2 Hm. rewrite HP, Hcnt. cbn [negb Str.empty].
    rewrite Validate_eq, Hreq, Hopt, H1. cbn [Str.empty]. rewrite H2.
    cbn [Str.empty snd].
    apply Forall_app in Hp as [Hpr Hpo].
    apply CheckForValues_success in H1, H2.
    destruct (values_run_absent d _ _ _ H1 Hpr Hf Ha) as [Hf1 Ha1].
    destruct (values_run_absent d _ _ _ H2 Hpo Hf1 Ha1) as [Hf2 Ha2].
    rewrite Hl. by apply CheckForMissing_first.
Qed.

Lemma C7_missing_required_flag_witness :
  snd (Parse "prog" ["-v"] demo) = "Must specify --name".
Proof.
  pose (d := Argument5 "--name" "-n" "Name" true "").
  pose (s := fst (scan 2 (mkScan (set_binary "prog" demo) 0 false) ["-v"])).
  assert (Hin : d ∈ _required demo) by (cbn; apply list_elem_of_here).
  assert (Hp : spellings_private d (_required demo ++ _optional demo)).
  { cbn. apply Forall_cons; split; [by left|].
    apply Forall_cons; split; [|by apply Forall_nil].
    right. unfold writes_to; cbn. split; intros [H|[H _]]; discriminate H. }
  destruct (C7_missing_required_flag demo "prog" ["-v"] s None d Hin
              eq_refl eq_refl eq_refl Hp) as [_ H].
  exact (H [] [] _ _ eq_refl eq_refl eq_refl eq_refl eq_refl eq_refl).
Defined.

(** ** An empty value under the alias *)

(** C4, the code at the failing input: [--name]/[-n] takes a value; given
    as [-n=] (or as [-n] followed by an empty token) the alias is stored
    with an empty value and the pass succeeds, where the same input under
    the primary spelling is rejected.  In [CheckForValues] the alias branch
    is entered only when the stored value is non-empty, so its own
    empty-value test can never fire. *)
Theorem C4_empty_value_under_alias_is_accepted :
  CheckIfValueFlag demo "-n" = true
  /\ _arguments (fst (Parse "prog" ["-n="] demo)) !! "-n" = Some ""
  /\ snd (Parse "prog" ["-n="] demo) = ""
  /\ snd (Parse "prog" ["-n"; ""] demo) = ""
  /\ snd (Parse "prog" ["--name="] demo) = "Must specify value for --name".
Proof. vm_compute. repeat split; reflexivity. Qed.

(** ** Alias backfill *)

Lemma Has_spec a f :
  Has a f = true
  <-> is_Some (_arguments a !! f) \/ is_Some (_arguments a !! FindAlternative a f).
Proof.
  unfold Has. rewrite existsb_exists. split.
  - intros ([k x] & Hin & Hk). apply list_elem_of_In, elem_of_map_to_list in Hin.
    cbn [fst] in Hk. apply orb_true_iff in Hk as [Hk|Hk];
      apply String.eqb_eq in Hk; subst k; [left|right]; by eexists.
  - intros [[x Hx]|[x Hx]].
    + exists (f, x). split; [by apply list_elem_of_In, elem_of_map_to_list|].
      cbn [fst]. by rewrite String.eqb_refl.
    + exists (FindAlternative a f, x).
      split; [by apply list_elem_of_In, elem_of_map_to_list|].
      cbn [fst]. by rewrite String.eqb_refl, orb_true_r.
Qed.

Lemma names_unique_private d l : names_unique_for d l -> spellings_private d l.
Proof.
  intros H. eapply Forall_impl; [exact H|].
  intros d' [->|(H1 & H2 & H3 & H4)]; [by left|right].
  unfold writes_to. tauto.
Qed.

Lemma FindAlternative_in_app f l1 l2 :
  FindAlternative_in f (l1 ++ l2)
  = match FindAlternative_in f l1 with
    | Some s => Some s
    | None => FindAlternative_in f l2
    end.
Proof.
  induction l1 as [|d l1 IH]; cbn [app FindAlternative_in]; [done|].
  by repeat destruct (String.eqb _ _).
Qed.

Lemma FindAlternative_eq a f :
  FindAlternative a f
  = default "" (FindAlternative_in f (_required a ++ _optional a)).
Proof.
  unfold FindAlternative. rewrite FindAlternative_in_app.
  by destruct (FindAlternative_in f (_required a)).
Qed.

Lemma FindAlternative_in_unique d l :
  d ∈ l -> names_unique_for d l ->
  FindAlternative_in (flag d) l = Some (alias d)
  /\ FindAlternative_in (alias d) l = Some (flag d).
Proof.
  induction l as [|d' l IH]; intros Hin Hu; [by apply elem_of_nil in Hin|].
  inversion Hu as [|? ? Hd' Hl]; subst. cbn [FindAlternative_in].
  destruct Hd' as [->|(H1 & H2 & H3 & H4)].
  - rewrite String.eqb_refl. split; [done|].
    destruct (String.eqb_spec (flag d) (alias d)) as [E|_]; [by rewrite E|].
    by rewrite String.eqb_refl.
  - apply String.eqb_neq in H1, H2, H3, H4. rewrite H1, H2, H3, H4.
    apply IH; [|done]. apply elem_of_cons in Hin as [->|Hin]; [|done].
    by rewrite String.eqb_refl in H1.
Qed.

Lemma CheckForValues_step_backfills m d m' :
  alias d <> "" -> CheckForValues_step m d = inr m' -> backfilled d m'.
Proof.
  intros Hal. unfold CheckForValues_step.
  assert (Hne : negb (Str.empty (alias d)) = true).
  { destruct (alias d); [done|reflexivity]. }
  rewrite Hne. destruct (m !! flag d) as [x|] eqn:Hf.
  - destruct (value d && Str.empty x); [discriminate|].
    intros H; inversion H; subst. split.
    + intros _. rewrite lookup_insert_eq, lookup_insert.
      case_decide as E; [done|done].
    + intros v. rewrite lookup_insert_eq. intros [= <-] _.
      rewrite lookup_insert. case_decide; [done|done].
  - destruct (m !! alias d) as [y|] eqn:Ha.
    + destruct (Str.empty y) eqn:Ey; cbn [negb].
      * apply Str_empty_spec in Ey; subst y.
        intros H; inversion H; subst. split.
        -- rewrite Hf. by intros [? ?].
        -- rewrite Ha. by intros v [= <-].
      * rewrite andb_false_r. intros H; inversion H; subst.
        assert (Hfa : flag d <> alias d) by congruence.
        split.
        -- intros _. by rewrite lookup_insert_eq, lookup_insert_ne, Ha.
        -- intros v. rewrite lookup_insert_ne, Ha by done.
           intros [= <-] _. apply lookup_insert_eq.
    + intros H; inversion H; subst. split.
      * rewrite Hf. by intros [? ?].
      * by rewrite Ha.
Qed.

Lemma values_run_backfilled d m l m' :
  values_run m l m' -> names_unique_for d l -> alias d <> "" ->
  d ∈ l \/ backfilled d m -> backfilled d m'.
Proof.
  induction 1 as [m|m d' m1 l m' Hs Hr IH]; intros Hu Hal Hd.
  - destruct Hd as [Hd|Hd]; [by apply elem_of_nil in Hd|done].
  - inversion Hu as [|? ? Hd' Hl]; subst. apply IH; [done|done|].
    destruct Hd' as [->|Hav].
    + right. by eapply CheckForValues_step_backfills.
    + destruct Hd as [Hd|Hd].
      * apply elem_of_cons in Hd as [->|Hd]; [|by left].
        exfalso. tauto.
      * right. unfold backfilled.
        assert (Hw : ~ writes_to d' (flag d) /\ ~ writes_to d' (alias d)).
        { unfold writes_to. tauto. }
        by rewrite (CheckForValues_step_other _ _ _ _ Hs (proj1 Hw)),
                   (CheckForValues_step_other _ _ _ _ Hs (proj2 Hw)).
Qed.

Lemma Parse_success binary tokens a a' :
  Parse binary tokens a = (a', "") ->
  exists s,
    scan (Z.of_nat (length (_required a) + length (_optional a)))
         (mkScan (set_binary binary a) 0 false) tokens = (s, None)
    /\ Validate (sc_args s) = (a', "")
    /\ _required (sc_args s) = _required a
    /\ _optional (sc_args s) = _optional a.
Proof.
  unfold Parse. cbn [_required _optional set_binary].
  destruct (scan _ _ tokens) as [s [err|]] eqn:Hscan.
  - intros H; inversion H; subst. by apply scan_error_nonempty in Hscan.
  - cbv zeta. destruct (Str.empty (CheckNonFlags _ _)) eqn:E; cbn [negb].
    + intros H. exists s. split; [done|]. split; [done|].
      apply scan_frame, frame_fields in Hscan. cbn in Hscan. tauto.
    + intros H; inversion H as [[Ha Hr]]. rewrite Hr in E. discriminate E.
Qed.

(** Nothing keeps two declarations from sharing a spelling.  With [a]/[b]
    and [c]/[b] declared and [a=1 c=2] given the pass succeeds, the alias [b]
    is written twice and ends up holding the value of [c], not that of its
    primary [a]. *)
Lemma shared_alias_is_overwritten :
  let d := Argument5 "a" "b" "" true "" in
  d ∈ _required shared_alias ++ _optional shared_alias
  /\ snd (Parse "prog" ["a=1"; "c=2"] shared_alias) = ""
  /\ ~ alias_equivalent (fst (Parse "prog" ["a=1"; "c=2"] shared_alias)) d.
Proof.
  split; [cbn; apply list_elem_of_here|]. split; [reflexivity|].
  intros [_ H]. vm_compute in H. discriminate H.
Qed.

(** What the backfill does achieve after a successful parse, for a
    declared flag with a non-empty alias whose two spellings no other
    declaration uses: [Has(primary)] equals [Has(alias)]; a stored primary
    spelling is copied to the alias; an alias stored with a non-empty value
    is copied to the primary. *)
Lemma alias_backfill_after_success
  (a a' : Args) (binary : string) (tokens : list string) (d : Argument) :
  Parse binary tokens a = (a', "") ->
  d ∈ _required a ++ _optional a ->
  alias d <> "" ->
  names_unique_for d (_required a ++ _optional a) ->
  Has a' (flag d) = Has a' (alias d)
  /\ (is_Some (_arguments a' !! flag d) ->
      _arguments a' !! alias d = _arguments a' !! flag d)
  /\ (forall v, _arguments a' !! alias d = Some v -> v <> "" ->
      _arguments a' !! flag d = Some v).
Proof.
  intros HP Hin Hal Hu.
  destruct (Parse_success _ _ _ _ HP) as (s & _ & HV & Hreq & Hopt).
  destruct (Validate_success_runs _ _ HV) as (m1 & Hr1 & Hr2 & _ & Ha').
  rewrite Hreq in Hr1. rewrite Hopt in Hr2.
  assert (Hreg : _required a' ++ _optional a' = _required a ++ _optional a).
  { rewrite Ha'. cbn [_required _optional set_arguments]. by rewrite Hreq, Hopt. }
  split.
  - destruct (FindAlternative_in_unique d _ Hin Hu) as [Hfa Haf].
    apply eq_true_iff_eq. rewrite !Has_spec, !FindAlternative_eq, Hreg, Hfa, Haf.
    cbn [default]. tauto.
  - apply Forall_app in Hu as [Hur Huo].
    assert (Hb : backfilled d (_arguments a')).
    { apply (values_run_backfilled d _ _ _ Hr2 Huo Hal).
      apply elem_of_app in Hin as [Hin|Hin]; [right|by left].
      apply (values_run_backfilled d _ _ _ Hr1 Hur Hal). by left. }
    exact Hb.
Qed.

Lemma alias_backfill_after_success_on_demo :
  let a' := fst (Parse "prog" ["-n"; "Alice"; "-v"] demo) in
  Has a' "--name" = Has a' "-n"
  /\ _arguments a' !! "-n" = Some "Alice"
  /\ _arguments a' !! "--name" = Some "Alice".
Proof.
  intros a'.
  pose (d := Argument5 "--name" "-n" "Name" true "").
  assert (Hin : d ∈ _required demo ++ _optional demo) by (cbn; apply list_elem_of_here).
  assert (Hu : names_unique_for d (_required demo ++ _optional demo)).
  { cbn. apply Forall_cons; split; [by left|].
    apply Forall_cons; split; [|by apply Forall_nil].
    right. cbn. repeat split; discriminate. }
  destruct (alias_backfill_after_success demo a' "prog" ["-n"; "Alice"; "-v"] d
              eq_refl Hin ltac:(discriminate) Hu) as (HH & _ & Hv).
  split; [exact HH|]. split; [reflexivity|].
  apply (Hv "Alice"); [reflexivity|discriminate].
Defined.

(** C1, the code at the failing input: [--name]/[-n] takes a value and
    [--verbose]/[-v] takes none, no spelling is shared.  Given
    [--name Alice -v] the pass succeeds with [-v] stored (empty value) and
    [--verbose] not stored at all, so the two spellings do not hold the same
    value; given [--verbose] instead, both are stored.  In [CheckForValues]
    the copy from the alias to the primary spelling is guarded by a
    non-empty stored value, where the copy from the primary to the alias is
    not.  The same guard lets [-k=] through for the value flag
    [--num]/[-k] with default 5, and after [Initialize] the primary holds
    the default while the alias holds the empty value. *)
Theorem C1_alias_given_alone_is_not_copied :
  let d := Argument5 "--verbose" "-v" "Chatty" false "" in
  let a1 := fst (Parse "prog" ["--name"; "Alice"; "-v"] demo) in
  let a2 := fst (Parse "prog" ["--name"; "Alice"; "--verbose"] demo) in
  (d ∈ _required demo ++ _optional demo
   /\ alias d <> ""
   /\ names_unique_for d (_required demo ++ _optional demo))
  /\ (snd (Parse "prog" ["--name"; "Alice"; "-v"] demo) = ""
      /\ _arguments a1 !! "-v" = Some ""
      /\ _arguments a1 !! "--verbose" = None
      /\ ~ alias_equivalent a1 d)
  /\ (snd (Parse "prog" ["--name"; "Alice"; "--verbose"] demo) = ""
      /\ _arguments a2 !! "--verbose" = Some ""
      /\ _arguments a2 !! "-v" = Some "")
  /\ (snd (Parse "prog" ["-n"; "x"; "-k="; "a"; "b"] two_values) = ""
      /\ exists a' cout,
           Initialize 10 "prog" ["-n"; "x"; "-k="; "a"; "b"] two_values
           = Done (Returned a' cout)
           /\ _arguments a' !! "--num" = Some "5"
           /\ _arguments a' !! "-k" = Some "").
Proof.
  intros d a1 a2. split; [|split; [|split]].
  - split; [|split; [discriminate|]].
    + cbn. apply list_elem_of_further, list_elem_of_here.
    + cbn. apply Forall_cons; split.
      { right. cbn. repeat split; discriminate. }
      apply Forall_cons; split; [by left|by apply Forall_nil].
  - split; [vm_compute; reflexivity|]. split; [vm_compute; reflexivity|].
    split; [vm_compute; reflexivity|].
    intros [_ H]. vm_compute in H. discriminate H.
  - split; [vm_compute; reflexivity|]. split; vm_compute; reflexivity.
  - split; [vm_compute; reflexivity|].
    destruct (Initialize 10 "prog" ["-n"; "x"; "-k="; "a"; "b"] two_values)
      as [[a' cout|code a' cout]| |] eqn:Hi;
      [|vm_compute in Hi; discriminate Hi..].
    exists a', cout. split; [reflexivity|].
    assert (Ha : _arguments a'
                 = _arguments (AddFallbackValues
                     (fst (Parse "prog" ["-n"; "x"; "-k="; "a"; "b"] (with_help two_values))))).
    { vm_compute in Hi. injection Hi as <- _. vm_compute. reflexivity. }
    rewrite Ha. split; vm_compute; reflexivity.
Qed.


(** ** Character reads and substrings *)

Lemma size_String c s : Str.size (String c s) = N.succ (Str.size s).
Proof. unfold Str.size. cbn [String.length]. lia. Qed.

Lemma get_Some_lt s : forall i c, get s i = Some c -> (i < Str.size s)%N.
Proof.
  induction s as [|x s IH]; intros i c H; [discriminate H|].
  rewrite size_String. cbn [get] in H.
  destruct (N.eqb_spec i 0); [lia|]. apply IH in H. lia.
Qed.

Lemma get_lt_Some s : forall i, (i < Str.size s)%N -> exists c, get s i = Some c.
Proof.
  induction s as [|x s IH]; intros i H; [unfold Str.size in H; simpl in H; lia|].
  rewrite size_String in H. cbn [get].
  destruct (N.eqb_spec i 0); [by eexists|]. apply IH. lia.
Qed.

Lemma get_drop s : forall pos j, get (drop s pos) j = get s (pos + j).
Proof.
  induction s as [|x s IH]; intros pos j; [done|].
  cbn [drop]. destruct (N.eqb_spec pos 0) as [->|Hp]; [done|].
  rewrite IH. cbn [get].
  destruct (N.eqb_spec (pos + j) 0); [lia|]. f_equal. lia.
Qed.

Lemma size_drop s : forall pos, Str.size (drop s pos) = (Str.size s - pos)%N.
Proof.
  induction s as [|x s IH]; intros pos; [done|].
  cbn [drop]. destruct (N.eqb_spec pos 0) as [->|Hp]; [lia|].
  rewrite IH, size_String. lia.
Qed.

Lemma at_drop s pos j :
  (pos <= Str.size s)%N -> at_ (drop s pos) j = at_ s (pos + j).
Proof.
  intros Hp. unfold at_. rewrite get_drop, size_drop.
  destruct (get s (pos + j)); [done|].
  destruct (N.eqb_spec j (Str.size s - pos)), (N.eqb_spec (pos + j) (Str.size s));
    try done; lia.
Qed.

Lemma at_in_range s i :
  (i < Str.size s)%N -> exists c, at_ s i = Done c /\ get s i = Some c.
Proof.
  intros H. destruct (get_lt_Some s i H) as [c Hc]. exists c.
  unfold at_. by rewrite Hc.
Qed.

Lemma at_up_to_size s i : (i <= Str.size s)%N -> exists c, at_ s i = Done c.
Proof.
  intros H. unfold at_. destruct (get s i) as [c|] eqn:E; [by eexists|].
  destruct (N.eqb_spec i (Str.size s)); [by eexists|].
  destruct (get_lt_Some s i ltac:(lia)) as [c Hc]. congruence.
Qed.

Lemma isalpha_not_blank c : isalpha c = true -> isblank c = false.
Proof.
  unfold isalpha, isblank. generalize (N_of_ascii c). intros n H.
  destruct (N.eqb_spec n 32), (N.eqb_spec n 9); try done; subst; discriminate H.
Qed.

(** ** The loops of the description wrapper *)

Lemma walk_back_spec fuel s : forall location,
  (location < Str.size s)%N -> (N.to_nat location < fuel)%nat ->
  exists L, walk_back fuel s location = Done L
    /\ (L <= location)%N
    /\ (forall j, (L < j <= location)%N -> exists c, get s j = Some c /\ isalpha c = true)
    /\ ((0 < L)%N -> exists c, get s L = Some c /\ isalpha c = false).
Proof.
  induction fuel as [|fuel IH]; intros location Hr Hf; [lia|].
  cbn [walk_back]. destruct (at_in_range s location Hr) as (c & -> & Hc).
  cbn [mbind result_mbind result_bind].
  destruct (isalpha c && (0 <? location)%N) eqn:E.
  - apply andb_true_iff in E as [Ea Ep]. apply N.ltb_lt in Ep.
    destruct (IH (location - 1)%N ltac:(lia) ltac:(lia)) as (L & -> & HL & Hal & Hn).
    exists L. split; [done|]. split; [lia|]. split; [|done].
    intros j Hj. destruct (N.eq_dec j location) as [->|]; [by exists c|].
    apply Hal. lia.
  - exists location. split; [done|]. split; [lia|]. split; [intros j Hj; lia|].
    intros Hp. exists c. split; [done|].
    apply andb_false_iff in E as [E|E]; [done|]. apply N.ltb_ge in E. lia.
Qed.

Lemma width_minus_one w :
  (1 <= w < 2 ^ 32)%N -> ((w + 2 ^ 32 - 1) mod 2 ^ 32 = w - 1)%N.
Proof.
  intros H. replace (w + 2 ^ 32 - 1)%N with (w - 1 + 1 * 2 ^ 32)%N by lia.
  rewrite N.Div0.mod_add. apply N.mod_small. lia.
Qed.

Lemma DetermineNumCharsToWrite_spec fuel w rest :
  (1 <= w < 2 ^ 32)%N -> (w <= Str.size rest)%N -> (N.to_nat w <= fuel)%nat ->
  exists tw, DetermineNumCharsToWrite fuel w rest = Done tw
    /\ (1 <= tw <= w)%N
    /\ (tw = w \/ forall j, (tw <= j <= w - 1)%N ->
                    exists c, get rest j = Some c /\ isalpha c = true).
Proof.
  intros Hw Hs Hf. unfold DetermineNumCharsToWrite. rewrite width_minus_one by done.
  destruct (walk_back_spec fuel rest (w - 1)%N ltac:(lia) ltac:(lia))
    as (L & -> & HL & Hal & Hn).
  cbn [mbind result_mbind result_bind].
  destruct (N.eqb_spec L 0) as [->|HL0].
  - destruct (at_in_range rest 0%N ltac:(lia)) as (c & -> & Hc).
    cbn [mbind result_mbind result_bind]. destruct (isalpha c) eqn:Ea.
    + exists w. split; [done|]. split; [lia|by left].
    + exists 1%N. split; [done|]. split; [lia|]. right. intros j Hj. apply Hal. lia.
  - exists (L + 1)%N. split; [done|]. split; [lia|]. right.
    intros j Hj. apply Hal. lia.
Qed.

Lemma skip_blanks_spec fuel w desc count : forall skip,
  (skip <= w)%N -> (count + w < Str.size desc)%N ->
  (N.to_nat (w - skip) < fuel)%nat ->
  exists s', skip_blanks fuel w desc count skip = Done s'
    /\ (skip <= s' <= w)%N
    /\ (forall j, (skip <= j < s')%N ->
          exists c, get desc (count + j) = Some c /\ isblank c = true).
Proof.
  induction fuel as [|fuel IH]; intros skip Hs Hr Hf; [lia|].
  cbn [skip_blanks].
  destruct (at_in_range desc (count + skip)%N ltac:(lia)) as (c & -> & Hc).
  cbn [mbind result_mbind result_bind].
  destruct (isblank c && (skip <? w)%N) eqn:E.
  - apply andb_true_iff in E as [Eb El]. apply N.ltb_lt in El.
    destruct (IH (skip + 1)%N ltac:(lia) Hr ltac:(lia)) as (s' & -> & Hs' & Hbl).
    exists s'. split; [done|]. split; [lia|].
    intros j Hj. destruct (N.eq_dec j skip) as [->|]; [by exists c|].
    apply Hbl. lia.
  - exists skip. split; [done|]. split; [lia|]. intros j Hj. lia.
Qed.

Lemma no_adjacent_blanks_get s : forall i c1 c2,
  no_adjacent_blanks s = true ->
  get s i = Some c1 -> get s (i + 1) = Some c2 ->
  isblank c1 = true -> isblank c2 = false.
Proof.
  induction s as [|x s IH]; intros i c1 c2 Hn H1 H2 Hb; [discriminate H1|].
  assert (H2' : get s (N.pred (i + 1)) = Some c2).
  { cbn [get] in H2. by destruct (N.eqb_spec (i + 1) 0); [lia|]. }
  destruct s as [|y s]; [discriminate H2'|].
  change (no_adjacent_blanks (String x (String y s)))
    with (negb (isblank x && isblank y) && no_adjacent_blanks (String y s)) in Hn.
  apply andb_true_iff in Hn as [Hxy Hn].
  destruct (N.eq_dec i 0%N) as [->|Hi].
  - cbn in H1, H2'. inversion H1; subst. inversion H2'; subst.
    rewrite Hb in Hxy. by destruct (isblank c2).
  - apply (IH (N.pred i) c1 c2 Hn); [| |done].
    + cbn [get] in H1. by destruct (N.eqb_spec i 0).
    + by replace (N.pred i + 1)%N with (N.pred (i + 1)) by lia.
Qed.

Lemma substr_rest s pos :
  (pos <= Str.size s)%N -> substr s pos None = Done (drop s pos).
Proof.
  intros H. unfold substr. by destruct (N.ltb_spec (Str.size s) pos); [lia|].
Qed.

Lemma substr_line s pos len :
  (pos <= Str.size s)%N -> substr s pos (Some len) = Done (take (drop s pos) len).
Proof.
  intros H. unfold substr. by destruct (N.ltb_spec (Str.size s) pos); [lia|].
Qed.

(** The main loop always runs to its end when the width is at least 1: all
    its reads are in range and every iteration advances [count].  At the end
    [count] is past the width or on a letter, unless no iteration ran. *)
Lemma wrap_lines_spec inner start w desc :
  (1 <= w < 2 ^ 32)%N -> (N.to_nat w < inner)%nat ->
  forall fuel stream count,
    (N.to_nat (Str.size desc - w - count) < fuel)%nat ->
    exists stream' count',
      wrap_lines inner fuel start w desc stream count = Done (stream', count')
      /\ (count <= count')%N
      /\ (Str.size desc - w <= count')%N
      /\ (count' = count \/ (w <= count')%N
          \/ exists c, get desc count' = Some c /\ isalpha c = true)
      /\ (no_adjacent_blanks desc = true ->
          (count <= Str.size desc)%N -> (count' <= Str.size desc)%N).
Proof.
  intros Hw Hin. induction fuel as [|fuel IH]; intros stream count Hf; [lia|].
  cbn [wrap_lines]. destruct (N.ltb_spec count (Str.size desc - w)) as [Hlt|Hge].
  2:{ exists stream, count. repeat split; try lia; auto. }
  rewrite substr_rest by lia.
  cbn [mbind result_mbind result_bind].
  destruct (DetermineNumCharsToWrite_spec inner w (drop desc count) Hw
              ltac:(rewrite size_drop; lia) ltac:(lia)) as (tw & -> & Htw & Hal).
  cbn [mbind result_mbind result_bind].
  destruct (skip_blanks_spec inner w desc count 0%N ltac:(lia) ltac:(lia) ltac:(lia))
    as (s' & -> & Hs' & Hbl).
  cbn [mbind result_mbind result_bind].
  destruct (N.eqb_spec s' w) as [->|Hne].
  - destruct (IH stream (count + w)%N ltac:(lia))
      as (st & c' & -> & Hc1 & Hc2 & Hc3 & Hc4).
    exists st, c'. split; [done|]. split; [lia|]. split; [done|].
    split; [right; left; lia|]. intros Hn _. apply Hc4; [done|lia].
  - rewrite substr_line by lia.
    cbn [mbind result_mbind result_bind].
    destruct (IH (stream +:+ take (drop desc (count + s')) tw +:+ nl
                    +:+ Str.spaces (N.to_nat start))
                 (count + s' + tw)%N ltac:(lia))
      as (st & c' & -> & Hc1 & Hc2 & Hc3 & Hc4).
    exists st, c'. split; [done|]. split; [lia|]. split; [done|]. split.
    + right. destruct Hc3 as [->|Hc3]; [|done].
      destruct Hal as [->|Hal]; [left; lia|].
      destruct (N.le_gt_cases w (s' + tw)) as [|Hsm]; [left; lia|].
      right. destruct (Hal (s' + tw)%N ltac:(lia)) as (c & Hc & Ha).
      exists c. split; [|done]. rewrite get_drop in Hc.
      by replace (count + s' + tw)%N with (count + (s' + tw))%N by lia.
    + intros Hn _. apply Hc4; [done|].
      assert (s' <= 1)%N; [|lia].
      destruct (N.le_gt_cases s' 1) as [|Hgt]; [done|].
      destruct (Hbl 0%N ltac:(lia)) as (c0 & Hg0 & Hb0).
      destruct (Hbl 1%N ltac:(lia)) as (c1 & Hg1 & Hb1).
      replace (count + 1)%N with (count + 0 + 1)%N in Hg1 by lia.
      pose proof (no_adjacent_blanks_get _ _ _ _ Hn Hg0 Hg1 Hb0). congruence.
Qed.

(** When the main loop has run, the guard of the last blank-skipping loop is
    false, or its character read is out of range. *)
Lemma skip_last_never_iterates fuel start w desc stream count :
  (1 <= w < 2 ^ 32)%N -> (N.to_nat (Str.size desc + w) < fuel)%nat ->
  (w < Str.size desc)%N ->
  wrap_lines fuel fuel start w desc "" 0 = Done (stream, count) ->
  (skip_last fuel w desc count 0 = Fault /\ (Str.size desc < count)%N)
  \/ (skip_last fuel w desc count 0 = Done 0%N /\ (count <= Str.size desc)%N).
Proof.
  intros Hw Hf Hsz Hrun.
  destruct (wrap_lines_spec fuel start w desc Hw ltac:(lia) fuel "" 0%N ltac:(lia))
    as (st & c' & Hrun' & _ & Hend & Hcase & _).
  rewrite Hrun in Hrun'. inversion Hrun'; subst st c'. clear Hrun'.
  destruct fuel as [|fuel]; [lia|]. cbn [skip_last].
  destruct (N.le_gt_cases count (Str.size desc)) as [Hle|Hgt].
  - right. split; [|done].
    destruct (at_up_to_size desc count Hle) as [c Hc]. rewrite Hc.
    cbn [mbind result_mbind result_bind].
    destruct Hcase as [->|[Hwc|(c2 & Hg & Ha)]]; [lia| |].
    + destruct (N.ltb_spec count w); [lia|]. by rewrite andb_false_r.
    + unfold at_ in Hc. rewrite Hg in Hc. inversion Hc; subst c2.
      by rewrite (isalpha_not_blank _ Ha).
  - left. split; [|done]. unfold at_.
    destruct (get desc count) as [c|] eqn:E; [apply get_Some_lt in E; lia|].
    by destruct (N.eqb_spec count (Str.size desc)); [lia|].
Qed.

(** With the default width 50, a description of 49 blanks and two letters
    leaves [count] at 98, past the end of the 51 characters, and the last
    loop reads [description[98]]: an access the language leaves undefined,
    which the model marks as [Fault]. *)
Lemma read_past_the_end_is_marked :
  FormatDescription 200 30 50 blanks_then_ab = Fault.
Proof. by vm_compute. Qed.

(** For every description and every wrap width from 1 up, given enough
    iterations the routine stops: the main loop runs to its end, advancing
    [count] each time round; the last blank-skipping loop is left at its
    first test; the routine then returns a string or stops at a character
    read past the end of the description.  For a description shorter than
    2^31 characters with no two adjacent blanks a string is returned. *)
Lemma wrapping_stops
  (desc_start desc_width : N) (description : string) (fuel : nat) :
  (1 <= desc_width < 2 ^ 32)%N ->
  (N.to_nat (Str.size description + desc_width) < fuel)%nat ->
  (FormatDescription fuel desc_start desc_width description = Fault
   \/ exists s, FormatDescription fuel desc_start desc_width description = Done s)
  /\ ((desc_width < Str.size description)%N ->
      exists stream count,
        wrap_lines fuel fuel desc_start desc_width description "" 0 = Done (stream, count)
        /\ (Str.size description - desc_width <= count)%N
        /\ (skip_last fuel desc_width description count 0 = Done 0%N
            \/ skip_last fuel desc_width description count 0 = Fault
               /\ (Str.size description < count)%N))
  /\ (no_adjacent_blanks description = true ->
      (Str.size description < 2 ^ 31)%N ->
      exists s, FormatDescription fuel desc_start desc_width description = Done s).
Proof.
  intros Hw Hf.
  destruct (wrap_lines_spec fuel desc_start desc_width description Hw ltac:(lia)
              fuel "" 0%N ltac:(lia))
    as (st & c' & Hrun & _ & Hend & _ & Hin).
  assert (Hlast : (desc_width < Str.size description)%N ->
            FormatDescription fuel desc_start desc_width description
            = last_line fuel desc_width description st c').
  { intros Hsz. unfold FormatDescription.
    destruct (N.leb_spec (Str.size description) desc_width); [lia|].
    by rewrite Hrun. }
  assert (Htail : (c' <= Str.size description)%N ->
            (desc_width < Str.size description)%N ->
            skip_last fuel desc_width description c' 0 = Done 0%N ->
            last_line fuel desc_width description st c'
            = (if ((Str.size description + 2 ^ 64 - c') mod 2 ^ 64 mod 2 ^ 32 <? 2 ^ 31)%N
               then Done (st +:+ take (drop description c')
                            ((Str.size description + 2 ^ 64 - c') mod 2 ^ 64 mod 2 ^ 32)%N)
               else Fault)).
  { intros Hle Hsz Hsk. unfold last_line. rewrite Hsk.
    cbn [mbind result_mbind result_bind].
    destruct (N.eqb_spec 0 desc_width); [lia|]. cbn [negb].
    unfold write_tail. rewrite N.add_0_r.
    destruct (at_up_to_size description c' Hle) as [c ->]. done. }
  split; [|split].
  - destruct (N.le_gt_cases (Str.size description) desc_width) as [Hsm|Hsz].
    + right. exists description. unfold FormatDescription.
      by destruct (N.leb_spec (Str.size description) desc_width); [|lia].
    + rewrite (Hlast Hsz).
      destruct (skip_last_never_iterates _ _ _ _ _ _ Hw Hf Hsz Hrun)
        as [[Hsk _]|[Hsk Hle]].
      * left. unfold last_line. by rewrite Hsk.
      * rewrite (Htail Hle Hsz Hsk).
        destruct (_ <? _)%N; [right; by eexists|by left].
  - intros Hsz. exists st, c'. split; [done|]. split; [done|].
    destruct (skip_last_never_iterates _ _ _ _ _ _ Hw Hf Hsz Hrun)
      as [[Hsk Hgt]|[Hsk _]]; [by right|by left].
  - intros Hn H31.
    destruct (N.le_gt_cases (Str.size description) desc_width) as [Hsm|Hsz].
    + exists description. unfold FormatDescription.
      by destruct (N.leb_spec (Str.size description) desc_width); [|lia].
    + specialize (Hin Hn ltac:(lia)). rewrite (Hlast Hsz).
      destruct (skip_last_never_iterates _ _ _ _ _ _ Hw Hf Hsz Hrun)
        as [[_ Hgt]|[Hsk _]]; [lia|].
      rewrite (Htail Hin Hsz Hsk).
      assert (Hn31 : ((Str.size description + 2 ^ 64 - c') mod 2 ^ 64 mod 2 ^ 32
                      = Str.size description - c')%N).
      { replace (Str.size description + 2 ^ 64 - c')%N
          with (Str.size description - c' + 1 * 2 ^ 64)%N by lia.
        rewrite N.Div0.mod_add.
        rewrite (N.mod_small (Str.size description - c') (2 ^ 64)) by lia.
        apply N.mod_small. lia. }
      rewrite Hn31. destruct (N.ltb_spec (Str.size description - c') (2 ^ 31)); [|lia].
      by eexists.
Qed.

Lemma wrapping_stops_on_help_text :
  exists s, FormatDescription 100 2 10 "Print usage and options information" = Done s.
Proof.
  refine (proj2 (proj2 (wrapping_stops 2 10
            "Print usage and options information" 100 _ _)) _ _).
  - vm_compute. split; [discriminate|reflexivity].
  - vm_compute. lia.
  - reflexivity.
  - reflexivity.
Defined.

(** C10, the code at the failing input: with the wrap width set to 0 and a
    description that is not empty (and shorter than 2^32 - 1 characters),
    [DetermineNumCharsToWrite] computes [_desc_width - 1] on [unsigned]
    operands, which wraps to 2^32 - 1, and its first step reads
    [description[4294967295]], far outside the string.  The routine returns
    no string, however many iterations it is given. *)
Theorem C10_width_zero_reads_out_of_range
  (fuel : nat) (desc_start : N) (description : string) :
  description <> "" ->
  (Str.size description < 2 ^ 32 - 1)%N ->
  at_ description ((0 + 2 ^ 32 - 1) mod 2 ^ 32)%N = Fault
  /\ DetermineNumCharsToWrite (S fuel) 0 description = Fault
  /\ FormatDescription (S fuel) desc_start 0 description = Fault
  /\ ~ returns_a_string desc_start 0 description.
Proof.
  intros Hne Hsz.
  assert (Hat : at_ description ((0 + 2 ^ 32 - 1) mod 2 ^ 32)%N = Fault).
  { unfold at_. destruct (get description _) as [c|] eqn:E.
    - apply get_Some_lt in E. change ((0 + 2 ^ 32 - 1) mod 2 ^ 32)%N with (2 ^ 32 - 1)%N in E.
      lia.
    - change ((0 + 2 ^ 32 - 1) mod 2 ^ 32)%N with (2 ^ 32 - 1)%N.
      destruct (N.eqb_spec (2 ^ 32 - 1) (Str.size description)); [lia|done]. }
  assert (Hd : forall n, DetermineNumCharsToWrite (S n) 0 description = Fault).
  { intros n. unfold DetermineNumCharsToWrite. cbn [walk_back]. by rewrite Hat. }
  assert (Hpos : (0 < Str.size description)%N).
  { destruct description; [done|]. rewrite size_String. lia. }
  assert (Hdrop : drop description 0 = description) by (by destruct description).
  assert (Hf : forall n, FormatDescription (S n) desc_start 0 description = Fault).
  { intros n. unfold FormatDescription.
    destruct (N.leb_spec (Str.size description) 0); [lia|].
    cbn [wrap_lines].
    destruct (N.ltb_spec 0 (Str.size description - 0)); [|lia].
    rewrite (substr_rest description 0) by lia.
    rewrite Hdrop. cbn [mbind result_mbind result_bind].
    by rewrite Hd. }
  split; [done|]. split; [done|]. split; [done|].
  intros (n & s & H). destruct n as [|n]; [|by rewrite Hf in H].
  unfold FormatDescription in H.
  destruct (N.leb_spec (Str.size description) 0) as [H0|_]; [|discriminate H].
  destruct description; [done|]. rewrite size_String in H0. lia.
Qed.

Lemma C10_width_zero_reads_out_of_range_witness :
  FormatDescription 200 30 0 "Name" = Fault
  /\ ~ returns_a_string 30 0 "Name".
Proof.
  destruct (C10_width_zero_reads_out_of_range 199 30 "Name"
              ltac:(discriminate) ltac:(reflexivity)) as (_ & _ & H1 & H2).
  split; [exact H1|exact H2].
Defined.

(** ** The preamble *)

#[local] Arguments String.append !s1 s2 : simpl nomatch.

Lemma append_assoc (s t u : string) : (s +:+ t) +:+ u = s +:+ (t +:+ u).
Proof. induction s as [|c s IH]; cbn [String.append]; [done|by f_equal]. Qed.

Lemma append_empty_r (s : string) : s +:+ "" = s.
Proof. induction s as [|c s IH]; cbn [String.append]; [done|by f_equal]. Qed.

Lemma put_optional_item output d : put_optional output d = output +:+ optional_item d.
Proof.
  unfold put_optional, optional_item, value_suffix.
  destruct (negb (Str.empty (flag d))), (negb (Str.empty (alias d))), (value d);
    cbn [String.append]; rewrite ?append_assoc; cbn [String.append];
    rewrite ?append_empty_r; reflexivity.
Qed.

Lemma put_required_item output d : put_required output d = output +:+ required_item d.
Proof.
  unfold put_required, required_item, value_suffix.
  destruct (negb (Str.empty (alias d))), (value d);
    cbn [String.append]; rewrite ?append_assoc; cbn [String.append];
    rewrite ?append_empty_r; reflexivity.
Qed.

Lemma put_nonflag_item output i : put_nonflag output i = output +:+ nonflag_item i.
Proof. reflexivity. Qed.

Lemma fold_left_items {A} (put : string -> A -> string) (item : A -> string) :
  (forall output x, put output x = output +:+ item x) ->
  forall l output, fold_left put l output = output +:+ concat_items (map item l).
Proof.
  intros Hput. induction l as [|x l IH]; intros output; cbn [fold_left map concat_items].
  - by rewrite append_empty_r.
  - by rewrite IH, Hput, append_assoc.
Qed.

Lemma preamble_text_layout a : preamble_text a = preamble_layout a.
Proof.
  unfold preamble_text, preamble_layout.
  rewrite (fold_left_items put_optional optional_item put_optional_item).
  rewrite (fold_left_items put_required required_item put_required_item).
  destruct (0 <? _nonflags_required a)%N.
  - rewrite (fold_left_items put_nonflag nonflag_item put_nonflag_item).
    by rewrite !append_assoc.
  - rewrite !append_assoc. cbn [String.append]. reflexivity.
Qed.

Lemma GenerateArgumentUsage_returns fuel start w l : forall output,
  (forall d, d ∈ l -> exists s, FormatDescription fuel start w (description d) = Done s) ->
  exists s, GenerateArgumentUsage fuel start w l output = Done s.
Proof.
  induction l as [|d l IH]; intros output H; cbn [GenerateArgumentUsage].
  - by eexists.
  - destruct (H d ltac:(apply list_elem_of_here)) as [s ->].
    cbn [mbind result_mbind result_bind]. apply IH.
    intros d' Hd'. apply H. by apply list_elem_of_further.
Qed.

(** C9, counterexample: for the optional value flag [--num]/[-k] the code
    writes [[--num=value|-k=value]], with [=value] after each spelling, not
    [[--num|-k=value]]. *)
Lemma C9_value_suffix_after_each_spelling :
  exists a',
    GenerateUsage 10 (set_binary "prog" two_values) = Done a'
    /\ _preamble a'
       = "Usage: prog [--num=value|-k=value] --name=value|-n=value <--> nonflag1 nonflag2 "
           +:+ nl
    /\ _preamble a' <> preamble_as_specified (set_binary "prog" two_values).
Proof.
  eexists. split; [by vm_compute|]. split; [by vm_compute|].
  vm_compute. discriminate.
Qed.

(** C9 (amended): the generated preamble is "Usage: <binary> ", then for
    each optional flag [[flag=value|alias=value]] and a blank, then for each
    required flag [flag=value|alias=value] and a blank, then, only when the
    positional count is greater than zero, "<--> " and the placeholders
    nonflag1 ... nonflagN each followed by a blank, then a line feed.  Each
    [=value] is written only for a value flag (for an optional flag the
    first one only when the flag is not empty), and [|alias...] only when
    the alias is not empty.  The preamble is generated whenever the
    descriptions can be formatted. *)
Theorem C9_preamble_layout (fuel : nat) (a : Args) :
  (forall a', GenerateUsage fuel a = Done a' -> _preamble a' = preamble_layout a)
  /\ ((forall d, d ∈ _required a ++ _optional a ->
         exists s, FormatDescription fuel (_desc_start a) (_desc_width a) (description d)
                   = Done s) ->
      exists a', GenerateUsage fuel a = Done a')
  /\ (forall d, flag d <> "" -> alias d <> "" ->
        optional_item d
        = "[" +:+ flag d +:+ value_suffix d +:+ "|" +:+ alias d +:+ value_suffix d +:+ "] "
        /\ required_item d
           = flag d +:+ value_suffix d +:+ "|" +:+ alias d +:+ value_suffix d +:+ " ").
Proof.
  split; [|split].
  - intros a'. unfold GenerateUsage.
    destruct (flag_description_text fuel a) as [text| |]; try discriminate.
    cbn [mbind result_mbind result_bind]. intros [= <-].
    cbn [_preamble set_preamble]. rewrite preamble_text_layout.
    by destruct a.
  - intros H. unfold GenerateUsage, flag_description_text.
    destruct (GenerateArgumentUsage_returns fuel (_desc_start a) (_desc_width a)
                (_required a) "") as [req ->].
    { intros d Hd. apply H, elem_of_app. by left. }
    cbn [mbind result_mbind result_bind].
    destruct (GenerateArgumentUsage_returns fuel (_desc_start a) (_desc_width a)
                (_optional a) "") as [opt ->].
    { intros d Hd. apply H, elem_of_app. by right. }
    cbn [mbind result_mbind result_bind]. by eexists.
  - intros d Hf Ha. unfold optional_item, required_item.
    destruct (flag d) eqn:Ef; [done|]. destruct (alias d) eqn:Ea; [done|].
    cbn [Str.empty negb]. by rewrite ?append_assoc.
Qed.

Lemma C9_preamble_layout_witness :
  exists a',
    GenerateUsage 10 (set_binary "prog" two_values) = Done a'
    /\ _preamble a' = preamble_layout (set_binary "prog" two_values).
Proof.
  destruct (C9_preamble_layout 10 (set_binary "prog" two_values)) as (H1 & H2 & _).
  destruct H2 as [a' Ha'].
  - intros d Hd. cbn in Hd.
    apply elem_of_cons in Hd as [->|Hd]; [eexists; reflexivity|].
    apply elem_of_cons in Hd as [->|Hd]; [eexists; reflexivity|].
    by apply elem_of_nil in Hd.
  - exists a'. split; [exact Ha'|]. by apply H1.
Defined.

(** ** Default-value backfill *)

Lemma insert_if_absent_lookup (m : gmap string string) k0 v k :
  match m !! k0 with None => <[k0 := v]> m | Some _ => m end !! k
  = match m !! k with
    | Some x => Some x
    | None => if String.eqb k0 k then Some v else None
    end.
Proof.
  destruct (String.eqb_spec k0 k) as [->|Hne].
  - destruct (m !! k) eqn:E; [by rewrite E|by rewrite lookup_insert_eq].
  - destruct (m !! k0); [by destruct (m !! k)|].
    rewrite lookup_insert_ne by done. by destruct (m !! k).
Qed.

Lemma AddFallback_step_lookup m d k :
  AddFallback_step m d !! k
  = match m !! k with
    | Some v => Some v
    | None =>
        if (String.eqb (flag d) k || String.eqb (alias d) k)
           && negb (Str.empty (fallback d))
        then Some (fallback d) else None
    end.
Proof.
  unfold AddFallback_step.
  destruct (negb (Str.empty (fallback d))) eqn:Efb.
  - rewrite andb_true_r, !insert_if_absent_lookup.
    destruct (m !! k); [done|].
    by destruct (String.eqb (flag d) k), (String.eqb (alias d) k).
  - rewrite andb_false_r.
    destruct (m !! flag d), (m !! alias d); by destruct (m !! k).
Qed.

Lemma fold_left_fallback l : forall (m : gmap string string) k,
  fold_left AddFallback_step l m !! k
  = match m !! k with
    | Some v => Some v
    | None => first_fallback k l
    end.
Proof.
  induction l as [|d l IH]; intros m k; cbn [fold_left first_fallback].
  - by destruct (m !! k).
  - rewrite IH, AddFallback_step_lookup.
    destruct (m !! k); [done|]. by destruct (_ && _).
Qed.

Lemma first_fallback_app k l1 l2 :
  first_fallback k (l1 ++ l2)
  = match first_fallback k l1 with
    | Some v => Some v
    | None => first_fallback k l2
    end.
Proof.
  induction l1 as [|d l1 IH]; cbn [app first_fallback]; [done|].
  by destruct (_ && _).
Qed.

Lemma AddFallbackValues_lookup b k :
  _arguments (AddFallbackValues b) !! k
  = match _arguments b !! k with
    | Some v => Some v
    | None => first_fallback k (_optional b ++ _required b)
    end.
Proof.
  unfold AddFallbackValues. cbn [_arguments set_arguments].
  rewrite !fold_left_fallback, first_fallback_app.
  destruct (_arguments b !! k); [done|].
  by destruct (first_fallback k (_optional b)).
Qed.

Lemma Validate_frame a : frame a (fst (Validate a)).
Proof.
  rewrite Validate_eq.
  destruct (CheckForValues (_arguments a) (_required a)) as [m1 r1].
  destruct (Str.empty r1); [destruct (CheckForValues m1 (_optional a))|];
    apply frame_set_arguments.
Qed.

Lemma Parse_frame binary tokens a :
  frame (set_binary binary a) (fst (Parse binary tokens a)).
Proof.
  unfold Parse.
  destruct (scan _ _ tokens) as [s [err|]] eqn:Hscan;
    pose proof (scan_frame _ _ _ _ _ Hscan) as Hfr; cbn [sc_args] in Hfr; [done|].
  cbv zeta. destruct (negb _); [done|].
  eapply frame_trans; [exact Hfr|apply Validate_frame].
Qed.

(** What [Initialize] does after [Parse], on the parsed object [a1] and the
    diagnostic. *)
Lemma Initialize_after_parse fuel binary tokens a a1 diag outcome :
  Parse binary tokens (with_help a) = (a1, diag) ->
  Initialize fuel binary tokens a = Done outcome ->
  exists a2,
    GenerateUsage fuel a1 = Done a2
    /\ _arguments a2 = _arguments a1
    /\ _required a2 = _required a1 /\ _optional a2 = _optional a1
    /\ match outcome with
       | Returned a' _ =>
           a' = AddFallbackValues a2 /\ (diag <> "" -> _exit_enabled a = false)
       | Exited code a' _ =>
           a' = a2 /\ _exit_enabled a = true
           /\ code = (if Str.empty diag then 0 else 1)%Z
       end.
Proof.
  intros HP. unfold Initialize. cbv zeta. rewrite HP.
  pose proof (Parse_frame binary tokens (with_help a)) as (m & nf & Hfr).
  rewrite HP in Hfr. cbn [fst] in Hfr.
  assert (Hex : _exit_enabled a1 = _exit_enabled a).
  { rewrite Hfr. unfold with_help. by destruct a as [? ? ? ? ? ? ? ? ? []]. }
  destruct (GenerateUsage fuel a1) as [a2| |] eqn:HG; try discriminate.
  cbn [mbind result_mbind result_bind].
  assert (Ha2 : _arguments a2 = _arguments a1 /\ _required a2 = _required a1
                /\ _optional a2 = _optional a1 /\ _exit_enabled a2 = _exit_enabled a1).
  { unfold GenerateUsage in HG.
    destruct (flag_description_text fuel a1); try discriminate.
    cbn [mbind result_mbind result_bind] in HG. inversion HG. by destruct a1. }
  destruct Ha2 as (Hm & Hr & Ho & He).
  intros H. exists a2. split; [done|]. split; [done|]. split; [done|]. split; [done|].
  destruct (_ || negb (Str.empty diag)) eqn:Eusage.
  - destruct (_exit_enabled a2) eqn:Eexit; inversion H; subst outcome.
    + split; [done|]. split; [congruence|done].
    + split; [done|]. intros _. congruence.
  - inversion H; subst outcome. split; [done|].
    intros Hd. apply orb_false_iff in Eusage as [_ Ed].
    destruct diag; [done|discriminate Ed].
Qed.




(** ** The 8-bit unsigned accessor *)

(** The 8-bit unsigned accessor fails for a stored "300": it throws when
    exceptions are enabled (for a non-empty flag name and an [errno] other
    than [ERANGE], the error "<flag> was too large for uint8_t") and returns
    the zero sentinel when they are disabled.  For a non-empty flag name
    whose stored value is "255", called while [errno] is not [ERANGE], it
    returns 255 and leaves [errno] alone. *)
Lemma uint8_accessor_with_clear_errno (a : Args) (errno : Z) (f : string) :
  (_arguments a !! f = Some "300" ->
     failed a (snd (GetAsUInt8 a errno f))
     /\ (f <> "" -> errno <> ERANGE ->
         GetAsUInt8 a errno f
         = (errno, if _exceptions_enabled a
                   then Throw (f +:+ " was too large for uint8_t")
                   else Value 0%N)))
  /\ (_arguments a !! f = Some "255" -> f <> "" -> errno <> ERANGE ->
      GetAsUInt8 a errno f = (errno, Value 255%N)).
Proof.
  unfold GetAsUInt8, GetAsUInt64_into, failed. split.
  - intros Hst. rewrite Hst.
    change (strtoul "300" errno) with (300%N, errno). cbv iota beta.
    split.
    + destruct (Str.empty f), (errno =? ERANGE)%Z, (_exceptions_enabled a);
        cbn; auto.
    + intros Hf He. destruct f; [done|]. cbn [Str.empty].
      destruct (Z.eqb_spec errno ERANGE); [done|]. reflexivity.
  - intros Hst Hf He. rewrite Hst. destruct f; [done|]. cbn [Str.empty].
    change (strtoul "255" errno) with (255%N, errno). cbv iota beta.
    destruct (Z.eqb_spec errno ERANGE); [done|]. reflexivity.
Qed.

Lemma uint8_accessor_with_clear_errno_on_two_numbers :
  failed two_numbers
    (snd (GetAsUInt8 (set_arguments {[ "--level" := "300" ]} two_numbers) 0 "--level"))
  /\ GetAsUInt8 two_numbers 0 "--level" = (0%Z, Value 255%N).
Proof.
  split.
  - exact (proj1 (proj1 (uint8_accessor_with_clear_errno
                           (set_arguments {[ "--level" := "300" ]} two_numbers)
                           0 "--level") eq_refl)).
  - apply (proj2 (uint8_accessor_with_clear_errno two_numbers 0 "--level")).
    + reflexivity.
    + discriminate.
    + discriminate.
Defined.

(** So for a named flag the accessor behaves as the specification words it
    whenever [errno] is not [ERANGE] on entry. *)
Lemma uint8_accessor_as_specified_with_clear_errno (a : Args) (errno : Z) (f : string) :
  f <> "" -> errno <> ERANGE -> uint8_accessor_as_specified a errno f.
Proof.
  intros Hf He.
  destruct (uint8_accessor_with_clear_errno a errno f) as [H300 H255]. split.
  - intros Hst. exact (proj1 (H300 Hst)).
  - intros Hst. by rewrite (H255 Hst Hf He).
Qed.

(** C8, the code at the failing input: the store holds "255" under
    [--level] and a numeral above 2^64 under [--big].  Read first, [--level]
    comes back as 255 from the 8-bit accessor.  Reading [--big] as a 64-bit
    value overflows and leaves [errno] at [ERANGE]; [--level] read after
    that is refused, as the zero sentinel with exceptions disabled and as
    "Could not convert 255 to uint64_t" with exceptions enabled, although
    its own conversion is in range: [GetAsUInt64] tests [errno] after
    [strtoul] without clearing it before. *)
Theorem C8_stale_errno_refuses_255 :
  let loud := set_arguments (_arguments two_numbers) Args_default in
  GetAsUInt8 two_numbers 0 "--level" = (0%Z, Value 255%N)
  /\ GetAsUInt64 two_numbers 0 "--big" = (ERANGE, Value 0%N)
  /\ strtoul "255" ERANGE = (255%N, ERANGE)
  /\ GetAsUInt8 two_numbers ERANGE "--level" = (ERANGE, Value 0%N)
  /\ ~ uint8_accessor_as_specified two_numbers ERANGE "--level"
  /\ GetAsUInt8 loud ERANGE "--level"
     = (ERANGE, Throw "Could not convert 255 to uint64_t").
Proof.
  intros loud. split; [vm_compute; reflexivity|]. split; [vm_compute; reflexivity|].
  split; [vm_compute; reflexivity|]. split; [vm_compute; reflexivity|].
  split; [|vm_compute; reflexivity].
  intros [_ H]. specialize (H eq_refl). vm_compute in H. discriminate H.
Qed.

(** * Further properties of the code *)

(** ** The classifier and the registry *)

Lemma first_match_app f l1 l2 :
  first_match f (l1 ++ l2)
  = match first_match f l1 with
    | Some d => Some d
    | None => first_match f l2
    end.
Proof.
  induction l1 as [|d l1 IH]; cbn [app first_match]; [done|].
  by destruct (_ || _).
Qed.

Lemma first_match_Some f l d :
  first_match f l = Some d -> d ∈ l /\ (flag d = f \/ alias d = f).
Proof.
  induction l as [|d' l IH]; cbn [first_match]; [done|].
  destruct (String.eqb_spec f (flag d')) as [->|Hf]; cbn [orb].
  { intros [= <-]. split; [apply list_elem_of_here|by left]. }
  destruct (String.eqb_spec f (alias d')) as [->|Ha].
  { intros [= <-]. split; [apply list_elem_of_here|by right]. }
  intros H. destruct (IH H) as [Hin Hs]. split; [by apply list_elem_of_further|done].
Qed.

Lemma first_match_None f l :
  first_match f l = None <-> Forall (fun d => flag d <> f /\ alias d <> f) l.
Proof.
  induction l as [|d' l IH]; cbn [first_match]; [by split; [constructor|]|].
  destruct (String.eqb_spec f (flag d')) as [->|Hf]; cbn [orb].
  { split; [done|]. intros H. inversion H; subst. tauto. }
  destruct (String.eqb_spec f (alias d')) as [->|Ha].
  { split; [done|]. intros H. inversion H; subst. tauto. }
  rewrite IH. split.
  - intros H. constructor; [split; congruence|done].
  - intros H. by inversion H.
Qed.

(** A token is classified by the first declaration, required ones before
    optional ones, that has it as flag or alias: it is a value flag or a
    valueless flag as that declaration says, never both, and neither when no
    declaration spells it. *)
Theorem classifier_first_declaration_wins (a : Args) (f : string) :
  match first_match f (_required a ++ _optional a) with
  | Some d =>
      d ∈ _required a ++ _optional a /\ (flag d = f \/ alias d = f)
      /\ CheckIfValueFlag a f = value d
      /\ CheckIfNonValueFlag a f = negb (value d)
  | None =>
      CheckIfValueFlag a f = false /\ CheckIfNonValueFlag a f = false
      /\ Forall (fun d => flag d <> f /\ alias d <> f) (_required a ++ _optional a)
  end.
Proof.
  destruct (first_match f (_required a ++ _optional a)) as [d|] eqn:E.
  - destruct (first_match_Some _ _ _ E) as [Hin Hs].
    rewrite first_match_app in E. unfold CheckIfValueFlag, CheckIfNonValueFlag.
    destruct (first_match f (_required a)) as [d'|]; [by inversion E; subst|].
    by rewrite E.
  - pose proof (proj1 (first_match_None _ _) E) as HF.
    rewrite first_match_app in E. unfold CheckIfValueFlag, CheckIfNonValueFlag.
    destruct (first_match f (_required a)) as [d'|]; [done|]. by rewrite E.
Qed.

Lemma classifier_frame a b f :
  frame a b ->
  CheckIfValueFlag b f = CheckIfValueFlag a f
  /\ CheckIfNonValueFlag b f = CheckIfNonValueFlag a f
  /\ TryFlagValueSplit b = TryFlagValueSplit a.
Proof. by intros (m & nf & ->). Qed.

(** ** What the scan loop does with the tokens *)

(** The only diagnostic the loop itself returns is "Must set value for"
    the last token, and it returns it only when that last token, read while
    still scanning, is a value flag with nothing after it. *)
Theorem scan_fails_only_on_trailing_value_flag
  (total_flags : Z) (tokens : list string) (s s' : Scan) (err : string) :
  scan total_flags s tokens = (s', Some err) ->
  exists t, last tokens = Some t
    /\ t <> "--"
    /\ CheckIfValueFlag (sc_args s) t = true
    /\ delim_encountered s' = false
    /\ err = "Must set value for " +:+ t.
Proof.
  revert s. induction tokens as [tokens IH] using (induction_ltof1 _ (@length string)).
  unfold ltof in IH. intros s H.
  destruct tokens as [|t tokens]; [discriminate H|].
  cbn [scan] in H.
  assert (Hstep : forall s1 rest, (length rest < length (t :: tokens))%nat ->
            frame (sc_args s) (sc_args s1) ->
            scan total_flags s1 rest = (s', Some err) ->
            exists u, last rest = Some u /\ u <> "--"
              /\ CheckIfValueFlag (sc_args s) u = true
              /\ delim_encountered s' = false
              /\ err = "Must set value for " +:+ u).
  { intros s1 rest Hlen Hfr Hs.
    destruct (IH rest Hlen s1 Hs) as (u & Hl & Hne & Hv & Hd & He).
    exists u. repeat split; try done.
    by rewrite <- (proj1 (classifier_frame _ _ u Hfr)). }
  assert (Hlast : forall u, last tokens = Some u -> last (t :: tokens) = Some u).
  { intros u Hu. destruct tokens; [discriminate Hu|exact Hu]. }
  assert (Hgo : forall s1, frame (sc_args s) (sc_args s1) ->
            scan total_flags s1 tokens = (s', Some err) ->
            exists u, last (t :: tokens) = Some u /\ u <> "--"
              /\ CheckIfValueFlag (sc_args s) u = true
              /\ delim_encountered s' = false
              /\ err = "Must set value for " +:+ u).
  { intros s1 Hfr Hs.
    destruct (Hstep s1 tokens ltac:(simpl; lia) Hfr Hs) as (u & Hl & Hr).
    exists u. split; [by apply Hlast|done]. }
  destruct (String.eqb_spec t "--") as [->|Hne]; [eapply Hgo; [|exact H]; apply frame_refl|].
  destruct (delim_encountered s) eqn:Hd; [eapply Hgo; [|exact H]; apply frame_set_nonflags|].
  destruct (CheckIfNonValueFlag (sc_args s) t);
    [eapply Hgo; [|exact H]; apply frame_set_arguments|].
  destruct (CheckIfValueFlag (sc_args s) t) eqn:Hv.
  { destruct tokens as [|v tokens].
    - inversion H; subst. exists t. by repeat split.
    - destruct (IH tokens ltac:(simpl; lia) _ H) as (u & Hl & Hu & Hvu & Hr).
      cbn [sc_args count_flag] in Hvu.
      rewrite (proj1 (classifier_frame _ _ u (frame_set_arguments _ _))) in Hvu.
      exists u. split; [|done]. apply Hlast. destruct tokens; [discriminate Hl|exact Hl]. }
  destruct (TryFlagValueSplit (sc_args s) t) as [[f v]|].
  - eapply Hgo; [|exact H]; apply frame_set_arguments.
  - eapply Hgo; [|exact H]; apply frame_set_nonflags.
Qed.

Lemma scan_fails_only_on_trailing_value_flag_witness :
  exists t, last ["x"; "-n"] = Some t
    /\ t <> "--"
    /\ CheckIfValueFlag demo t = true
    /\ "Must set value for -n" = "Must set value for " +:+ t.
Proof.
  destruct (scan_fails_only_on_trailing_value_flag 2 ["x"; "-n"]
              (mkScan demo 0 false)
              (fst (scan 2 (mkScan demo 0 false) ["x"; "-n"]))
              "Must set value for -n" eq_refl)
    as (t & H1 & H2 & H3 & _ & H5).
  exists t. by repeat split.
Defined.

Lemma find_first_of_split c s : forall p,
  Str.find_first_of c s = Some p ->
  s = String.substring 0 p s +:+ String c (Str.suffix s (S p))
  /\ Str.find_first_of c (String.substring 0 p s) = None.
Proof.
  induction s as [|x s IH]; intros p H; [discriminate H|].
  cbn [Str.find_first_of] in H. destruct (Ascii.eqb_spec x c) as [->|Hne].
  - inversion H; subst p. split; [|reflexivity].
    unfold Str.suffix. cbn [String.length String.substring Nat.sub].
    rewrite Nat.sub_0_r, substring_all. reflexivity.
  - destruct (Str.find_first_of c s) as [p'|] eqn:E; [|discriminate H].
    inversion H; subst p. destruct (IH p' eq_refl) as [Hs Hn].
    split.
    + cbn [String.substring]. unfold Str.suffix in *.
      cbn [String.length String.substring Nat.sub].
      change (String x (String.substring 0 p' s)
              +:+ String c (String.substring (S p') (String.length s - S p') s))
        with (String x (String.substring 0 p' s
              +:+ String c (String.substring (S p') (String.length s - S p') s))).
      by rewrite <- Hs.
    + cbn [String.substring Str.find_first_of].
      destruct (Ascii.eqb_spec x c); [done|]. by rewrite Hn.
Qed.

Lemma TryFlagValueSplit_Some (a : Args) (arg f v : string) :
  TryFlagValueSplit a arg = Some (f, v) ->
  arg = f +:+ "=" +:+ v
  /\ Str.find_first_of "=" f = None
  /\ CheckIfValueFlag a f = true.
Proof.
  unfold TryFlagValueSplit.
  destruct (Str.find_first_of "=" arg) as [p|] eqn:E; [|done].
  cbn [Str.prefix].
  destruct (CheckIfValueFlag a (String.substring 0 p arg)) eqn:Hv; [|done].
  intros [= <- <-]. destruct (find_first_of_split _ _ _ E) as [Hs Hn].
  split; [exact Hs|]. by split.
Qed.

(** When the split form is recognised the token is the flag, the first
    [=] and the value: the flag is what precedes the first [=] (so it holds
    no [=] itself), it is a declared value flag, and the value is everything
    after that [=], further [=] characters included. *)
Theorem TryFlagValueSplit_sound (a : Args) (arg f v : string) :
  TryFlagValueSplit a arg = Some (f, v) ->
  arg = f +:+ "=" +:+ v
  /\ Str.find_first_of "=" f = None
  /\ CheckIfValueFlag a f = true.
Proof. apply TryFlagValueSplit_Some. Qed.

Lemma TryFlagValueSplit_sound_witness :
  "--name=a=b" = "--name" +:+ "=" +:+ "a=b"
  /\ Str.find_first_of "=" "--name" = None
  /\ CheckIfValueFlag demo "--name" = true.
Proof. exact (TryFlagValueSplit_sound demo "--name=a=b" "--name" "a=b" eq_refl). Defined.

(** What one run of the loop does to the object: positional tokens are
    appended in order, keys are only added, and every new entry is a
    declared flag with the value the tokens gave it. *)
Lemma scan_effect total_flags tokens : forall s s' r,
  scan total_flags s tokens = (s', r) ->
  (exists l, _nonflags (sc_args s') = _nonflags (sc_args s) ++ l
     /\ l `sublist_of` tokens /\ Forall (fun t => t <> "--") l)
  /\ (forall k, is_Some (_arguments (sc_args s) !! k) ->
        is_Some (_arguments (sc_args s') !! k))
  /\ (forall k v, _arguments (sc_args s') !! k = Some v ->
        _arguments (sc_args s) !! k = Some v
        \/ (CheckIfNonValueFlag (sc_args s) k = true /\ v = "")
        \/ (CheckIfValueFlag (sc_args s) k = true
            /\ (v ∈ tokens \/ (k +:+ "=" +:+ v) ∈ tokens)))
  /\ (flags_encountered s <= flags_encountered s')%Z.
Proof.
  induction tokens as [tokens IH] using (induction_ltof1 _ (@length string)).
  unfold ltof in IH. intros s s' r H.
  destruct tokens as [|t tokens].
  { inversion H; subst. split; [exists []; by rewrite app_nil_r|].
    split; [done|]. split; [by left|lia]. }
  cbn [scan] in H.
  (* one step that leaves the store alone and may append [t] *)
  assert (Hpos : forall nf' d' l0,
            _nonflags (sc_args s) ++ l0 = nf' -> l0 `sublist_of` [t] ->
            Forall (fun t => t <> "--") l0 ->
            scan total_flags (mkScan (set_nonflags nf' (sc_args s))
                                     (flags_encountered s) d') tokens = (s', r) ->
            (exists l, _nonflags (sc_args s') = _nonflags (sc_args s) ++ l
               /\ l `sublist_of` (t :: tokens) /\ Forall (fun t => t <> "--") l)
            /\ (forall k, is_Some (_arguments (sc_args s) !! k) ->
                  is_Some (_arguments (sc_args s') !! k))
            /\ (forall k v, _arguments (sc_args s') !! k = Some v ->
                  _arguments (sc_args s) !! k = Some v
                  \/ (CheckIfNonValueFlag (sc_args s) k = true /\ v = "")
                  \/ (CheckIfValueFlag (sc_args s) k = true
                      /\ (v ∈ t :: tokens \/ (k +:+ "=" +:+ v) ∈ t :: tokens)))
            /\ (flags_encountered s <= flags_encountered s')%Z).
  { intros nf' d' l0 Hnf Hsub Hall Hs.
    destruct (IH tokens ltac:(simpl; lia) _ _ _ Hs) as ((l & Hl & Hls & Hla) & Hk & Hv & Hc).
    cbn [sc_args flags_encountered] in *.
    assert (Hfr : frame (sc_args s) (set_nonflags nf' (sc_args s)))
      by apply frame_set_nonflags.
    split; [|split; [|split]].
    - exists (l0 ++ l). split.
      + rewrite Hl. destruct (sc_args s); cbn in *. by rewrite <- Hnf, <- app_assoc.
      + split; [|by apply Forall_app].
        change (t :: tokens) with ([t] ++ tokens). by apply sublist_app.
    - intros k Hsome. apply Hk. by destruct (sc_args s).
    - intros k v Hkv. destruct (Hv k v Hkv) as [H1|[H1|[H1 H2]]].
      + left. by destruct (sc_args s).
      + right; left.
        by rewrite <- (proj1 (proj2 (classifier_frame _ _ k Hfr))).
      + right; right. rewrite <- (proj1 (classifier_frame _ _ k Hfr)).
        split; [done|]. destruct H2 as [H2|H2]; [left|right]; by apply list_elem_of_further.
    - done. }
  (* one step that writes [key := val] and consumes [used] tokens *)
  assert (Hput : forall key val rest,
            rest `sublist_of` tokens -> (length rest <= length tokens)%nat ->
            (forall x, x ∈ rest -> x ∈ tokens) ->
            (CheckIfNonValueFlag (sc_args s) key = true /\ val = ""
             \/ CheckIfValueFlag (sc_args s) key = true
                /\ (val ∈ t :: tokens \/ (key +:+ "=" +:+ val) ∈ t :: tokens)) ->
            scan total_flags
              (count_flag total_flags (<[key := val]> (_arguments (sc_args s))) s)
              rest = (s', r) ->
            (exists l, _nonflags (sc_args s') = _nonflags (sc_args s) ++ l
               /\ l `sublist_of` (t :: tokens) /\ Forall (fun t => t <> "--") l)
            /\ (forall k, is_Some (_arguments (sc_args s) !! k) ->
                  is_Some (_arguments (sc_args s') !! k))
            /\ (forall k v, _arguments (sc_args s') !! k = Some v ->
                  _arguments (sc_args s) !! k = Some v
                  \/ (CheckIfNonValueFlag (sc_args s) k = true /\ v = "")
                  \/ (CheckIfValueFlag (sc_args s) k = true
                      /\ (v ∈ t :: tokens \/ (k +:+ "=" +:+ v) ∈ t :: tokens)))
            /\ (flags_encountered s <= flags_encountered s')%Z).
  { intros key val rest Hsub Hlen Hin Hkey Hs.
    destruct (IH rest ltac:(simpl; lia) _ _ _ Hs) as ((l & Hl & Hls & Hla) & Hk & Hv & Hc).
    cbn [sc_args flags_encountered count_flag] in *.
    assert (Hfr : frame (sc_args s)
                    (set_arguments (<[key := val]> (_arguments (sc_args s))) (sc_args s)))
      by apply frame_set_arguments.
    assert (Hm : _arguments (set_arguments (<[key := val]> (_arguments (sc_args s)))
                               (sc_args s))
                 = <[key := val]> (_arguments (sc_args s))) by by destruct (sc_args s).
    assert (Hn : _nonflags (set_arguments (<[key := val]> (_arguments (sc_args s)))
                              (sc_args s))
                 = _nonflags (sc_args s)) by by destruct (sc_args s).
    rewrite Hm in Hk, Hv. rewrite Hn in Hl.
    split; [|split; [|split]].
    - exists l. split; [done|]. split; [|done].
      apply sublist_cons. by etrans.
    - intros k Hsome. apply Hk. rewrite lookup_insert. by case_decide.
    - intros k v Hkv. destruct (Hv k v Hkv) as [H1|[H1|[H1 H2]]].
      + rewrite lookup_insert in H1. case_decide as E; [|by left].
        inversion H1; subst. right. exact Hkey.
      + right; left. by rewrite <- (proj1 (proj2 (classifier_frame _ _ k Hfr))).
      + right; right. rewrite <- (proj1 (classifier_frame _ _ k Hfr)).
        split; [done|].
        destruct H2 as [H2|H2]; [left|right]; by apply list_elem_of_further, Hin.
    - lia. }
  destruct (String.eqb_spec t "--") as [->|Hne].
  { apply (Hpos (_nonflags (sc_args s)) true []);
      [by rewrite app_nil_r|apply sublist_nil_l|constructor|].
    by rewrite set_nonflags_id. }
  destruct (delim_encountered s) eqn:Hd.
  { apply (Hpos (_nonflags (sc_args s) ++ [t]) true [t]);
      [done|done|by repeat constructor|done]. }
  destruct (CheckIfNonValueFlag (sc_args s) t) eqn:Hnv.
  { apply (Hput t "" tokens); [done|done|done|by left|done]. }
  destruct (CheckIfValueFlag (sc_args s) t) eqn:Hv.
  { destruct tokens as [|v tokens].
    - inversion H; subst. split; [exists []; split; [by rewrite app_nil_r|]|].
      { split; [apply sublist_nil_l|constructor]. }
      split; [done|]. split; [by left|lia].
    - apply (Hput t v tokens);
        [by apply sublist_cons|simpl; lia|intros x Hx; by apply list_elem_of_further| |done].
      right. split; [done|]. left. apply list_elem_of_further, list_elem_of_here. }
  destruct (TryFlagValueSplit (sc_args s) t) as [[f v]|] eqn:Hsp.
  - destruct (TryFlagValueSplit_Some _ _ _ _ Hsp) as (Ht & _ & Hf).
    apply (Hput f v tokens); [done|done|done| |done].
    right. split; [done|]. right. rewrite <- Ht. apply list_elem_of_here.
  - apply (Hpos (_nonflags (sc_args s) ++ [t]) false [t]);
      [done|done|by repeat constructor|done].
Qed.

(** ** What the value check does to the store *)

Lemma CheckForValues_step_effect m d m' :
  CheckForValues_step m d = inr m' ->
  (forall k, is_Some (m !! k) -> is_Some (m' !! k))
  /\ (forall k v, m' !! k = Some v ->
        m !! k = Some v
        \/ (k = alias d /\ alias d <> "" /\ m !! flag d = Some v)
        \/ (k = flag d /\ v <> "" /\ m !! alias d = Some v)).
Proof.
  unfold CheckForValues_step. intros H.
  assert (Hins : forall key val,
            forall k, is_Some (m !! k) -> is_Some (<[key := val]> m !! k)).
  { intros key val k Hk. rewrite lookup_insert. by case_decide. }
  destruct (m !! flag d) as [x|] eqn:Ef.
  - destruct (negb (Str.empty (alias d))) eqn:Ea.
    + destruct (value d && Str.empty x); [discriminate|]. inversion H; subst.
      split; [apply Hins|]. intros k v. rewrite lookup_insert.
      case_decide as E; [|by left]. intros [= <-]. right; left.
      split; [done|]. split; [|done]. intros Hz. rewrite Hz in Ea. discriminate Ea.
    + destruct (m !! alias d) as [y|] eqn:Ey; [|inversion H; subst; auto].
      destruct (Str.empty y) eqn:Ee; cbn [negb] in H; [inversion H; subst; auto|].
      rewrite andb_false_r in H. inversion H; subst.
      split; [apply Hins|]. intros k v. rewrite lookup_insert.
      case_decide as E; [|by left]. intros [= <-]. right; right.
      split; [done|]. split; [|done]. intros ->. discriminate Ee.
  - destruct (m !! alias d) as [y|] eqn:Ey; [|inversion H; subst; auto].
    destruct (Str.empty y) eqn:Ee; cbn [negb] in H; [inversion H; subst; auto|].
    rewrite andb_false_r in H. inversion H; subst.
    split; [apply Hins|]. intros k v. rewrite lookup_insert.
    case_decide as E; [|by left]. intros [= <-]. right; right.
    split; [done|]. split; [|done]. intros ->. discriminate Ee.
Qed.

Lemma values_run_effect m l m' :
  values_run m l m' ->
  (forall k, is_Some (m !! k) -> is_Some (m' !! k))
  /\ (forall k v, m' !! k = Some v ->
        (exists k0, m !! k0 = Some v)
        /\ (is_Some (m !! k) \/ exists d, d ∈ l /\ (flag d = k \/ alias d = k))).
Proof.
  induction 1 as [m|m d m1 l m' Hs Hr IH].
  - split; [done|]. intros k v Hk. split; [by exists k|left; by eexists].
  - destruct (CheckForValues_step_effect _ _ _ Hs) as [Hk1 Hv1].
    destruct IH as [Hk2 Hv2]. split; [auto|].
    intros k v Hkv. destruct (Hv2 k v Hkv) as [[k0 Hk0] Hdecl]. split.
    + destruct (Hv1 k0 v Hk0) as [?|[(_ & _ & ?)|(_ & _ & ?)]]; by eexists.
    + destruct Hdecl as [[x Hx]|(d' & Hd' & Hsp)].
      * destruct (Hv1 k x Hx) as [?|[(-> & _)|(-> & _)]].
        -- left; by eexists.
        -- right. exists d. split; [apply list_elem_of_here|by right].
        -- right. exists d. split; [apply list_elem_of_here|by left].
      * right. exists d'. split; [by apply list_elem_of_further|done].
Qed.

Lemma CheckForValues_effect
  (m m' : gmap string string) (to_check : list Argument) (r : string) :
  CheckForValues m to_check = (m', r) ->
  (forall k, is_Some (m !! k) -> is_Some (m' !! k))
  /\ (forall k v, m' !! k = Some v -> exists k0, m !! k0 = Some v)
  /\ (forall k, is_Some (m' !! k) ->
        is_Some (m !! k) \/ exists d, d ∈ to_check /\ (flag d = k \/ alias d = k)).
Proof.
  intros H. destruct (CheckForValues_prefix_run _ _ _ _ H) as (l1 & Hr & Hsub).
  destruct (values_run_effect _ _ _ Hr) as [Hk Hv].
  split; [done|]. split.
  - intros k v Hkv. by destruct (Hv k v Hkv).
  - intros k [v Hkv]. destruct (Hv k v Hkv) as [_ [?|(d & Hd & Hsp)]]; [by left|].
    right. exists d. split; [by eapply elem_of_sublist|done].
Qed.

(** The alias backfill of the value check drops no key and invents no
    value: every key stored before is stored afterwards, every value stored
    afterwards was stored before under some key, and a key that appears is
    the flag or the alias of a checked declaration.  This holds whether the
    check succeeds or stops at a diagnostic. *)
Theorem CheckForValues_keeps_keys_and_values
  (m m' : gmap string string) (to_check : list Argument) (r : string) :
  CheckForValues m to_check = (m', r) ->
  (forall k, is_Some (m !! k) -> is_Some (m' !! k))
  /\ (forall k v, m' !! k = Some v -> exists k0, m !! k0 = Some v)
  /\ (forall k, is_Some (m' !! k) ->
        is_Some (m !! k) \/ exists d, d ∈ to_check /\ (flag d = k \/ alias d = k)).
Proof. apply CheckForValues_effect. Qed.

Lemma CheckForValues_keeps_keys_and_values_witness :
  let m := {[ "--name" := "Alice" ]} : gmap string string in
  let m' := fst (CheckForValues m (_required demo)) in
  is_Some (m' !! "--name") /\ (forall k v, m' !! k = Some v -> exists k0, m !! k0 = Some v).
Proof.
  intros m m'.
  destruct (CheckForValues_keeps_keys_and_values m m' (_required demo)
              (snd (CheckForValues m (_required demo))) eq_refl) as (H1 & H2 & _).
  split; [apply H1; by eexists|exact H2].
Defined.

(** ** What [Parse] does to the object *)

Lemma Validate_store_only a : exists m, fst (Validate a) = set_arguments m a.
Proof.
  rewrite Validate_eq.
  destruct (CheckForValues (_arguments a) (_required a)) as [m1 r1].
  destruct (Str.empty r1); [destruct (CheckForValues m1 (_optional a)) as [m2 r2]|];
    by eexists.
Qed.

Lemma Validate_keys a :
  (forall k, is_Some (_arguments a !! k) -> is_Some (_arguments (fst (Validate a)) !! k))
  /\ (forall k, is_Some (_arguments (fst (Validate a)) !! k) ->
        is_Some (_arguments a !! k)
        \/ exists d, d ∈ _required a ++ _optional a /\ (flag d = k \/ alias d = k)).
Proof.
  rewrite Validate_eq.
  destruct (CheckForValues (_arguments a) (_required a)) as [m1 r1] eqn:H1.
  destruct (CheckForValues_effect _ _ _ _ H1) as (Hk1 & _ & Hd1).
  assert (Hreq : forall k, is_Some (m1 !! k) ->
            is_Some (_arguments a !! k)
            \/ exists d, d ∈ _required a ++ _optional a /\ (flag d = k \/ alias d = k)).
  { intros k Hk. destruct (Hd1 k Hk) as [?|(d & Hd & Hs)]; [by left|].
    right. exists d. split; [apply elem_of_app; by left|done]. }
  destruct (Str.empty r1).
  - destruct (CheckForValues m1 (_optional a)) as [m2 r2] eqn:H2.
    destruct (CheckForValues_effect _ _ _ _ H2) as (Hk2 & _ & Hd2).
    cbn [fst _arguments set_arguments]. split; [auto|].
    intros k Hk. destruct (Hd2 k Hk) as [?|(d & Hd & Hs)]; [auto|].
    right. exists d. split; [apply elem_of_app; by right|done].
  - cbn [fst _arguments set_arguments]. split; [auto|done].
Qed.

Lemma classified_is_declared a k :
  CheckIfNonValueFlag a k = true \/ CheckIfValueFlag a k = true ->
  exists d, d ∈ _required a ++ _optional a /\ (flag d = k \/ alias d = k).
Proof.
  unfold CheckIfNonValueFlag, CheckIfValueFlag.
  destruct (first_match k (_required a)) as [d|] eqn:E1.
  { intros _. destruct (first_match_Some _ _ _ E1) as [Hin Hs].
    exists d. split; [apply elem_of_app; by left|done]. }
  destruct (first_match k (_optional a)) as [d|] eqn:E2.
  { intros _. destruct (first_match_Some _ _ _ E2) as [Hin Hs].
    exists d. split; [apply elem_of_app; by right|done]. }
  intros [?|?]; discriminate.
Qed.

(** [Parse] unfolded along the outcome of the scan loop. *)
Lemma Parse_cases binary tokens a :
  exists s r,
    scan (Z.of_nat (length (_required a) + length (_optional a)))
         (mkScan (set_binary binary a) 0 false) tokens = (s, r)
    /\ _required (sc_args s) = _required a
    /\ _optional (sc_args s) = _optional a
    /\ _nonflags_required (sc_args s) = _nonflags_required a
    /\ Parse binary tokens a
       = match r with
         | Some err => (sc_args s, err)
         | None =>
             if negb (Str.empty (CheckNonFlags (_nonflags (sc_args s))
                                               (_nonflags_required a)))
             then (sc_args s, CheckNonFlags (_nonflags (sc_args s))
                                            (_nonflags_required a))
             else Validate (sc_args s)
         end.
Proof.
  destruct (scan (Z.of_nat (length (_required a) + length (_optional a)))
                 (mkScan (set_binary binary a) 0 false) tokens) as [s r] eqn:Hscan.
  exists s, r. split; [done|].
  pose proof (scan_frame _ _ _ _ _ Hscan) as Hfr.
  apply frame_fields in Hfr as (Hreq & Hopt & Hnr & _).
  cbn [sc_args _required _optional _nonflags_required set_binary] in Hreq, Hopt, Hnr.
  split; [done|]. split; [done|]. split; [done|].
  unfold Parse. cbn [_required _optional set_binary]. rewrite Hscan.
  destruct r; [done|]. cbv zeta. by rewrite Hnr.
Qed.

(** Positional tokens are collected in command-line order: whatever the
    outcome, [_nonflags] after [Parse] is what it was before followed by a
    subsequence of the tokens, none of them the delimiter.  [Parse] does not
    clear what an earlier pass collected. *)
Theorem Parse_collects_positionals_in_order
  (binary : string) (tokens : list string) (a a' : Args) (diag : string) :
  Parse binary tokens a = (a', diag) ->
  exists l, _nonflags a' = _nonflags a ++ l
    /\ l `sublist_of` tokens
    /\ Forall (fun t => t <> "--") l.
Proof.
  intros HP. destruct (Parse_cases binary tokens a) as (s & r & Hscan & _ & _ & _ & HP').
  rewrite HP in HP'.
  destruct (scan_effect _ _ _ _ _ Hscan) as ((l & Hl & Hsub & Hall) & _).
  cbn [sc_args _nonflags set_binary] in Hl.
  assert (Hnf : _nonflags a' = _nonflags (sc_args s)).
  { destruct r as [err|]; [by inversion HP'|].
    destruct (negb _); [by inversion HP'|].
    destruct (Validate_store_only (sc_args s)) as [m Hm].
    rewrite <- HP' in Hm. cbn [fst] in Hm. rewrite Hm. by destruct (sc_args s). }
  exists l. rewrite Hnf, Hl. split; [by destruct a|done].
Qed.

Lemma Parse_collects_positionals_in_order_witness :
  exists l, _nonflags (fst (Parse "prog" ["x"; "-n"; "A"; "--"; "y"] demo)) = [] ++ l
    /\ l `sublist_of` ["x"; "-n"; "A"; "--"; "y"].
Proof.
  destruct (Parse_collects_positionals_in_order "prog" ["x"; "-n"; "A"; "--"; "y"] demo
              (fst (Parse "prog" ["x"; "-n"; "A"; "--"; "y"] demo))
              (snd (Parse "prog" ["x"; "-n"; "A"; "--"; "y"] demo)) eq_refl)
    as (l & H1 & H2 & _).
  exists l. by split.
Defined.

(** [Parse] never records an undeclared name and never removes an entry:
    every key stored before the pass is stored after it, and every key
    stored after it was stored before or is the flag or the alias of a
    declaration. *)
Theorem Parse_stores_only_declared_names
  (binary : string) (tokens : list string) (a a' : Args) (diag : string) :
  Parse binary tokens a = (a', diag) ->
  (forall k, is_Some (_arguments a !! k) -> is_Some (_arguments a' !! k))
  /\ (forall k, is_Some (_arguments a' !! k) ->
        is_Some (_arguments a !! k)
        \/ exists d, d ∈ _required a ++ _optional a /\ (flag d = k \/ alias d = k)).
Proof.
  intros HP.
  destruct (Parse_cases binary tokens a) as (s & r & Hscan & Hreq & Hopt & _ & HP').
  rewrite HP in HP'.
  destruct (scan_effect _ _ _ _ _ Hscan) as (_ & Hk & Hv & _).
  cbn [sc_args _arguments set_binary] in Hk, Hv.
  assert (Hscan_keys : forall k, is_Some (_arguments (sc_args s) !! k) ->
            is_Some (_arguments a !! k)
            \/ exists d, d ∈ _required a ++ _optional a /\ (flag d = k \/ alias d = k)).
  { intros k [v Hkv]. destruct (Hv k v Hkv) as [H1|[[H1 _]|[H1 _]]].
    - left. destruct a; by eexists.
    - right. apply (classified_is_declared (set_binary binary a)). by left.
    - right. apply (classified_is_declared (set_binary binary a)). by right. }
  assert (Hbefore : forall k, is_Some (_arguments a !! k) ->
            is_Some (_arguments (sc_args s) !! k)).
  { intros k Hsome. apply Hk. by destruct a. }
  destruct r as [err|]; [inversion HP'; subst; auto|].
  destruct (negb _); [inversion HP'; subst; auto|].
  destruct (Validate_keys (sc_args s)) as [Hv1 Hv2].
  rewrite <- HP' in Hv1, Hv2. cbn [fst] in Hv1, Hv2. rewrite Hreq, Hopt in Hv2.
  split; [auto|]. intros k Hk'. destruct (Hv2 k Hk') as [?|?]; auto.
Qed.

Lemma Parse_stores_only_declared_names_witness :
  _arguments (fst (Parse "prog" ["-n=A"; "zz"; "-v"] demo)) !! "-n" = Some "A"
  /\ (forall k, is_Some (_arguments (fst (Parse "prog" ["-n=A"; "zz"; "-v"] demo)) !! k) ->
        exists d, d ∈ _required demo ++ _optional demo /\ (flag d = k \/ alias d = k)).
Proof.
  split; [vm_compute; reflexivity|]. intros k Hk.
  destruct (Parse_stores_only_declared_names "prog" ["-n=A"; "zz"; "-v"] demo
              (fst (Parse "prog" ["-n=A"; "zz"; "-v"] demo))
              (snd (Parse "prog" ["-n=A"; "zz"; "-v"] demo)) eq_refl) as [_ H].
  destruct (H k Hk) as [[x Hx]|Hd]; [|exact Hd].
  exfalso. revert Hx. change (_arguments demo) with (∅ : gmap string string).
  by rewrite lookup_empty.
Defined.

(** Besides the value store and the positional sequence, [Parse] changes
    only [_binary], which becomes [argv[0]]: the declarations, the positional
    count, the usage texts and the toggles are as before. *)
Theorem Parse_changes_store_positionals_and_binary
  (binary : string) (tokens : list string) (a : Args) :
  exists m nf,
    fst (Parse binary tokens a) = set_nonflags nf (set_arguments m (set_binary binary a)).
Proof. exact (Parse_frame binary tokens a). Qed.

(** ** Nothing declared *)

Lemma TryFlagValueSplit_nothing_declared a arg :
  _required a = [] -> _optional a = [] -> TryFlagValueSplit a arg = None.
Proof.
  intros Hr Ho. unfold TryFlagValueSplit, CheckIfValueFlag. rewrite Hr, Ho.
  by destruct (Str.find_first_of "=" arg).
Qed.

Lemma scan_nothing_declared total_flags tokens : forall s,
  _required (sc_args s) = [] -> _optional (sc_args s) = [] ->
  exists d,
    scan total_flags s tokens
    = (mkScan (set_nonflags
                 (_nonflags (sc_args s)
                    ++ List.filter (fun t => negb (String.eqb t "--")) tokens)
                 (sc_args s))
              (flags_encountered s) d, None).
Proof.
  induction tokens as [|t tokens IH]; intros s Hr Ho.
  - exists (delim_encountered s). cbn [scan List.filter].
    rewrite app_nil_r, set_nonflags_id. by destruct s.
  - cbn [scan List.filter]. destruct (String.eqb t "--") eqn:Ht; cbn [negb].
    { destruct (IH (mkScan (sc_args s) (flags_encountered s) true) Hr Ho) as [d Hd].
      exists d. exact Hd. }
    assert (Hstep : exists d,
              scan total_flags
                (mkScan (set_nonflags (_nonflags (sc_args s) ++ [t]) (sc_args s))
                        (flags_encountered s) (delim_encountered s)) tokens
              = (mkScan (set_nonflags
                           (_nonflags (sc_args s)
                              ++ t :: List.filter (fun t => negb (String.eqb t "--")) tokens)
                           (sc_args s))
                        (flags_encountered s) d, None)).
    { destruct (IH (mkScan (set_nonflags (_nonflags (sc_args s) ++ [t]) (sc_args s))
                           (flags_encountered s) (delim_encountered s)))
        as [d Hd]; [by destruct (sc_args s)..|].
      exists d. rewrite Hd. cbn [sc_args flags_encountered].
      rewrite set_nonflags_twice. cbn [_nonflags set_nonflags].
      by rewrite <- app_assoc. }
    destruct (delim_encountered s) eqn:Hde; [exact Hstep|].
    unfold CheckIfNonValueFlag, CheckIfValueFlag. rewrite Hr, Ho. cbn [first_match].
    by rewrite (TryFlagValueSplit_nothing_declared _ _ Hr Ho).
Qed.

(** With no flag declared at all (the built-in help flag included), every
    token but the delimiter is positional and the store is left alone: the
    pass succeeds exactly when the number of such tokens, added to those
    already collected, is the declared positional count; with no count
    declared any such token gives "Unknown arguments". *)
Theorem Parse_nothing_declared (binary : string) (tokens : list string) (a : Args) :
  _required a = [] -> _optional a = [] ->
  let positionals :=
    _nonflags a ++ List.filter (fun t => negb (String.eqb t "--")) tokens in
  Parse binary tokens a
  = (set_nonflags positionals (set_binary binary a),
     CheckNonFlags positionals (_nonflags_required a))
  /\ (_nonflags_required a = 0%N -> positionals <> [] ->
      snd (Parse binary tokens a) = "Unknown arguments").
Proof.
  intros Hr Ho positionals.
  assert (HP : Parse binary tokens a
               = (set_nonflags positionals (set_binary binary a),
                  CheckNonFlags positionals (_nonflags_required a))).
  { unfold Parse. cbn [_required _optional set_binary]. rewrite Hr, Ho.
    destruct (scan_nothing_declared (Z.of_nat (length (@nil Argument) + length (@nil Argument)))
                tokens (mkScan (set_binary binary a) 0 false)) as [d Hd];
      [by destruct a..|].
    rewrite Hd. cbn [sc_args _nonflags set_binary set_nonflags _nonflags_required].
    fold positionals.
    destruct (Str.empty (CheckNonFlags positionals (_nonflags_required a))) eqn:E;
      cbn [negb]; [|done].
    apply Str_empty_spec in E. rewrite E.
    rewrite Validate_eq. cbn [_required _optional set_nonflags set_binary].
    rewrite Hr, Ho. cbn [CheckForValues Str.empty CheckForMissing].
    by destruct a. }
  split; [exact HP|].
  intros H0 Hne. rewrite HP. cbn [snd].
  destruct (CheckNonFlags_cases positionals (_nonflags_required a)) as (_ & Hz & _).
  apply Hz; [|done]. rewrite H0. destruct positionals; [done|]. cbn [length]. lia.
Qed.

Lemma Parse_nothing_declared_witness :
  Parse "prog" ["a"; "--"; "b=c"] Args_default
  = (set_nonflags ["a"; "b=c"] (set_binary "prog" Args_default), "Unknown arguments").
Proof.
  exact (proj1 (Parse_nothing_declared "prog" ["a"; "--"; "b=c"] Args_default
                  eq_refl eq_refl)).
Defined.

(** ** What a successful pass guarantees *)

Lemma CheckForMissing_empty_iff m l :
  CheckForMissing m l = ""
  <-> Forall (fun d => is_Some (m !! flag d) \/ is_Some (m !! alias d)) l.
Proof.
  induction l as [|d l IH]; cbn [CheckForMissing]; [by split; [constructor|]|].
  destruct (m !! flag d) as [x|] eqn:Ef; [|destruct (m !! alias d) as [y|] eqn:Ea].
  - rewrite IH. split; [intros H; constructor; [left; by eexists|done]|].
    intros H. by inversion H.
  - rewrite IH. split; [intros H; constructor; [right; by eexists|done]|].
    intros H. by inversion H.
  - split.
    + intros H. exfalso. revert H. destruct (negb _); by apply append_nonempty.
    + intros H. inversion H as [|? ? [[? ?]|[? ?]] _]; congruence.
Qed.

(** The missing-flag check passes exactly when every checked declaration
    has its flag or its alias in the store; otherwise it names the first
    declaration that has neither. *)
Theorem CheckForMissing_characterised (m : gmap string string) (l : list Argument) :
  (CheckForMissing m l = ""
   <-> Forall (fun d => is_Some (m !! flag d) \/ is_Some (m !! alias d)) l)
  /\ (forall l1 d l2, l = l1 ++ d :: l2 ->
        Forall (fun d => is_Some (m !! flag d) \/ is_Some (m !! alias d)) l1 ->
        m !! flag d = None -> m !! alias d = None ->
        CheckForMissing m l = "Must specify " +:+ name_of d).
Proof.
  split; [apply CheckForMissing_empty_iff|].
  intros l1 d l2 -> Hl1 Hf Ha.
  apply CheckForMissing_first; [by apply CheckForMissing_empty_iff|done|done].
Qed.

Lemma CheckForMissing_characterised_witness :
  CheckForMissing {[ "-n" := "x" ]} (_required two_required ++ _required demo)
  = "Must specify --a".
Proof.
  refine (proj2 (CheckForMissing_characterised
                   ({[ "-n" := "x" ]} : gmap string string)
                   (_required two_required ++ _required demo))
            [] (Argument4 "--a" "" "first" false)
            [Argument4 "--b" "" "second" false; Argument5 "--name" "-n" "Name" true ""]
            eq_refl _ eq_refl eq_refl).
  constructor.
Defined.

(** After a successful pass the positional sequence has exactly the declared
    length and every required declaration has its flag or its alias in the
    value store. *)
Theorem Parse_success_guarantees
  (binary : string) (tokens : list string) (a a' : Args) :
  Parse binary tokens a = (a', "") ->
  N.of_nat (length (_nonflags a')) = _nonflags_required a
  /\ Forall (fun d => is_Some (_arguments a' !! flag d)
                      \/ is_Some (_arguments a' !! alias d)) (_required a).
Proof.
  intros HP.
  destruct (Parse_cases binary tokens a) as (s & r & Hscan & Hreq & _ & _ & HP').
  rewrite HP in HP'. destruct r as [err|].
  { inversion HP'; subst. by apply scan_error_nonempty in Hscan. }
  destruct (Str.empty (CheckNonFlags _ _)) eqn:E; cbn [negb] in HP'.
  2:{ inversion HP' as [[Ha Hd]]. rewrite <- Hd in E. discriminate E. }
  symmetry in HP'. destruct (Validate_success_runs _ _ HP') as (m1 & _ & _ & Hmiss & Ha').
  split.
  - apply Str_empty_spec in E.
    assert (Hnf : _nonflags a' = _nonflags (sc_args s)).
    { rewrite Ha'. by destruct (sc_args s). }
    rewrite Hnf.
    destruct (N.eq_dec (N.of_nat (length (_nonflags (sc_args s))))
                       (_nonflags_required a)) as [|Hne]; [done|].
    destruct (CheckNonFlags_cases (_nonflags (sc_args s)) (_nonflags_required a))
      as (_ & Hz & Hnz).
    destruct (N.eq_dec (_nonflags_required a) 0%N) as [H0|H0];
      [rewrite (Hz Hne H0) in E | rewrite (Hnz Hne H0) in E]; discriminate E.
  - rewrite Hreq in Hmiss. by apply CheckForMissing_empty_iff.
Qed.

Lemma Parse_success_guarantees_witness :
  N.of_nat (length (_nonflags (fst (Parse "prog" ["-n"; "x"; "a"; "b"] two_values)))) = 2%N.
Proof.
  exact (proj1 (Parse_success_guarantees "prog" ["-n"; "x"; "a"; "b"] two_values
                  (fst (Parse "prog" ["-n"; "x"; "a"; "b"] two_values)) eq_refl)).
Defined.

Lemma CheckForValues_step_primary_value m d m' :
  alias d <> "" -> value d = true ->
  CheckForValues_step m d = inr m' -> primary_value_given d m'.
Proof.
  intros Hal Hv. unfold CheckForValues_step, primary_value_given.
  assert (Hne : negb (Str.empty (alias d)) = true).
  { destruct (alias d); [done|reflexivity]. }
  rewrite Hne, Hv. cbn [andb]. destruct (m !! flag d) as [x|] eqn:Hf.
  - destruct (Str.empty x) eqn:Ex; [discriminate|].
    intros H; inversion H; subst. intros y. rewrite lookup_insert.
    case_decide; [|rewrite Hf]; intros [= <-] ->; discriminate Ex.
  - destruct (m !! alias d) as [y|] eqn:Ha; [|intros H; inversion H; subst; congruence].
    destruct (Str.empty y) eqn:Ey; cbn [negb]; [intros H; inversion H; subst; congruence|].
    intros H; inversion H; subst. intros z. rewrite lookup_insert_eq.
    intros [= <-] ->. discriminate Ey.
Qed.

Lemma values_run_primary_value d m l m' :
  values_run m l m' -> names_unique_for d l -> alias d <> "" -> value d = true ->
  d ∈ l \/ primary_value_given d m -> primary_value_given d m'.
Proof.
  induction 1 as [m|m d' m1 l m' Hs Hr IH]; intros Hu Hal Hv Hd.
  - destruct Hd as [Hd|Hd]; [by apply elem_of_nil in Hd|done].
  - inversion Hu as [|? ? Hd' Hl]; subst. apply IH; [done|done|done|].
    destruct Hd' as [->|Hav].
    + right. by eapply CheckForValues_step_primary_value.
    + destruct Hd as [Hd|Hd].
      * apply elem_of_cons in Hd as [->|Hd]; [|by left]. exfalso. tauto.
      * right. unfold primary_value_given.
        assert (Hw : ~ writes_to d' (flag d)) by (unfold writes_to; tauto).
        by rewrite (CheckForValues_step_other _ _ _ _ Hs Hw).
Qed.

(** After a successful pass, a value flag with an alias, whose spellings no
    other declaration uses, never holds an empty value under its primary
    spelling: an empty value there makes the value check fail. *)
Theorem Parse_success_primary_value_not_empty
  (binary : string) (tokens : list string) (a a' : Args) (d : Argument) (x : string) :
  Parse binary tokens a = (a', "") ->
  d ∈ _required a ++ _optional a ->
  value d = true -> alias d <> "" ->
  names_unique_for d (_required a ++ _optional a) ->
  _arguments a' !! flag d = Some x ->
  x <> "".
Proof.
  intros HP Hin Hv Hal Hu.
  destruct (Parse_success _ _ _ _ HP) as (s & _ & HV & Hreq & Hopt).
  destruct (Validate_success_runs _ _ HV) as (m1 & Hr1 & Hr2 & _ & _).
  rewrite Hreq in Hr1. rewrite Hopt in Hr2.
  apply Forall_app in Hu as [Hur Huo].
  assert (Hb : primary_value_given d (_arguments a')).
  { apply (values_run_primary_value d _ _ _ Hr2 Huo Hal Hv).
    apply elem_of_app in Hin as [Hin|Hin]; [right|by left].
    apply (values_run_primary_value d _ _ _ Hr1 Hur Hal Hv). by left. }
  apply Hb.
Qed.

Lemma Parse_success_primary_value_not_empty_witness :
  snd (Parse "prog" ["-n"; "Alice"; "-v"] demo) = ""
  /\ _arguments (fst (Parse "prog" ["-n"; "Alice"; "-v"] demo)) !! "--name" = Some "Alice"
  /\ "Alice" <> "".
Proof.
  split; [vm_compute; reflexivity|]. split; [vm_compute; reflexivity|].
  pose (d := Argument5 "--name" "-n" "Name" true "").
  assert (Hin : d ∈ _required demo ++ _optional demo) by (cbn; apply list_elem_of_here).
  assert (Hu : names_unique_for d (_required demo ++ _optional demo)).
  { cbn. apply Forall_cons; split; [by left|].
    apply Forall_cons; split; [|by apply Forall_nil].
    right. cbn. repeat split; discriminate. }
  exact (Parse_success_primary_value_not_empty "prog" ["-n"; "Alice"; "-v"] demo
           (fst (Parse "prog" ["-n"; "Alice"; "-v"] demo)) d "Alice"
           eq_refl Hin eq_refl ltac:(discriminate) Hu eq_refl).
Defined.

(** ** Presence *)

Lemma FindAlternative_in_undeclared f l :
  Forall (fun d => flag d <> f /\ alias d <> f) l -> FindAlternative_in f l = None.
Proof.
  induction 1 as [|d l [Hf Ha] _ IH]; cbn [FindAlternative_in]; [done|].
  apply String.eqb_neq in Hf, Ha. by rewrite Hf, Ha.
Qed.

(** For a name that no declaration spells, [FindAlternative] gives the
    empty string, so [Has] answers true when the name itself is a key of the
    store and also whenever the empty string is one. *)
Theorem Has_undeclared_name (a : Args) (f : string) :
  Forall (fun d => flag d <> f /\ alias d <> f) (_required a ++ _optional a) ->
  FindAlternative a f = ""
  /\ (Has a f = true
      <-> is_Some (_arguments a !! f) \/ is_Some (_arguments a !! "")).
Proof.
  intros H.
  assert (HF : FindAlternative a f = "").
  { by rewrite FindAlternative_eq, FindAlternative_in_undeclared. }
  split; [done|]. by rewrite Has_spec, HF.
Qed.

Lemma Has_undeclared_name_witness :
  Has level_by_default "--bogus" = true.
Proof.
  apply (proj2 (Has_undeclared_name level_by_default "--bogus"
                  ltac:(cbn; repeat constructor; discriminate))).
  right. by eexists.
Defined.

(** After a successful pass, [Has] is true for both spellings of every
    required declaration whose spellings no other declaration uses. *)
Theorem Has_required_after_success
  (binary : string) (tokens : list string) (a a' : Args) (d : Argument) :
  Parse binary tokens a = (a', "") ->
  d ∈ _required a ->
  names_unique_for d (_required a ++ _optional a) ->
  Has a' (flag d) = true /\ Has a' (alias d) = true.
Proof.
  intros HP Hin Hu.
  destruct (Parse_success _ _ _ _ HP) as (s & _ & HV & Hreq & Hopt).
  destruct (Validate_success_runs _ _ HV) as (m1 & _ & _ & Hmiss & Ha').
  assert (Hreg : _required a' ++ _optional a' = _required a ++ _optional a).
  { rewrite Ha'. cbn [_required _optional set_arguments]. by rewrite Hreq, Hopt. }
  rewrite Hreq in Hmiss.
  assert (Hhere : is_Some (_arguments a' !! flag d) \/ is_Some (_arguments a' !! alias d)).
  { pose proof (proj1 (CheckForMissing_empty_iff _ _) Hmiss) as HF.
    rewrite Forall_forall in HF. by apply HF. }
  destruct (FindAlternative_in_unique d (_required a ++ _optional a)) as [Hfa Haf];
    [apply elem_of_app; by left|done|].
  rewrite !Has_spec, !FindAlternative_eq, Hreg, Hfa, Haf. cbn [default]. tauto.
Qed.

Lemma Has_required_after_success_witness :
  Has (fst (Parse "prog" ["-n"; "Alice"] demo)) "--name" = true.
Proof.
  pose (d := Argument5 "--name" "-n" "Name" true "").
  assert (Hin : d ∈ _required demo) by (cbn; apply list_elem_of_here).
  assert (Hu : names_unique_for d (_required demo ++ _optional demo)).
  { cbn. apply Forall_cons; split; [by left|].
    apply Forall_cons; split; [|by apply Forall_nil].
    right. cbn. repeat split; discriminate. }
  exact (proj1 (Has_required_after_success "prog" ["-n"; "Alice"] demo
                  (fst (Parse "prog" ["-n"; "Alice"] demo)) d eq_refl Hin Hu)).
Defined.

(** ** More on the default-value backfill *)

Lemma AddFallbackValues_store_only a :
  AddFallbackValues a = set_arguments (_arguments (AddFallbackValues a)) a.
Proof. by destruct a. Qed.

Lemma first_fallback_present k l :
  (exists d, d ∈ l /\ (flag d = k \/ alias d = k) /\ fallback d <> "") ->
  is_Some (first_fallback k l).
Proof.
  induction l as [|d' l IH]; intros (d & Hin & Hs & Hfb); [by apply elem_of_nil in Hin|].
  cbn [first_fallback]. destruct (_ && _) eqn:E; [by eexists|].
  apply IH. exists d. split; [|done].
  apply elem_of_cons in Hin as [->|Hin]; [|done]. exfalso.
  apply andb_false_iff in E as [E|E].
  - apply orb_false_iff in E as [E1 E2]. apply String.eqb_neq in E1, E2. tauto.
  - destruct (fallback d'); [done|discriminate E].
Qed.

Lemma first_fallback_unique d l :
  d ∈ l -> names_unique_for d l -> fallback d <> "" ->
  first_fallback (flag d) l = Some (fallback d)
  /\ first_fallback (alias d) l = Some (fallback d).
Proof.
  induction l as [|d' l IH]; intros Hin Hu Hfb; [by apply elem_of_nil in Hin|].
  inversion Hu as [|? ? Hd' Hl]; subst. cbn [first_fallback].
  assert (Hne : negb (Str.empty (fallback d)) = true).
  { destruct (fallback d); [done|reflexivity]. }
  destruct Hd' as [->|(H1 & H2 & H3 & H4)].
  - by rewrite !String.eqb_refl, orb_true_r, Hne.
  - apply String.eqb_neq in H1, H2, H3, H4. rewrite H1, H2, H3, H4. cbn [orb andb].
    apply IH; [|done|done]. apply elem_of_cons in Hin as [->|Hin]; [|done].
    by rewrite String.eqb_refl in H1.
Qed.

(** The backfill never overwrites a stored value, and running it a second
    time changes nothing. *)
Theorem AddFallbackValues_idempotent (a : Args) :
  (forall k v, _arguments a !! k = Some v ->
     _arguments (AddFallbackValues a) !! k = Some v)
  /\ AddFallbackValues (AddFallbackValues a) = AddFallbackValues a.
Proof.
  split.
  - intros k v Hk. by rewrite AddFallbackValues_lookup, Hk.
  - assert (HM : _arguments (AddFallbackValues (AddFallbackValues a))
                 = _arguments (AddFallbackValues a)).
    { apply map_eq. intros k. rewrite (AddFallbackValues_lookup (AddFallbackValues a)).
      destruct (_arguments (AddFallbackValues a) !! k) as [v|] eqn:E; [done|].
      rewrite AddFallbackValues_lookup in E.
      assert (Hreg : _optional (AddFallbackValues a) ++ _required (AddFallbackValues a)
                     = _optional a ++ _required a) by by destruct a.
      rewrite Hreg. by destruct (_arguments a !! k). }
    rewrite (AddFallbackValues_store_only (AddFallbackValues a)), HM.
    by destruct a.
Qed.

(** After the backfill both spellings of every declaration with a non-empty
    fallback are stored (the empty alias included); a declaration whose
    spellings no other declaration uses and neither of which was stored gets
    its own fallback under both. *)
Theorem AddFallbackValues_fills_both_spellings (a : Args) (d : Argument) :
  d ∈ _required a ++ _optional a ->
  fallback d <> "" ->
  (is_Some (_arguments (AddFallbackValues a) !! flag d)
   /\ is_Some (_arguments (AddFallbackValues a) !! alias d))
  /\ (names_unique_for d (_required a ++ _optional a) ->
      _arguments a !! flag d = None -> _arguments a !! alias d = None ->
      _arguments (AddFallbackValues a) !! flag d = Some (fallback d)
      /\ _arguments (AddFallbackValues a) !! alias d = Some (fallback d)).
Proof.
  intros Hin Hfb.
  assert (Hin' : d ∈ _optional a ++ _required a).
  { apply elem_of_app. apply elem_of_app in Hin. tauto. }
  split.
  - rewrite !AddFallbackValues_lookup.
    split; (destruct (_arguments a !! _); [by eexists|]);
      apply first_fallback_present; exists d; auto.
  - intros Hu Hf Ha. rewrite !AddFallbackValues_lookup, Hf, Ha.
    apply first_fallback_unique; [done| |done].
    unfold names_unique_for in *. apply Forall_app. apply Forall_app in Hu. tauto.
Qed.

Lemma AddFallbackValues_fills_both_spellings_witness :
  let a := fst (Parse "prog" ["-n"; "x"; "a"; "b"] two_values) in
  _arguments (AddFallbackValues a) !! "--num" = Some "5"
  /\ _arguments (AddFallbackValues a) !! "-k" = Some "5".
Proof.
  intros a. pose (d := Argument5 "--num" "-k" "Count" true "5").
  assert (Hin : d ∈ _required a ++ _optional a).
  { cbn. apply list_elem_of_further, list_elem_of_here. }
  assert (Hu : names_unique_for d (_required a ++ _optional a)).
  { cbn. apply Forall_cons; split; [|apply Forall_cons; split; [by left|by apply Forall_nil]].
    right. cbn. repeat split; discriminate. }
  exact (proj2 (AddFallbackValues_fills_both_spellings a d Hin ltac:(discriminate))
           Hu eq_refl eq_refl).
Defined.

(** When [Initialize] returns, a flag declared with a default and not given
    on the command line reads as its default through [GetAsString], under
    the flag and under the alias, provided no other declaration uses its
    spellings. *)
Theorem Initialize_default_is_readable
  (fuel : nat) (binary : string) (tokens : list string) (a a' : Args)
  (cout : string) (d : Argument) :
  Initialize fuel binary tokens a = Done (Returned a' cout) ->
  d ∈ _required (with_help a) ++ _optional (with_help a) ->
  fallback d <> "" ->
  names_unique_for d (_required (with_help a) ++ _optional (with_help a)) ->
  _arguments (fst (Parse binary tokens (with_help a))) !! flag d = None ->
  _arguments (fst (Parse binary tokens (with_help a))) !! alias d = None ->
  (flag d <> "" -> GetAsString a' (flag d) = Value (fallback d))
  /\ (alias d <> "" -> GetAsString a' (alias d) = Value (fallback d)).
Proof.
  intros Hi Hin Hfb Hu Hf Ha.
  destruct (Parse binary tokens (with_help a)) as [a1 diag] eqn:HP. cbn [fst] in Hf, Ha.
  pose proof (Parse_frame binary tokens (with_help a)) as Hfr.
  rewrite HP in Hfr. cbn [fst] in Hfr. apply frame_fields in Hfr as (Hr1 & Ho1 & _).
  cbn [_required _optional set_binary] in Hr1, Ho1.
  destruct (Initialize_after_parse _ _ _ _ _ _ _ HP Hi)
    as (a2 & _ & Hm & Hr & Ho & -> & _).
  assert (Hreg : _required a2 ++ _optional a2
                 = _required (with_help a) ++ _optional (with_help a)).
  { by rewrite Hr, Ho, Hr1, Ho1. }
  assert (Hst : _arguments (AddFallbackValues a2) !! flag d = Some (fallback d)
                /\ _arguments (AddFallbackValues a2) !! alias d = Some (fallback d)).
  { rewrite !AddFallbackValues_lookup, Hm, Hf, Ha.
    apply first_fallback_unique; [| |done].
    - rewrite Hr, Ho, Hr1, Ho1. apply elem_of_app. apply elem_of_app in Hin. tauto.
    - rewrite Hr, Ho, Hr1, Ho1. unfold names_unique_for in *.
      apply Forall_app. apply Forall_app in Hu. tauto. }
  destruct Hst as [Hsf Hsa]. unfold GetAsString, GetAsString_into.
  split; intros Hne.
  - destruct (flag d); [done|]. cbn [Str.empty]. by rewrite Hsf.
  - destruct (alias d); [done|]. cbn [Str.empty]. by rewrite Hsa.
Qed.

Lemma Initialize_default_is_readable_witness :
  exists a' cout,
    Initialize 10 "prog" ["-n"; "x"; "a"; "b"] two_values = Done (Returned a' cout)
    /\ GetAsString a' "--num" = Value "5"
    /\ GetAsString a' "-k" = Value "5".
Proof.
  destruct (Initialize 10 "prog" ["-n"; "x"; "a"; "b"] two_values)
    as [[a' cout|code a' cout]| |] eqn:Hi;
    [|vm_compute in Hi; discriminate Hi..].
  exists a', cout. split; [reflexivity|].
  pose (d := Argument5 "--num" "-k" "Count" true "5").
  assert (Hin : d ∈ _required (with_help two_values) ++ _optional (with_help two_values)).
  { cbn. apply list_elem_of_further, list_elem_of_here. }
  assert (Hu : names_unique_for d
                 (_required (with_help two_values) ++ _optional (with_help two_values))).
  { cbn. apply Forall_cons; split; [|apply Forall_cons; split; [by left|by apply Forall_nil]].
    right. cbn. repeat split; discriminate. }
  destruct (Initialize_default_is_readable 10 "prog" ["-n"; "x"; "a"; "b"] two_values
              a' cout d Hi Hin ltac:(discriminate) Hu
              ltac:(vm_compute; reflexivity) ltac:(vm_compute; reflexivity)) as [H1 H2].
  split; [apply H1|apply H2]; discriminate.
Defined.

(** ** Positional access *)

Lemma filter_not_delimiter_id post :
  Forall (fun t => t <> "--") post ->
  List.filter (fun t => negb (String.eqb t "--")) post = post.
Proof.
  induction 1 as [|t post Ht _ IH]; cbn [List.filter]; [done|].
  apply String.eqb_neq in Ht. rewrite Ht. cbn [negb]. by rewrite IH.
Qed.

(** On a fresh object, the tokens that follow the delimiter are the
    positional sequence, whatever they look like: [GetNonFlag(i)] is the
    i-th of them, and it throws for every index from their number up. *)
Theorem positionals_after_delimiter
  (binary : string) (post : list string) (a : Args) (i : N) :
  _nonflags a = [] ->
  Forall (fun t => t <> "--") post ->
  let a' := fst (Parse binary ("--" :: post) a) in
  GetNonFlags a' = post
  /\ GetNonFlag a' i = post !! N.to_nat i
  /\ ((N.of_nat (length post) <= i)%N -> GetNonFlag a' i = None).
Proof.
  intros Hnf Hpost a'.
  assert (Hget : GetNonFlags a' = post).
  { unfold GetNonFlags, a'.
    destruct (Parse_cases binary ("--" :: post) a) as (s & r & Hscan & _ & _ & _ & HP).
    cbn [scan] in Hscan. rewrite String.eqb_refl in Hscan.
    rewrite scan_in_positional_only in Hscan by reflexivity.
    inversion Hscan; subst s r. clear Hscan.
    unfold positional_rest in HP. cbn [sc_args _nonflags set_binary] in HP.
    rewrite Hnf, (filter_not_delimiter_id _ Hpost) in HP. cbn [app] in HP.
    rewrite HP. destruct (negb _); [by destruct a|].
    destruct (Validate_store_only (set_nonflags post (set_binary binary a))) as [m ->].
    by destruct a. }
  split; [exact Hget|]. unfold GetNonFlag. fold (GetNonFlags a'). rewrite Hget.
  split; [done|]. intros Hi. apply lookup_ge_None. lia.
Qed.

Lemma positionals_after_delimiter_witness :
  GetNonFlag (fst (Parse "prog" ["--"; "-n"; "x=y"] demo)) 1 = Some "x=y"
  /\ GetNonFlag (fst (Parse "prog" ["--"; "-n"; "x=y"] demo)) 2 = None.
Proof.
  destruct (positionals_after_delimiter "prog" ["-n"; "x=y"] demo 1 eq_refl
              ltac:(repeat constructor; discriminate)) as (_ & H1 & _).
  destruct (positionals_after_delimiter "prog" ["-n"; "x=y"] demo 2 eq_refl
              ltac:(repeat constructor; discriminate)) as (_ & _ & H2).
  split; [exact H1|apply H2; vm_compute; discriminate].
Defined.

(** ** The shape of a wrapped description *)



Lemma size_take s : forall n, (Str.size (take s n) <= n)%N /\ (Str.size (take s n) <= Str.size s)%N.
Proof.
  induction s as [|c s IH]; intros n; cbn [take]; [unfold Str.size; simpl; lia|].
  destruct (N.eqb_spec n 0) as [->|Hn]; [rewrite size_String; unfold Str.size; simpl; lia|].
  rewrite !size_String. destruct (IH (N.pred n)). lia.
Qed.

Lemma walk_back_le fuel s : forall location L,
  walk_back fuel s location = Done L -> (L <= location)%N.
Proof.
  induction fuel as [|fuel IH]; intros location L H; [discriminate H|].
  cbn [walk_back] in H. destruct (at_ s location) as [c| |]; try discriminate H.
  cbn [mbind result_mbind result_bind] in H.
  destruct (isalpha c && (0 <? location)%N).
  - apply IH in H. lia.
  - inversion H. lia.
Qed.

Lemma DetermineNumCharsToWrite_le fuel w rest tw :
  (1 <= w < 2 ^ 32)%N ->
  DetermineNumCharsToWrite fuel w rest = Done tw -> (1 <= tw <= w)%N.
Proof.
  intros Hw. unfold DetermineNumCharsToWrite. rewrite width_minus_one by done.
  destruct (walk_back fuel rest (w - 1)%N) as [L| |] eqn:E; try discriminate.
  apply walk_back_le in E. cbn [mbind result_mbind result_bind].
  destruct (N.eqb_spec L 0).
  - destruct (at_ rest L) as [c| |]; try discriminate.
    cbn [mbind result_mbind result_bind].
    destruct (isalpha c); intros [= <-]; lia.
  - intros [= <-]. lia.
Qed.

Lemma wrap_lines_segments inner start w desc :
  (1 <= w < 2 ^ 32)%N ->
  forall fuel stream count st c',
    wrap_lines inner fuel start w desc stream count = Done (st, c') ->
    (Str.size desc - w <= c')%N
    /\ exists segs,
         st = stream +:+ concat_items (map (wrapped_line start) segs)
         /\ Forall (fun seg => (Str.size seg <= w)%N) segs.
Proof.
  intros Hw. induction fuel as [|fuel IH]; intros stream count st c' H; [discriminate H|].
  cbn [wrap_lines] in H.
  destruct (N.ltb_spec count (Str.size desc - w)) as [Hlt|Hge].
  2:{ inversion H; subst. split; [done|]. exists []. cbn [map concat_items].
      by rewrite append_empty_r. }
  destruct (substr desc count None) as [rest| |]; try discriminate H.
  cbn [mbind result_mbind result_bind] in H.
  destruct (DetermineNumCharsToWrite inner w rest) as [tw| |] eqn:Etw; try discriminate H.
  cbn [mbind result_mbind result_bind] in H.
  destruct (skip_blanks inner w desc count 0) as [sk| |]; try discriminate H.
  cbn [mbind result_mbind result_bind] in H.
  destruct (sk =? w)%N; [exact (IH _ _ _ _ H)|].
  unfold substr in H. destruct (Str.size desc <? count + sk)%N; [discriminate H|].
  cbn [mbind result_mbind result_bind] in H.
  destruct (IH _ _ _ _ H) as (Hend & segs & -> & Hsegs).
  split; [done|]. exists (take (drop desc (count + sk)) tw :: segs).
  split.
  - cbn [map concat_items]. unfold wrapped_line at 2. by rewrite !append_assoc.
  - constructor; [|done]. apply DetermineNumCharsToWrite_le in Etw; [|done].
    destruct (size_take (drop desc (count + sk)) tw). lia.
Qed.

(** No line of a wrapped description is longer than the wrap width: the
    text returned is a sequence of segments of at most [_desc_width]
    characters, each followed by a line feed and [_desc_start] blanks, and
    then a last segment of at most [_desc_width] characters. *)
Theorem FormatDescription_lines_fit
  (fuel : nat) (desc_start desc_width : N) (description text : string) :
  (1 <= desc_width < 2 ^ 32)%N ->
  FormatDescription fuel desc_start desc_width description = Done text ->
  exists segments tail,
    text = concat_items (map (wrapped_line desc_start) segments) +:+ tail
    /\ Forall (fun seg => (Str.size seg <= desc_width)%N) segments
    /\ (Str.size tail <= desc_width)%N.
Proof.
  intros Hw. unfold FormatDescription.
  destruct (N.leb_spec (Str.size description) desc_width) as [Hsm|Hsz].
  { intros [= <-]. exists [], description. by repeat split. }
  destruct (wrap_lines fuel fuel desc_start desc_width description "" 0)
    as [[st c']| |] eqn:Hrun; try discriminate.
  cbn [mbind result_mbind result_bind fst snd].
  destruct (wrap_lines_segments _ _ _ _ Hw _ _ _ _ _ Hrun) as (Hend & segs & -> & Hsegs).
  cbn [String.append]. unfold last_line.
  destruct (skip_last fuel desc_width description c' 0) as [sk| |]; try discriminate.
  cbn [mbind result_mbind result_bind].
  destruct (negb (sk =? desc_width)%N).
  - unfold write_tail. destruct (at_ description (c' + sk)) as [c| |]; try discriminate.
    cbn [mbind result_mbind result_bind].
    destruct (_ <? _)%N; [|discriminate]. intros [= <-].
    eexists segs, _. split; [reflexivity|]. split; [done|].
    match goal with |- (Str.size (take ?s ?n) <= _)%N => destruct (size_take s n) as [_ Hs] end.
    rewrite size_drop in Hs. lia.
  - intros [= <-]. exists segs, "". rewrite append_empty_r.
    split; [done|]. split; [done|]. unfold Str.size. simpl. lia.
Qed.

Lemma FormatDescription_lines_fit_witness :
  exists segments tail,
    "Print " +:+ nl +:+ "  usage and " +:+ nl +:+ "  options " +:+ nl
      +:+ "  informatio" +:+ nl +:+ "  n"
    = concat_items (map (wrapped_line 2) segments) +:+ tail
    /\ Forall (fun seg => (Str.size seg <= 10)%N) segments
    /\ (Str.size tail <= 10)%N.
Proof.
  apply (FormatDescription_lines_fit 100 2 10 "Print usage and options information").
  - vm_compute. split; [discriminate|reflexivity].
  - vm_compute. reflexivity.
Defined.

(** ** The flag-description block *)

Lemma FormatDescription_short fuel start w description :
  (Str.size description <= w)%N ->
  FormatDescription fuel start w description = Done description.
Proof.
  intros H. unfold FormatDescription.
  by destruct (N.leb_spec (Str.size description) w); [|lia].
Qed.



(** ** [Initialize] stops *)

Lemma at_never_out_of_fuel s i : at_ s i <> OutOfFuel.
Proof. unfold at_. destruct (get s i); [done|]. by destruct (_ =? _)%N. Qed.

Lemma FormatDescription_stops fuel start w description :
  (1 <= w < 2 ^ 32)%N ->
  (N.to_nat (Str.size description + w) < fuel)%nat ->
  FormatDescription fuel start w description <> OutOfFuel.
Proof.
  intros Hw Hf.
  destruct (N.le_gt_cases (Str.size description) w) as [Hsm|Hsz].
  { by rewrite FormatDescription_short. }
  destruct (wrap_lines_spec fuel start w description Hw ltac:(lia) fuel "" 0%N ltac:(lia))
    as (st & c' & Hrun & _).
  unfold FormatDescription.
  destruct (N.leb_spec (Str.size description) w); [lia|]. rewrite Hrun.
  cbn [mbind result_mbind result_bind fst snd]. unfold last_line.
  destruct (skip_last_never_iterates _ _ _ _ _ _ Hw Hf Hsz Hrun) as [[-> _]|[-> _]];
    [done|].
  cbn [mbind result_mbind result_bind].
  destruct (negb _); [|done]. unfold write_tail.
  destruct (at_ description (c' + 0)) eqn:E;
    [|done|by apply at_never_out_of_fuel in E].
  cbn [mbind result_mbind result_bind]. by destruct (_ <? _)%N.
Qed.

Lemma longest_description_bound l d :
  d ∈ l -> (Str.size (description d) <= longest_description l)%N.
Proof.
  induction l as [|d' l IH]; intros Hin; [by apply elem_of_nil in Hin|].
  cbn [longest_description fold_right].
  apply elem_of_cons in Hin as [->|Hin]; [lia|].
  specialize (IH Hin). unfold longest_description in IH. lia.
Qed.

Lemma GenerateArgumentUsage_stops fuel start w l : forall output,
  (forall d, d ∈ l -> FormatDescription fuel start w (description d) <> OutOfFuel) ->
  GenerateArgumentUsage fuel start w l output <> OutOfFuel.
Proof.
  induction l as [|d l IH]; intros output H; cbn [GenerateArgumentUsage]; [done|].
  destruct (FormatDescription fuel start w (description d)) as [text| |] eqn:E.
  - cbn [mbind result_mbind result_bind]. apply IH.
    intros d' Hd'. apply H. by apply list_elem_of_further.
  - done.
  - exfalso. by apply (H d (list_elem_of_here _ _)).
Qed.

(** With a wrap width of at least 1, [Initialize] comes to an end on every
    command line once the iteration bound exceeds the wrap width plus the
    size of the longest description: it returns, exits, or stops at an
    out-of-range character read of the description wrapper. *)
Theorem Initialize_stops
  (fuel : nat) (binary : string) (tokens : list string) (a : Args) :
  (1 <= _desc_width a < 2 ^ 32)%N ->
  (N.to_nat (longest_description (_required (with_help a) ++ _optional (with_help a))
             + _desc_width a) < fuel)%nat ->
  Initialize fuel binary tokens a <> OutOfFuel.
Proof.
  intros Hw Hf. unfold Initialize. cbv zeta.
  destruct (Parse binary tokens (with_help a)) as [a1 diag] eqn:HP.
  pose proof (Parse_frame binary tokens (with_help a)) as (m & nf & Hfr).
  rewrite HP in Hfr. cbn [fst] in Hfr.
  assert (Hfields : _required a1 = _required (with_help a)
                    /\ _optional a1 = _optional (with_help a)
                    /\ _desc_width a1 = _desc_width a
                    /\ _desc_start a1 = _desc_start a).
  { rewrite Hfr. unfold with_help. by destruct a as [? ? ? ? ? ? ? ? ? []]. }
  destruct Hfields as (Hr & Ho & Hdw & Hds).
  assert (Hfmt : forall d, d ∈ _required a1 ++ _optional a1 ->
            FormatDescription fuel (_desc_start a1) (_desc_width a1) (description d)
            <> OutOfFuel).
  { intros d Hd. rewrite Hdw. apply FormatDescription_stops; [done|].
    rewrite Hr, Ho in Hd. pose proof (longest_description_bound _ _ Hd). lia. }
  assert (HG : GenerateUsage fuel a1 <> OutOfFuel).
  { unfold GenerateUsage, flag_description_text.
    destruct (GenerateArgumentUsage fuel (_desc_start a1) (_desc_width a1) (_required a1) "")
      as [req| |] eqn:E1; [|done|].
    2:{ exfalso. revert E1. apply GenerateArgumentUsage_stops.
        intros d Hd. apply Hfmt, elem_of_app. by left. }
    cbn [mbind result_mbind result_bind].
    destruct (GenerateArgumentUsage fuel (_desc_start a1) (_desc_width a1) (_optional a1) "")
      as [opt| |] eqn:E2; [done|done|].
    exfalso. revert E2. apply GenerateArgumentUsage_stops.
    intros d Hd. apply Hfmt, elem_of_app. by right. }
  destruct (GenerateUsage fuel a1) as [a2| |]; [|done|done].
  cbn [mbind result_mbind result_bind].
  destruct (_ || _); [destruct (_exit_enabled a2)|]; done.
Qed.

Lemma Initialize_stops_witness :
  Initialize 60 "prog" ["-n"; "x"; "a"; "b"] two_values <> OutOfFuel.
Proof.
  apply Initialize_stops.
  - vm_compute. split; [discriminate|reflexivity].
  - vm_compute. lia.
Defined.

(** ** Decimal text through the numeric accessors *)

Lemma digits_step base c s acc d :
  digit_value c = Some d -> (d <? base)%N = true ->
  digits base (String c s) acc = digits base s (acc * base + d)%N.
Proof. intros Hd Hb. cbn [digits]. by rewrite Hd, Hb. Qed.

Lemma digits_of_uint_acc l : forall acc,
  digits 10 (NilEmpty.string_of_uint l) (N.pos acc) = N.pos (Pos.of_uint_acc l acc).
Proof.
  induction l as [|l IH|l IH|l IH|l IH|l IH|l IH|l IH|l IH|l IH|l IH]; intros acc;
    cbn [NilEmpty.string_of_uint Pos.of_uint_acc]; [reflexivity|..];
    (erewrite digits_step; [|reflexivity|reflexivity]);
    rewrite <- IH; f_equal;
    match goal with
    | |- context [(N_of_ascii ?c - 48)%N] =>
        let v := eval vm_compute in (N_of_ascii c - 48)%N in
        change (N_of_ascii c - 48)%N with v
    end; lia.
Qed.

(** The text of a number other than zero starts with a digit from 1 to 9
    and reads back, in base 10, as the number. *)
Lemma to_string_positive p :
  exists c s,
    Str.to_string (N.pos p) = String c s
    /\ In c ["1"; "2"; "3"; "4"; "5"; "6"; "7"; "8"; "9"]%char
    /\ digits 10 (String c s) 0 = N.pos p.
Proof.
  unfold Str.to_string. cbn [N.to_uint].
  pose proof (DecimalPos.Unsigned.of_to p) as Hof.
  pose proof (DecimalPos.Unsigned.to_of (Pos.to_uint p)) as Hto.
  rewrite Hof in Hto. cbn [N.to_uint] in Hto.
  pose proof (DecimalPos.Unsigned.to_uint_nonzero p) as Hnz.
  destruct (Pos.to_uint p) as [|l|l|l|l|l|l|l|l|l|l] eqn:E.
  - by destruct (DecimalPos.Unsigned.to_uint_nonnil p).
  - exfalso. rewrite DecimalFacts.unorm_D0 in Hto.
    destruct l as [|l|l|l|l|l|l|l|l|l|l]; [by apply Hnz| |discriminate Hto..].
    rewrite DecimalFacts.unorm_D0 in Hto.
    pose proof (DecimalFacts.nb_digits_unorm l) as Hn.
    assert (Hlen : Decimal.nb_digits (Decimal.unorm l) = S (S (Decimal.nb_digits l))).
    { rewrite <- Hto. reflexivity. }
    destruct l; [discriminate Hto|..];
      (specialize (Hn ltac:(discriminate)); lia).
  - exists "1"%char, (NilEmpty.string_of_uint l).
    split; [reflexivity|]. split; [cbn; tauto|].
    rewrite (digits_step 10 "1" _ 0 1 eq_refl eq_refl).
    change (0 * 10 + 1)%N with (N.pos 1). by rewrite digits_of_uint_acc, <- Hof.
  - exists "2"%char, (NilEmpty.string_of_uint l).
    split; [reflexivity|]. split; [cbn; tauto|].
    rewrite (digits_step 10 "2" _ 0 2 eq_refl eq_refl).
    change (0 * 10 + 2)%N with (N.pos 2). by rewrite digits_of_uint_acc, <- Hof.
  - exists "3"%char, (NilEmpty.string_of_uint l).
    split; [reflexivity|]. split; [cbn; tauto|].
    rewrite (digits_step 10 "3" _ 0 3 eq_refl eq_refl).
    change (0 * 10 + 3)%N with (N.pos 3). by rewrite digits_of_uint_acc, <- Hof.
  - exists "4"%char, (NilEmpty.string_of_uint l).
    split; [reflexivity|]. split; [cbn; tauto|].
    rewrite (digits_step 10 "4" _ 0 4 eq_refl eq_refl).
    change (0 * 10 + 4)%N with (N.pos 4). by rewrite digits_of_uint_acc, <- Hof.
  - exists "5"%char, (NilEmpty.string_of_uint l).
    split; [reflexivity|]. split; [cbn; tauto|].
    rewrite (digits_step 10 "5" _ 0 5 eq_refl eq_refl).
    change (0 * 10 + 5)%N with (N.pos 5). by rewrite digits_of_uint_acc, <- Hof.
  - exists "6"%char, (NilEmpty.string_of_uint l).
    split; [reflexivity|]. split; [cbn; tauto|].
    rewrite (digits_step 10 "6" _ 0 6 eq_refl eq_refl).
    change (0 * 10 + 6)%N with (N.pos 6). by rewrite digits_of_uint_acc, <- Hof.
  - exists "7"%char, (NilEmpty.string_of_uint l).
    split; [reflexivity|]. split; [cbn; tauto|].
    rewrite (digits_step 10 "7" _ 0 7 eq_refl eq_refl).
    change (0 * 10 + 7)%N with (N.pos 7). by rewrite digits_of_uint_acc, <- Hof.
  - exists "8"%char, (NilEmpty.string_of_uint l).
    split; [reflexivity|]. split; [cbn; tauto|].
    rewrite (digits_step 10 "8" _ 0 8 eq_refl eq_refl).
    change (0 * 10 + 8)%N with (N.pos 8). by rewrite digits_of_uint_acc, <- Hof.
  - exists "9"%char, (NilEmpty.string_of_uint l).
    split; [reflexivity|]. split; [cbn; tauto|].
    rewrite (digits_step 10 "9" _ 0 9 eq_refl eq_refl).
    change (0 * 10 + 9)%N with (N.pos 9). by rewrite digits_of_uint_acc, <- Hof.
Qed.

Lemma conversions_of_leading_digit c s errno :
  In c ["1"; "2"; "3"; "4"; "5"; "6"; "7"; "8"; "9"]%char ->
  let m := digits 10 (String c s) 0 in
  strtoul (String c s) errno
  = (if (2 ^ 64 - 1 <? m)%N then ((2 ^ 64 - 1)%N, ERANGE) else (m, errno))
  /\ strtoul (String "-" (String c s)) errno
     = (if (2 ^ 64 - 1 <? m)%N then ((2 ^ 64 - 1)%N, ERANGE)
        else (((2 ^ 64 - m) mod 2 ^ 64)%N, errno))
  /\ strtol (String c s) errno
     = (if (2 ^ 63 - 1 <? m)%N then ((2 ^ 63 - 1)%Z, ERANGE) else (Z.of_N m, errno))
  /\ strtol (String "-" (String c s)) errno
     = (if (2 ^ 63 <? m)%N then ((- 2 ^ 63)%Z, ERANGE) else ((- Z.of_N m)%Z, errno)).
Proof.
  intros Hc m.
  repeat (destruct Hc as [<-|Hc]; [repeat split; reflexivity|]). destruct Hc.
Qed.

Lemma strtoul_to_string n errno :
  strtoul (Str.to_string n) errno
  = (if (2 ^ 64 - 1 <? n)%N then ((2 ^ 64 - 1)%N, ERANGE) else (n, errno)).
Proof.
  destruct n as [|p]; [reflexivity|].
  destruct (to_string_positive p) as (c & s & -> & Hc & Hd).
  rewrite (proj1 (conversions_of_leading_digit c s errno Hc)). by rewrite Hd.
Qed.

Lemma strtoul_minus_to_string p errno :
  strtoul ("-" +:+ Str.to_string (N.pos p)) errno
  = (if (2 ^ 64 - 1 <? N.pos p)%N then ((2 ^ 64 - 1)%N, ERANGE)
     else (((2 ^ 64 - N.pos p) mod 2 ^ 64)%N, errno)).
Proof.
  destruct (to_string_positive p) as (c & s & -> & Hc & Hd).
  change ("-" +:+ String c s) with (String "-" (String c s)).
  rewrite (proj1 (proj2 (conversions_of_leading_digit c s errno Hc))). by rewrite Hd.
Qed.

Lemma strtol_to_string_signed z errno :
  strtol (to_string_signed z) errno
  = (if (2 ^ 63 - 1 <? z)%Z then ((2 ^ 63 - 1)%Z, ERANGE)
     else if (z <? - 2 ^ 63)%Z then ((- 2 ^ 63)%Z, ERANGE)
     else (z, errno)).
Proof.
  unfold to_string_signed. destruct z as [|p|p]; [reflexivity| |].
  - change (Z.pos p <? 0)%Z with false. cbv iota. change (Z.to_N (Z.pos p)) with (N.pos p).
    destruct (to_string_positive p) as (c & s & -> & Hc & Hd).
    rewrite (proj1 (proj2 (proj2 (conversions_of_leading_digit c s errno Hc)))), Hd.
    destruct (N.ltb_spec (2 ^ 63 - 1) (N.pos p)), (Z.ltb_spec (2 ^ 63 - 1) (Z.pos p));
      try lia; [done|].
    destruct (Z.ltb_spec (Z.pos p) (- 2 ^ 63)); [lia|done].
  - change (Z.neg p <? 0)%Z with true. cbv iota.
    change (Z.to_N (- Z.neg p)) with (N.pos p).
    destruct (to_string_positive p) as (c & s & -> & Hc & Hd).
    change ("-" +:+ String c s) with (String "-" (String c s)).
    rewrite (proj2 (proj2 (proj2 (conversions_of_leading_digit c s errno Hc)))), Hd.
    destruct (Z.ltb_spec (2 ^ 63 - 1) (Z.neg p)); [lia|].
    destruct (N.ltb_spec (2 ^ 63) (N.pos p)), (Z.ltb_spec (Z.neg p) (- 2 ^ 63));
      try lia; done.
Qed.

Lemma GetAsUInt64_into_decimal a errno f n :
  f <> "" -> _arguments a !! f = Some (Str.to_string n) ->
  GetAsUInt64_into a errno f
  = (if (2 ^ 64 - 1 <? n)%N || (errno =? ERANGE)%Z then
       (if (2 ^ 64 - 1 <? n)%N then ERANGE else errno,
        if _exceptions_enabled a
        then Throw ("Could not convert " +:+ Str.to_string n +:+ " to uint64_t")
        else Value None)
     else (errno, Value (Some n))).
Proof.
  intros Hf Hst. unfold GetAsUInt64_into. destruct f; [done|]. cbn [Str.empty].
  rewrite Hst, strtoul_to_string.
  destruct (2 ^ 64 - 1 <? n)%N; cbn [orb]; [done|].
  by destruct (errno =? ERANGE)%Z eqn:E; [apply Z.eqb_eq in E; subst|].
Qed.

(** A stored decimal numeral below 2^64, read while [errno] is clear,
    comes back as its number from each unsigned accessor whose type can hold
    it, and fails in the narrower ones with "<flag> was too large for ...";
    [errno] is left as it was. *)
Theorem unsigned_accessors_read_decimal (a : Args) (errno : Z) (f : string) (n : N) :
  f <> "" -> errno <> ERANGE ->
  _arguments a !! f = Some (Str.to_string n) ->
  (n < 2 ^ 64)%N ->
  GetAsUInt64 a errno f = (errno, Value n)
  /\ GetAsUInt32 a errno f
     = (errno, if (n <? 2 ^ 32)%N then Value n
               else failure a 0%N (f +:+ " was too large for uint32_t"))
  /\ GetAsUInt16 a errno f
     = (errno, if (n <? 2 ^ 16)%N then Value n
               else failure a 0%N (f +:+ " was too large for uint16_t"))
  /\ GetAsUInt8 a errno f
     = (errno, if (n <? 2 ^ 8)%N then Value n
               else failure a 0%N (f +:+ " was too large for uint8_t")).
Proof.
  intros Hf He Hst Hn.
  unfold GetAsUInt64, GetAsUInt32, GetAsUInt16, GetAsUInt8, failure.
  rewrite (GetAsUInt64_into_decimal a errno f n Hf Hst).
  destruct (N.ltb_spec (2 ^ 64 - 1) n); [lia|].
  destruct (Z.eqb_spec errno ERANGE); [done|]. cbn [orb].
  split; [done|]. split; [|split].
  - destruct (N.ltb_spec (2 ^ 32 - 1) n), (N.ltb_spec n (2 ^ 32)); try lia; [done|].
    destruct (N.ltb_spec n 0); [lia|]. by rewrite N.mod_small.
  - destruct (N.ltb_spec (2 ^ 16 - 1) n), (N.ltb_spec n (2 ^ 16)); try lia; [done|].
    by rewrite N.mod_small.
  - destruct (N.ltb_spec 255 n), (N.ltb_spec n (2 ^ 8)); try lia; [done|].
    by rewrite N.mod_small.
Qed.

Lemma unsigned_accessors_read_decimal_witness :
  let a := set_arguments {[ "--port" := Str.to_string 8080 ]} Args_default in
  GetAsUInt16 a 0 "--port" = (0%Z, Value 8080%N)
  /\ GetAsUInt8 a 0 "--port" = (0%Z, Throw "--port was too large for uint8_t").
Proof.
  intros a.
  destruct (unsigned_accessors_read_decimal a 0 "--port" 8080
              ltac:(discriminate) ltac:(discriminate) eq_refl ltac:(reflexivity))
    as (_ & _ & H16 & H8).
  split; [exact H16|exact H8].
Defined.

(** A stored decimal numeral of 2^64 or more is refused by the 64-bit
    unsigned accessor, which leaves [errno] at [ERANGE]; and once [errno] is
    [ERANGE] the accessor refuses every stored value, since it tests [errno]
    without ever clearing it. *)
Theorem unsigned_accessor_overflow_sticks (a : Args) (errno : Z) (f : string) :
  f <> "" ->
  (forall n, _arguments a !! f = Some (Str.to_string n) -> (2 ^ 64 <= n)%N ->
     GetAsUInt64 a errno f
     = (ERANGE,
        failure a 0%N ("Could not convert " +:+ Str.to_string n +:+ " to uint64_t")))
  /\ (forall value_str, _arguments a !! f = Some value_str ->
        fst (GetAsUInt64 a ERANGE f) = ERANGE
        /\ failed a (snd (GetAsUInt64 a ERANGE f))).
Proof.
  intros Hf. split.
  - intros n Hst Hn. unfold GetAsUInt64, failure.
    rewrite (GetAsUInt64_into_decimal a errno f n Hf Hst).
    destruct (N.ltb_spec (2 ^ 64 - 1) n); [|lia]. cbn [orb].
    by destruct (_exceptions_enabled a).
  - intros value_str Hst. unfold GetAsUInt64, GetAsUInt64_into, failed.
    destruct f; [done|]. cbn [Str.empty]. rewrite Hst.
    assert (He : snd (strtoul value_str ERANGE) = ERANGE).
    { unfold strtoul.
      match goal with
      | |- context [let '(_, _) := ?M in _] => destruct M as [negative s0]
      end.
      by repeat match goal with |- context [if ?b then _ else _] => destruct b end. }
    destruct (strtoul value_str ERANGE) as [v e]. cbn [snd] in He. subst e.
    cbn [Z.eqb ERANGE Pos.eqb]. by destruct (_exceptions_enabled a).
Qed.

Lemma unsigned_accessor_overflow_sticks_witness :
  GetAsUInt64 two_numbers 0 "--big" = (ERANGE, Value 0%N)
  /\ failed two_numbers (snd (GetAsUInt64 two_numbers ERANGE "--level")).
Proof.
  destruct (unsigned_accessor_overflow_sticks two_numbers 0 "--big" ltac:(discriminate))
    as [H1 _].
  destruct (unsigned_accessor_overflow_sticks two_numbers 0 "--level" ltac:(discriminate))
    as [_ H2].
  split.
  - exact (H1 99999999999999999999%N eq_refl ltac:(vm_compute; discriminate)).
  - exact (proj2 (H2 "255" eq_refl)).
Defined.

(** A stored numeral with a minus sign is not refused by the 64-bit
    unsigned accessor: for a magnitude from 1 to 2^64 - 1 it returns 2^64
    minus the magnitude, so the 8-bit accessor reports "-1" as too large. *)
Theorem unsigned_accessor_wraps_negative
  (a : Args) (errno : Z) (f : string) (p : positive) :
  f <> "" -> errno <> ERANGE ->
  _arguments a !! f = Some ("-" +:+ Str.to_string (N.pos p)) ->
  (N.pos p < 2 ^ 64)%N ->
  GetAsUInt64 a errno f = (errno, Value (2 ^ 64 - N.pos p)%N)
  /\ ((N.pos p <= 2 ^ 64 - 2 ^ 8)%N ->
      GetAsUInt8 a errno f = (errno, failure a 0%N (f +:+ " was too large for uint8_t"))).
Proof.
  intros Hf He Hst Hp.
  unfold GetAsUInt64, GetAsUInt8, GetAsUInt64_into, failure.
  destruct f; [done|]. cbn [Str.empty]. rewrite Hst, strtoul_minus_to_string.
  destruct (N.ltb_spec (2 ^ 64 - 1) (N.pos p)); [lia|].
  destruct (Z.eqb_spec errno ERANGE); [done|].
  rewrite N.mod_small by lia. split; [done|]. intros Hsmall.
  by destruct (N.ltb_spec 255 (2 ^ 64 - N.pos p)); [|lia].
Qed.

Lemma unsigned_accessor_wraps_negative_witness :
  let a := set_arguments {[ "--n" := "-1" ]} Args_default in
  GetAsUInt64 a 0 "--n" = (0%Z, Value 18446744073709551615%N)
  /\ GetAsUInt8 a 0 "--n" = (0%Z, Throw "--n was too large for uint8_t").
Proof.
  intros a.
  destruct (unsigned_accessor_wraps_negative a 0 "--n" 1
              ltac:(discriminate) ltac:(discriminate) eq_refl ltac:(reflexivity))
    as [H1 H2].
  split; [exact H1|]. apply H2. vm_compute. discriminate.
Defined.

Lemma cast_signed_in_range bits v :
  (0 < bits)%Z -> (- 2 ^ (bits - 1) <= v < 2 ^ (bits - 1))%Z -> cast_signed bits v = v.
Proof.
  intros Hb Hv. unfold cast_signed.
  assert (H2 : (2 ^ bits = 2 * 2 ^ (bits - 1))%Z).
  { rewrite <- Z.pow_succ_r by lia. f_equal. lia. }
  rewrite Z.mod_small by lia. lia.
Qed.

(** A stored decimal numeral of a 64-bit signed value, with its minus sign
    if negative, read while [errno] is clear, comes back as its number from
    each signed accessor whose type can hold it; the narrower ones fail,
    above the range with "... is too large to convert to ..." and below it
    with the accessor's own "too small" or "too low" text, both followed by
    the number. *)
Theorem signed_accessors_read_decimal (a : Args) (errno : Z) (f : string) (z : Z) :
  f <> "" -> errno <> ERANGE ->
  _arguments a !! f = Some (to_string_signed z) ->
  (- 2 ^ 63 <= z < 2 ^ 63)%Z ->
  GetAsInt64 a errno f = (errno, Value z)
  /\ GetAsInt32 a errno f
     = (errno,
        if (2 ^ 31 - 1 <? z)%Z
        then failure a 0%Z (f +:+ " is too large to convert to int32_t: " +:+ to_string_signed z)
        else if (z <? - 2 ^ 31)%Z
        then failure a 0%Z (f +:+ " was too low to convert to int32_t" +:+ to_string_signed z)
        else Value z)
  /\ GetAsInt16 a errno f
     = (errno,
        if (2 ^ 15 - 1 <? z)%Z
        then failure a 0%Z (f +:+ " is too large to convert to int16_t: " +:+ to_string_signed z)
        else if (z <? - 2 ^ 15)%Z
        then failure a 0%Z (f +:+ " is too small to convert to int16_t: " +:+ to_string_signed z)
        else Value z)
  /\ GetAsInt8 a errno f
     = (errno,
        if (2 ^ 7 - 1 <? z)%Z
        then failure a 0%Z (f +:+ " is too large to convert to int8_t: " +:+ to_string_signed z)
        else if (z <? - 2 ^ 7)%Z
        then failure a 0%Z (f +:+ " is too small to convert to int8_t: " +:+ to_string_signed z)
        else Value z).
Proof.
  intros Hf He Hst Hz.
  assert (Hinto : GetAsInt64_into a errno f = (errno, Value (Some z))).
  { unfold GetAsInt64_into. destruct f; [done|]. cbn [Str.empty].
    rewrite Hst, strtol_to_string_signed.
    destruct (Z.ltb_spec (2 ^ 63 - 1) z); [lia|].
    destruct (Z.ltb_spec z (- 2 ^ 63)); [lia|].
    by destruct (Z.eqb_spec errno ERANGE). }
  unfold GetAsInt64, GetAsInt32, GetAsInt16, GetAsInt8, failure. rewrite Hinto.
  split; [done|]. split; [|split].
  - destruct (Z.ltb_spec (2 ^ 31 - 1) z); [done|].
    destruct (Z.ltb_spec z (- 2 ^ 31)); [done|].
    by rewrite (cast_signed_in_range 32 z) by (cbn; lia).
  - destruct (Z.ltb_spec (2 ^ 15 - 1) z); [done|].
    destruct (Z.ltb_spec z (- 2 ^ 15)); [done|].
    by rewrite (cast_signed_in_range 16 z) by (cbn; lia).
  - destruct (Z.ltb_spec (2 ^ 7 - 1) z); [done|].
    destruct (Z.ltb_spec z (- 2 ^ 7)); [done|].
    by rewrite (cast_signed_in_range 8 z) by (cbn; lia).
Qed.

Lemma signed_accessors_read_decimal_witness :
  let a := set_arguments {[ "--t" := to_string_signed (-200) ]} Args_default in
  GetAsInt16 a 0 "--t" = (0%Z, Value (-200)%Z)
  /\ GetAsInt8 a 0 "--t" = (0%Z, Throw "--t is too small to convert to int8_t: -200").
Proof.
  intros a.
  destruct (signed_accessors_read_decimal a 0 "--t" (-200)
              ltac:(discriminate) ltac:(discriminate) eq_refl ltac:(split; [discriminate|reflexivity]))
    as (_ & _ & H16 & H8).
  split; [exact H16|exact H8].
Defined.
